(** * onnx-tensorrt: operator lowering and error recorder

    A shallow embedding of the parts of [builtin_op_importers.cpp] and
    [onnxErrorRecorder.{hpp,cpp}] that the specification's claims are
    about, with the theorems that settle them.

    Conventions of the embedding.
    - [nvinfer1::Dims] is a list of extents; [nbDims] is its length and
      [d[i]] is [dim d i].  Arithmetic on [int] extents is done in [Z];
      where an importer multiplies extents, the product is written with
      its 32-bit wrap-around ([wrap32]), and the theorems about it
      assume extents for which no product overflows (signed overflow is
      undefined behaviour in C++).  Narrowing conversions ([int64_t] to
      [int], [int32_t] to [size_t]) are modular and are written out with
      [wrap32]/[to_size_t].
    - The backend network ([nvinfer1::INetworkDefinition]) is an opaque
      external API.  It is modelled as the log of the layers the importer
      has added, in order; a layer handle is its index in the log and a
      tensor handle names the layer output that produces it.  Layer
      creation yields a layer, except for an elementwise layer over
      operands whose extents cannot be broadcast, for which the backend
      yields none.
    - An importer is a computation over the importer context that either
      returns outputs or fails; the context it leaves behind is kept in
      both cases, since the network is never rolled back. *)

From Stdlib Require Import ZArith List String Bool Lia Permutation.
From stdpp Require Import base option list gmap strings sorting.

Local Open Scope Z_scope.

(** ** Backend objects *)

Module Trt.

Abbreviation Dims := (list Z) (only parsing).

Definition MAX_DIMS : Z := 8.

Definition nbDims (d : Dims) : Z := Z.of_nat (length d).

(** [d.d[i]]; storage past [nbDims] reads as 0. *)
Definition dim (d : Dims) (i : Z) : Z :=
  if i <? 0 then 0 else nth (Z.to_nat i) d 0.

(** [d.d[i] = v] *)
Definition set_dim (d : Dims) (i : Z) (v : Z) : Dims :=
  if i <? 0 then d else <[Z.to_nat i := v]> d.

(** [makeDims(nbDims, val)] *)
Definition makeDims (n : Z) (val : Z) : Dims := repeat val (Z.to_nat n).

Definition volume (d : Dims) : Z := fold_right Z.mul 1 d.

Definition wrap32 (x : Z) : Z := (x + 2 ^ 31) mod 2 ^ 32 - 2 ^ 31.

Abbreviation Permutation := (list Z) (only parsing).

Inductive TensorSrc :=
| NetworkInput (name : string)
| LayerOutput (layer : nat) (index : nat).

Record ITensor := mkTensor { t_src : TensorSrc; t_dims : Dims }.

Record ShapedWeights := mkWeights {
  w_type : Z;
  w_values : list Z;
  w_shape : Dims
}.

Inductive ElementWiseOperation :=
| kSUM | kPROD | kMAX | kMIN | kSUB | kDIV | kPOW | kFLOOR_DIV
| kEQUAL | kGREATER | kLESS.

Inductive PoolingType := kMAX_POOL | kAVERAGE.

Inductive PaddingMode :=
| kEXPLICIT_ROUND_DOWN | kEXPLICIT_ROUND_UP | kSAME_UPPER | kSAME_LOWER.

Inductive TripLimit := kCOUNT | kWHILE_NONZERO.

Inductive LoopOutput := kLAST_VALUE | kCONCATENATE | kREVERSE.

Inductive Layer :=
| LConstant (shape : Dims) (weights : ShapedWeights)
| LIdentity (input : ITensor)
| LShuffle (input : ITensor) (firstTranspose : option Permutation)
    (reshape : option Dims)
| LElementWise (a b : ITensor) (op : ElementWiseOperation)
| LSlice (input : ITensor) (start size stride : Dims)
| LPooling (input : ITensor) (type : PoolingType) (window stride : Dims)
    (excludePadding : bool) (mode : PaddingMode) (pre post : Dims)
| LLoop
| LTripLimit (loop : nat) (t : ITensor) (kind : TripLimit)
| LRecurrence (loop : nat) (initial : ITensor) (update : option ITensor)
| LLoopOutput (loop : nat) (input : ITensor) (kind : LoopOutput) (axis : Z)
    (len : option ITensor).

Abbreviation Network := (list Layer) (only parsing).

End Trt.

Export Trt.

(** ** Graph objects *)

Module Onnx.

(** Modelled from the spec: the attribute payload (section 3, "Attribute:
    a named, typed payload"); the protobuf classes are not among the
    sources.  A float is kept as its IEEE-754 single-precision bit
    pattern. *)
Inductive AttributeProto :=
| A_int (i : Z)
| A_float (bits : Z)
| A_string (s : string)
| A_ints (l : list Z)
| A_floats (l : list Z)
| A_strings (l : list string)
| A_graph (g : GraphProto)
with GraphProto :=
| mkGraph (g_input : list string) (g_node : list NodeProto)
    (g_output : list string)
with NodeProto :=
| mkNode (op_type : string) (input : list string) (output : list string)
    (attribute : list (string * AttributeProto)).

Definition node_input (n : NodeProto) : list string :=
  match n with mkNode _ i _ _ => i end.

Definition node_attribute (n : NodeProto) : list (string * AttributeProto) :=
  match n with mkNode _ _ _ a => a end.

Definition graph_input (g : GraphProto) : list string :=
  match g with mkGraph i _ _ => i end.

Definition graph_output (g : GraphProto) : list string :=
  match g with mkGraph _ _ o => o end.

(** ONNX element types ([TensorProto::DataType]). *)
Definition FLOAT : Z := 1.
Definition INT32 : Z := 6.
Definition INT64 : Z := 7.

End Onnx.

Export Onnx.

(** ** Importer context and results *)

Module Importer.

(** The importer's [ErrorCode] enumerators that the sources use. *)
Inductive ErrorCode :=
| kSUCCESS
| kINTERNAL_ERROR
| kINVALID_VALUE
| kINVALID_NODE
| kUNSUPPORTED_NODE.

(** How a lowering can fail: a [Status] carrying an error code (what
    [ASSERT] and [TRT_CHECK] return), the failure of the attribute
    accessor, a [std::out_of_range] thrown by [at], or an access the
    language leaves undefined (unchecked index past the end, null
    dereference). *)
Inductive Failure :=
| Status (c : ErrorCode)
| InvalidAttribute
| OutOfRange
| Undefined.

Inductive Res (A : Type) :=
| Ok (a : A)
| Err (f : Failure).

Arguments Ok {A} a.
Arguments Err {A} f.

(** Modelled from the spec: the value model [TensorOrWeights] (section
    3, "Value"; section 4.1), whose class is not among the sources.  A
    value is a tensor handle or a weights buffer; [Absent] is the null
    value the dispatcher passes for an omitted optional input. *)
Inductive TensorOrWeights :=
| Tensor (t : ITensor)
| Weights (w : ShapedWeights)
| Absent.

(** The importer context: the opset of the model, the network under
    construction (its layers, and whether the ceiling formula for
    pooling output dimensions was installed on it) and the table of
    named values. *)
Record Ctx := mkCtx {
  opset : Z;
  network : Network;
  ceilingPoolFormula : bool;
  tensors : gmap string TensorOrWeights
}.

Definition M (A : Type) : Type := Ctx -> Res A * Ctx.

Definition ret {A} (a : A) : M A := fun c => (Ok a, c).

Definition fail {A} (f : Failure) : M A := fun c => (Err f, c).

Definition bind {A B} (m : M A) (k : A -> M B) : M B :=
  fun c => match m c with
           | (Ok a, c') => k a c'
           | (Err f, c') => (Err f, c')
           end.

Notation "'let*' x ':=' m 'in' k" := (bind m (fun x => k))
  (at level 10, x pattern, m at level 100, k at level 200).

(** [ASSERT(cond, code)] *)
Definition ASSERT (cond : bool) (code : ErrorCode) : M unit :=
  if cond then ret tt else fail (Status code).

Definition lift {A} (r : Res A) : M A := fun c => (r, c).

Definition getOpsetVersion : M Z := fun c => (Ok (opset c), c).

Definition getNetwork : M Network := fun c => (Ok (network c), c).

(** Adds a layer at the end of the log and returns its handle. *)
Definition addLayer (l : Layer) : M nat :=
  fun c => (Ok (length (network c)),
            mkCtx (opset c) (network c ++ [l]) (ceilingPoolFormula c)
              (tensors c)).

(** A setter called on a layer handle after the layer was added. *)
Definition updateLayer (i : nat) (f : Layer -> Layer) : M unit :=
  fun c => (Ok tt, mkCtx (opset c) (alter f i (network c))
                     (ceilingPoolFormula c) (tensors c)).

(** [ctx->network()->setPoolingOutputDimensionsFormula(&ceilingPool)] *)
Definition setPoolingOutputDimensionsFormula : M unit :=
  fun c => (Ok tt, mkCtx (opset c) (network c) true (tensors c)).

(** [ctx->registerTensor(value, name)] *)
Definition registerTensor (v : TensorOrWeights) (name : string) : M unit :=
  fun c => (Ok tt, mkCtx (opset c) (network c) (ceilingPoolFormula c)
                     (<[name := v]> (tensors c))).

(** [ctx->tensors().at(name)] *)
Definition tensorsAt (name : string) : M TensorOrWeights :=
  fun c => match tensors c !! name with
           | Some v => (Ok v, c)
           | None => (Err OutOfRange, c)
           end.

(** [v.at(i)] *)
Definition vec_at {A} (v : list A) (i : Z) : Res A :=
  if i <? 0 then Err OutOfRange
  else match v !! Z.to_nat i with
       | Some a => Ok a
       | None => Err OutOfRange
       end.

(** [v[i]], unchecked. *)
Definition vec_idx {A} (v : list A) (i : Z) : Res A :=
  if i <? 0 then Err Undefined
  else match v !! Z.to_nat i with
       | Some a => Ok a
       | None => Err Undefined
       end.

(** [operator bool] of a value: false for the null value only. *)
Definition tow_bool (v : TensorOrWeights) : bool :=
  match v with Absent => false | _ => true end.

(** Modelled from the spec: [shapeOf] (section 4.1), "works uniformly
    over both kinds without materialization". *)
Definition shape (v : TensorOrWeights) : Res Dims :=
  match v with
  | Tensor t => Ok (t_dims t)
  | Weights w => Ok (w_shape w)
  | Absent => Err Undefined
  end.

(** Modelled from the spec: [asTensor] (section 4.1): "if [v] already
    holds one, returns it; if [v] holds Weights, emits a
    constant-producing layer from the buffer and returns its output
    handle". *)
Definition convertToTensor (v : TensorOrWeights) : M ITensor :=
  match v with
  | Tensor t => ret t
  | Weights w =>
      let* l := addLayer (LConstant (w_shape w) w) in
      ret (mkTensor (LayerOutput l 0) (w_shape w))
  | Absent => fail Undefined
  end.

(** Modelled from the spec: rank expansion (section 4.4), "padding with
    leading size-1 dims". *)
Definition expand_dims (d : Dims) (ndim_new : Z) : Dims :=
  repeat 1 (Z.to_nat (ndim_new - nbDims d)) ++ d.

(** Modelled from the spec: reshape through the backend's shuffle layer
    (section 6, "shuffle(reshape+transpose)"). *)
Definition reshape_tensor (t : ITensor) (new_shape : Dims) : M ITensor :=
  let* l := addLayer (LShuffle t None (Some new_shape)) in
  ret (mkTensor (LayerOutput l 0) new_shape).

(** Modelled from the spec: the identity pass-through (section 4.4); an
    identity layer over the tensor, whose output is returned. *)
Definition identity (t : ITensor) : M ITensor :=
  let* l := addLayer (LIdentity t) in
  ret (mkTensor (LayerOutput l 0) (t_dims t)).

(** Modelled from the spec: [normalizeAxis] (section 4.3): "negative axis
    [a] becomes [a + rank]; out-of-range after normalization is an
    InvalidAttribute failure". *)
Definition convert_axis (axis : Z) (nbDims : Z) : Res Z :=
  let axis := if axis <? 0 then axis + nbDims else axis in
  if (0 <=? axis) && (axis <? nbDims) then Ok axis else Err InvalidAttribute.

(** Modelled from the spec: equality of two shapes (section 3, "Shape:
    ordered sequence of dimension extents"): same rank and same extents.
    The [operator==] on [Dims] is declared in a header that is not among
    the sources. *)
Definition dims_eqb (a b : Dims) : bool := bool_decide (a = b).

(** Modelled from the spec: the attribute accessor (section 2, "typed,
    defaulted lookup over a node's named-attribute list"); a required
    attribute that is missing or of the wrong type is an
    InvalidAttribute failure (section 7). *)
Definition OnnxAttrs (node : NodeProto) : gmap string AttributeProto :=
  list_to_map (node_attribute node).

Definition attrs_count (attrs : gmap string AttributeProto) (key : string)
  : bool :=
  bool_decide (is_Some (attrs !! key)).

(** [get<int>]: the importers keep the value in an [int], so the
    attribute's 64-bit integer is narrowed. *)
Definition attrs_get_int (attrs : gmap string AttributeProto) (key : string)
  : Res Z :=
  match attrs !! key with
  | Some (A_int i) => Ok (wrap32 i)
  | _ => Err InvalidAttribute
  end.

Definition attrs_get_int_default (attrs : gmap string AttributeProto)
  (key : string) (default : Z) : Res Z :=
  if attrs_count attrs key then attrs_get_int attrs key else Ok default.

Definition attrs_get_float (attrs : gmap string AttributeProto)
  (key : string) : Res Z :=
  match attrs !! key with
  | Some (A_float b) => Ok b
  | _ => Err InvalidAttribute
  end.

Definition attrs_get_float_default (attrs : gmap string AttributeProto)
  (key : string) (default : Z) : Res Z :=
  if attrs_count attrs key then attrs_get_float attrs key else Ok default.

Definition attrs_get_string (attrs : gmap string AttributeProto)
  (key : string) : Res string :=
  match attrs !! key with
  | Some (A_string s) => Ok s
  | _ => Err InvalidAttribute
  end.

Definition attrs_get_string_default (attrs : gmap string AttributeProto)
  (key : string) (default : string) : Res string :=
  if attrs_count attrs key then attrs_get_string attrs key else Ok default.

Definition attrs_get_ints (attrs : gmap string AttributeProto) (key : string)
  : Res (list Z) :=
  match attrs !! key with
  | Some (A_ints l) => Ok l
  | _ => Err InvalidAttribute
  end.

Definition attrs_get_ints_default (attrs : gmap string AttributeProto)
  (key : string) (default : list Z) : Res (list Z) :=
  if attrs_count attrs key then attrs_get_ints attrs key else Ok default.

Definition attrs_get_graph (attrs : gmap string AttributeProto)
  (key : string) : Res GraphProto :=
  match attrs !! key with
  | Some (A_graph g) => Ok g
  | _ => Err InvalidAttribute
  end.

(** [std::iota] over a vector of [n] elements, from 0. *)
Definition iota (n : nat) : list Z := map Z.of_nat (seq 0 n).

End Importer.

Export Importer.

(** ** Operator importers ([builtin_op_importers.cpp]) *)

Module Ops.

(** A [for] loop over the elements (or the indices) [xs], threading the
    loop-carried locals. *)
Fixpoint forM {T S : Type} (xs : list T) (body : T -> S -> M S) (s : S)
  : M S :=
  match xs with
  | [] => ret s
  | x :: rest => let* s' := body x s in forM rest body s'
  end.

(** The indices of [for (int i = lo; i < hi; ++i)]. *)
Definition range (lo hi : Z) : list Z :=
  map (fun k => lo + Z.of_nat k) (seq 0 (Z.to_nat (hi - lo))).

(** [weightsToVector]: the status it returns and the contents of
    [*weightVector] afterwards. *)
Definition weightsToVector (weights : TensorOrWeights) (weightVector : list Z)
  : Res unit * list Z :=
  match weights with
  | Weights w =>
      if negb ((w_type w =? INT32) || (w_type w =? INT64))
      then (Err (Status kINVALID_NODE), weightVector)
      else (Ok tt, take (Z.to_nat (volume (w_shape w))) (w_values w))
  | _ => (Err (Status kUNSUPPORTED_NODE), weightVector)
  end.

(** [static_cast<int>(std::ceil(static_cast<float>(n) / d))]; the
    quotient is taken exactly (single-precision rounding of operands
    beyond 2^24 is not modelled). *)
Definition float_ceil_div (n d : Z) : Z := - ((- n) / d).

Record SliceVars := mkSliceVars {
  sliceStart : Dims;
  sliceEnd : Dims;
  sliceSize : Dims;
  sliceStride : Dims
}.

(** One iteration of the loop over [axes] in [importSlice]. *)
Definition slice_axis (dims : Dims) (starts ends axes steps : list Z)
  (i : Z) (v : SliceVars) : M SliceVars :=
  let* a := lift (vec_idx axes i) in
  let axis := wrap32 a in
  let* axis := lift (convert_axis axis (nbDims dims)) in
  let* starts_i := lift (vec_idx starts i) in
  let* ends_i := lift (vec_idx ends i) in
  let* steps_i := lift (vec_idx steps i) in
  if (starts_i =? 0) && (dim dims axis <=? ends_i) && (steps_i =? 1)
  then ret v
  else
    let* _ := ASSERT (negb (steps_i =? 0)) kINVALID_VALUE in
    let stride' := set_dim (sliceStride v) axis (wrap32 steps_i) in
    let upperlimit := if steps_i <? 0 then dim dims axis - 1 else dim dims axis in
    let lowerlimit := if steps_i <? 0 then -1 else 0 in
    let start' :=
      set_dim (sliceStart v) axis
        (wrap32 (if starts_i <? 0
                 then Z.max (dim dims axis + starts_i) lowerlimit
                 else Z.min starts_i upperlimit)) in
    let end' :=
      set_dim (sliceEnd v) axis
        (wrap32 (if ends_i <? 0
                 then Z.max (dim dims axis + ends_i) lowerlimit
                 else Z.min ends_i upperlimit)) in
    let size' :=
      set_dim (sliceSize v) axis
        (Z.max (float_ceil_div (dim end' axis - dim start' axis) steps_i) 0) in
    ret (mkSliceVars start' end' size' stride').

(** Entry [i] of the slice parameters selects the whole of its axis:
    start 0, end at or past the extent, step 1 (the test of the "special
    pass through for no-ops"). *)
Definition full_range (dims : Dims) (starts ends axes steps : list Z) (i : Z)
  : Prop :=
  exists a axis e,
    vec_idx axes i = Ok a
    /\ convert_axis (wrap32 a) (nbDims dims) = Ok axis
    /\ vec_idx starts i = Ok 0
    /\ vec_idx ends i = Ok e /\ dim dims axis <= e
    /\ vec_idx steps i = Ok 1.

(** The opening block of [importSlice]: [starts], [ends], [axes] and
    [steps], from the operands (opset 10 and later) or from the
    attributes. *)
Definition slice_parameters (node : NodeProto) (inputs : list TensorOrWeights)
  : M (list Z * list Z * list Z * list Z) :=
  let* ver := getOpsetVersion in
  if 10 <=? ver then
    let nbInputs := Z.of_nat (length (node_input node)) in
    let* _ := ASSERT ((3 <=? nbInputs) && (nbInputs <=? 5)) kUNSUPPORTED_NODE in
    let* in1 := lift (vec_at inputs 1) in
    let starts := snd (weightsToVector in1 []) in
    let* in2 := lift (vec_at inputs 2) in
    let ends := snd (weightsToVector in2 []) in
    let* axes :=
      if 3 <? Z.of_nat (length inputs) then
        let* in3 := lift (vec_at inputs 3) in
        if tow_bool in3 then ret (snd (weightsToVector in3 []))
        else ret (iota (length starts))
      else ret (iota (length starts)) in
    let* steps :=
      if 4 <? Z.of_nat (length inputs) then
        let* in4 := lift (vec_at inputs 4) in
        if tow_bool in4 then ret (snd (weightsToVector in4 []))
        else ret (repeat 1 (length starts))
      else ret (repeat 1 (length starts)) in
    ret (starts, ends, axes, steps)
  else
    let attrs := OnnxAttrs node in
    let* starts := lift (attrs_get_ints attrs "starts") in
    let* ends := lift (attrs_get_ints attrs "ends") in
    let defaultAxes := iota (length starts) in
    let* axes := lift (attrs_get_ints_default attrs "axes" defaultAxes) in
    ret (starts, ends, axes, repeat 1 (length starts)).

(** The check after the loop that the slice layer gets no extent of 0. *)
Definition slice_size_nonzero (sliceSize : Dims) (i : Z) (_ : unit) : M unit :=
  ASSERT (negb (dim sliceSize i =? 0)) kINVALID_VALUE.

(** [DEFINE_BUILTIN_OP_IMPORTER(Slice)] *)
Definition importSlice (node : NodeProto) (inputs : list TensorOrWeights)
  : M (list TensorOrWeights) :=
  let* in0 := lift (vec_at inputs 0) in
  let* tensor := convertToTensor in0 in
  let* (starts, ends, axes, steps) := slice_parameters node inputs in
  let dims := t_dims tensor in
  let nb := nbDims dims in
  let init := mkSliceVars (makeDims nb 0) dims dims (makeDims nb 1) in
  let* v := forM (iota (length axes)) (slice_axis dims starts ends axes steps) init in
  if dims_eqb (sliceSize v) (makeDims nb 0) then ret [Tensor tensor]
  else
    let* _ := forM (iota (length axes)) (slice_size_nonzero (sliceSize v)) tt in
    let* l := addLayer (LSlice tensor (sliceStart v) (sliceSize v) (sliceStride v)) in
    ret [Tensor (mkTensor (LayerOutput l 0) (sliceSize v))].

(** [is_transpose_required]: false when the permutation moves no data. *)
Definition is_transpose_required (shape : Dims) (perm : Trt.Permutation)
  : bool :=
  let ndim := nbDims shape in
  let step (st : bool * Z) (dst_i : Z) : bool * Z :=
    let (found, prev_significant_dim) := st in
    if found then st
    else
      let src_i := dim perm dst_i in
      let dim_i := dim shape src_i in
      if negb (dim_i =? 1) then
        if dim_i =? -1 then (true, prev_significant_dim)
        else if src_i <? prev_significant_dim then (true, prev_significant_dim)
        else (false, src_i)
      else st in
  fst (fold_left step (iota (length shape)) (false, 0)).

(** [transpose_tensor] *)
Definition transpose_tensor (tensor : ITensor) (perm : Trt.Permutation)
  : M ITensor :=
  let shape := t_dims tensor in
  let new_shape := map (fun i => dim shape (dim perm i)) (iota (length shape)) in
  let* l := addLayer (LShuffle tensor None None) in
  let* _ :=
    if is_transpose_required shape perm
    then updateLayer l (fun _ => LShuffle tensor (Some perm) None)
    else updateLayer l (fun _ => LShuffle tensor None (Some new_shape)) in
  ret (mkTensor (LayerOutput l 0) new_shape).

(** [applyLegacyBinaryOpBroadcasting]; [rhs] is passed by reference and
    its value after the call is returned. *)
Definition applyLegacyBinaryOpBroadcasting (node : NodeProto)
  (lhs rhs : TensorOrWeights) : M TensorOrWeights :=
  let* lhs_shape := lift (shape lhs) in
  let* rhs_shape := lift (shape rhs) in
  let lhs_ndim := nbDims lhs_shape in
  let rhs_ndim := nbDims rhs_shape in
  let attrs := OnnxAttrs node in
  let* broadcasting_on :=
    if attrs_count attrs "axis" && attrs_count attrs "broadcast"
    then let* b := lift (attrs_get_int attrs "broadcast") in ret (negb (b =? 0))
    else ret false in
  if (lhs_ndim <=? rhs_ndim) || negb broadcasting_on then ret rhs
  else
    let* axis := lift (attrs_get_int attrs "axis") in
    let axis := if axis <? 0 then axis + lhs_ndim else axis in
    let num_dims_to_add_at_end := lhs_ndim - rhs_ndim - axis in
    let* _ := ASSERT (0 <=? num_dims_to_add_at_end) kINVALID_NODE in
    let new_shape :=
      repeat 1 (Z.to_nat axis) ++ rhs_shape
        ++ repeat 1 (Z.to_nat num_dims_to_add_at_end) in
    match rhs with
    | Weights w => ret (Weights (mkWeights (w_type w) (w_values w) new_shape))
    | Tensor t => let* t' := reshape_tensor t new_shape in ret (Tensor t')
    | Absent => fail Undefined
    end.

(** Modelled from the spec: [broadcastShapes] on one pair of extents
    (section 4.3): "each dimension must be equal, 1, or dynamic; output
    extent is the larger of the two unless either is dynamic, in which
    case dynamic wins unless the other is a concrete non-1 value (errors
    if the two concrete non-1 values actually differ)".  A dynamic
    extent is -1. *)
Definition broadcast_extent (x y : Z) : option Z :=
  if x =? -1 then Some (if (y =? -1) || (y =? 1) then -1 else y)
  else if y =? -1 then Some (if x =? 1 then -1 else x)
  else if (x =? y) || (x =? 1) || (y =? 1) then Some (Z.max x y)
  else None.

(** Output extents of an elementwise layer over operands of one rank,
    by the rule above; [None] where the extents cannot be broadcast. *)
Fixpoint elementwiseDims (a b : Dims) : option Dims :=
  match a, b with
  | [], [] => Some []
  | x :: a, y :: b =>
      d ← broadcast_extent x y; ds ← elementwiseDims a b; Some (d :: ds)
  | _, _ => None
  end.

(** [ctx->network()->addElementWise(a, b, op)]: the output of the layer
    added, or [None] for the null pointer the backend returns when it
    cannot broadcast the operands.  The backend is outside the sources;
    its rule is the one above. *)
Definition addElementWise (a b : ITensor) (op : ElementWiseOperation)
  : M (option ITensor) :=
  match elementwiseDims (t_dims a) (t_dims b) with
  | Some d =>
      let* l := addLayer (LElementWise a b op) in
      ret (Some (mkTensor (LayerOutput l 0) d))
  | None => ret None
  end.

(** The body of the first loop of [combineTensorsElementwise]: the
    running maximum of the operand ranks. *)
Definition ndim_max_step (input : TensorOrWeights) (ndim_max : Z) : M Z :=
  let* s := lift (shape input) in
  ret (Z.max ndim_max (nbDims s)).

(** The body of its second loop: the operand as a tensor of rank
    [ndim_max], appended to [input_tensors]. *)
Definition expand_operand (ndim_max : Z) (input : TensorOrWeights)
  (input_tensors : list ITensor) : M (list ITensor) :=
  let* tensor_ptr := convertToTensor input in
  let* tensor_ptr :=
    if negb (nbDims (t_dims tensor_ptr) =? ndim_max) then
      reshape_tensor tensor_ptr (expand_dims (t_dims tensor_ptr) ndim_max)
    else ret tensor_ptr in
  let* _ := ASSERT (nbDims (t_dims tensor_ptr) =? ndim_max) kUNSUPPORTED_NODE in
  ret (input_tensors ++ [tensor_ptr]).

(** The body of its last loop: [combined] folded with operand [i].  The
    last branch is not reached: [ASSERT(layer, ...)] has returned. *)
Definition combine_step (input_tensors : list ITensor)
  (binary_op : ElementWiseOperation) (i : Z) (combined : ITensor)
  : M ITensor :=
  let* tensor := lift (vec_at input_tensors i) in
  let* _ := ASSERT (nbDims (t_dims tensor) =? nbDims (t_dims combined))
              kUNSUPPORTED_NODE in
  let* layer := addElementWise combined tensor binary_op in
  let* _ := ASSERT (bool_decide (is_Some layer)) kUNSUPPORTED_NODE in
  match layer with
  | Some output => ret output
  | None => ret combined
  end.

(** [combineTensorsElementwise] *)
Definition combineTensorsElementwise (node : NodeProto)
  (inputs : list TensorOrWeights) (binary_op : ElementWiseOperation)
  (legacy_binary_op_broadcasting : bool) : M (list TensorOrWeights) :=
  let* _ := ASSERT (negb (bool_decide (inputs = []))) kINVALID_NODE in
  let* ver := getOpsetVersion in
  let* inputs :=
    if (ver <? 7) && legacy_binary_op_broadcasting then
      let* _ := ASSERT (length inputs =? 2)%nat kINTERNAL_ERROR in
      let* lhs := lift (vec_idx inputs 0) in
      let* rhs := lift (vec_idx inputs 1) in
      let* rhs' := applyLegacyBinaryOpBroadcasting node lhs rhs in
      ret [lhs; rhs']
    else ret inputs in
  let* ndim_max := forM inputs ndim_max_step (-1) in
  let* input_tensors := forM inputs (expand_operand ndim_max) [] in
  let* combined := lift (vec_at input_tensors 0) in
  if (length input_tensors =? 1)%nat then
    let* out := identity combined in
    ret [Tensor out]
  else
    let* combined :=
      forM (range 1 (Z.of_nat (length input_tensors)))
        (combine_step input_tensors binary_op) combined in
    ret [Tensor combined].

(** [DEFINE_BUILTIN_OP_IMPORTER(Add)] *)
Definition importAdd (node : NodeProto) (inputs : list TensorOrWeights)
  : M (list TensorOrWeights) :=
  combineTensorsElementwise node inputs kSUM true.

(** [DEFINE_BUILTIN_OP_IMPORTER(Sum)] *)
Definition importSum (node : NodeProto) (inputs : list TensorOrWeights)
  : M (list TensorOrWeights) :=
  combineTensorsElementwise node inputs kSUM false.

(** The locals of [importLSTM] that are live after its opening block:
    the attributes read and the three operands converted to tensors. *)
Record LSTMPrologue := mkLSTMPrologue {
  numDirections : Z;
  hiddenSize : Z;
  lstm_input : ITensor;
  lstm_weights : ITensor;
  recurrenceWeights : ITensor
}.

(** Bit pattern of the single-precision constant [-1.f].  It is the only
    pattern that compares equal to [-1.f]. *)
Definition float_minus_one : Z := 0xBF800000.

(** [DEFINE_BUILTIN_OP_IMPORTER(LSTM)], from its first line through the
    conversion of the three mandatory operands. *)
Definition importLSTM_prologue (node : NodeProto)
  (inputs : list TensorOrWeights) : M LSTMPrologue :=
  let attrs := OnnxAttrs node in
  let* direction := lift (attrs_get_string_default attrs "direction" "forward") in
  let numDirections := if bool_decide (direction = "bidirectional") then 2 else 1 in
  let* hiddenSize := lift (attrs_get_int attrs "hidden_size") in
  let* inputForget := lift (attrs_get_int_default attrs "input_forget" 0) in
  let* clip := lift (attrs_get_float_default attrs "clip" float_minus_one) in
  let* _ := ASSERT (inputForget =? 0) kUNSUPPORTED_NODE in
  let* peephole :=
    if 7 <? Z.of_nat (length inputs)
    then let* in7 := lift (vec_at inputs 7) in ret (tow_bool in7)
    else ret false in
  let* _ := ASSERT (negb peephole) kUNSUPPORTED_NODE in
  let* _ := ASSERT (clip =? float_minus_one) kUNSUPPORTED_NODE in
  let* in0 := lift (vec_at inputs 0) in
  let* input := convertToTensor in0 in
  let* in1 := lift (vec_at inputs 1) in
  let* weights := convertToTensor in1 in
  let* in2 := lift (vec_at inputs 2) in
  let* recurrenceWeights := convertToTensor in2 in
  ret (mkLSTMPrologue numDirections hiddenSize input weights recurrenceWeights).

(** What the three guards at the head of [importLSTM] reject, in terms
    of the values read from the node: a nonzero [input_forget] (as the
    [int] it is kept in), a present eighth operand, a [clip] other than
    the sentinel. *)
Definition rejected (inputForget : Z) (inputs : list TensorOrWeights)
  (clip : Z) : Prop :=
  inputForget <> 0
  \/ (exists peephole, inputs !! 7%nat = Some peephole /\ tow_bool peephole = true)
  \/ clip <> float_minus_one.

(** The whole importer: the opening block, then the emission of the
    recurrence ([cell]), which only runs once the opening block has
    succeeded. *)
Definition importLSTM (cell : LSTMPrologue -> M (list TensorOrWeights))
  (node : NodeProto) (inputs : list TensorOrWeights)
  : M (list TensorOrWeights) :=
  let* p := importLSTM_prologue node inputs in
  cell p.

(** Modelled from the spec: [ctx->createTempWeights(type, shape)], a
    fresh host buffer of the given type and shape (section 3, "Weights");
    the importer context class is not among the sources.  No layer is
    added. *)
Definition createTempWeights (type : Z) (shape : Dims) : ShapedWeights :=
  mkWeights type (repeat 0 (Z.to_nat (volume shape))) shape.

(** [addConstantScalar] ([onnx2trt_utils.hpp]): the constant layer and its
    output. *)
Definition addConstantScalar (scalar : Z) (type : Z) (shape : Dims)
  : M (nat * ITensor) :=
  let scalarWeights := createTempWeights type shape in
  let scalarWeights :=
    mkWeights (w_type scalarWeights) (<[0%nat := scalar]> (w_values scalarWeights))
      (w_shape scalarWeights) in
  let* l := addLayer (LConstant (w_shape scalarWeights) scalarWeights) in
  ret (l, mkTensor (LayerOutput l 0) (w_shape scalarWeights)).

(** [layer->setInput(1, tensor)] on a recurrence layer (the value fed
    back) or on a loop output layer (its length). *)
Definition setInput1 (t : ITensor) (l : Layer) : Layer :=
  match l with
  | LRecurrence lp initial _ => LRecurrence lp initial (Some t)
  | LLoopOutput lp input kind axis _ => LLoopOutput lp input kind axis (Some t)
  | other => other
  end.

(** Extents of a loop output: those of its input for the last value; a
    concatenation gains an axis whose extent is only known to the
    backend (-1). *)
Definition loopOutputDims (kind : LoopOutput) (d : Dims) : Dims :=
  match kind with
  | kLAST_VALUE => d
  | _ => (-1) :: d
  end.

Definition MAX_SCAN_OUTPUT_LENGTH : Z := 1024.

(** The body of the loop over the state operands of [importLoop]: a
    recurrence layer seeded with operand [i], bound to the body's input
    [i]; [stateVars] keeps each layer with its output. *)
Definition loop_state_var (loop : nat) (body : GraphProto)
  (inputs : list TensorOrWeights) (i : Z) (stateVars : list (nat * ITensor))
  : M (list (nat * ITensor)) :=
  let* in_i := lift (vec_idx inputs i) in
  let* t := convertToTensor in_i in
  let* r := addLayer (LRecurrence loop t None) in
  let out := mkTensor (LayerOutput r 0) (t_dims t) in
  let* name := lift (vec_idx (graph_input body) i) in
  let* _ := registerTensor (Tensor out) name in
  ret (stateVars ++ [(r, out)]).

(** The body of the loop that closes state variable [i] and makes it a
    last-value output. *)
Definition loop_state_output (loop : nat) (body : GraphProto)
  (stateVars : list (nat * ITensor)) (i : Z)
  (nodeOutputs : list TensorOrWeights) : M (list TensorOrWeights) :=
  let NB_DISCARDED_OUTPUTS := 1 in
  let index := i + NB_DISCARDED_OUTPUTS in
  let* bodyOutputName := lift (vec_idx (graph_output body) index) in
  let* v := tensorsAt bodyOutputName in
  let* stateOutput := convertToTensor v in
  let* sv := lift (vec_at stateVars i) in
  let* _ := updateLayer (fst sv) (setInput1 stateOutput) in
  let* lo := addLayer (LLoopOutput loop (snd sv) kLAST_VALUE 0 None) in
  ret (nodeOutputs
         ++ [Tensor (mkTensor (LayerOutput lo 0)
                       (loopOutputDims kLAST_VALUE (t_dims (snd sv))))]).

(** The body of the loop over the scan outputs. *)
Definition loop_scan_output (loop : nat) (body : GraphProto)
  (tripLimit : option ITensor) (i : Z)
  (nodeOutputs : list TensorOrWeights) : M (list TensorOrWeights) :=
  let* bodyOutputName := lift (vec_idx (graph_output body) i) in
  let* v := tensorsAt bodyOutputName in
  let* scanOutput := convertToTensor v in
  let* trtScanOut := addLayer (LLoopOutput loop scanOutput kCONCATENATE 0 None) in
  let* _ :=
    match tripLimit with
    | Some tl => updateLayer trtScanOut (setInput1 tl)
    | None =>
        let* c := addConstantScalar MAX_SCAN_OUTPUT_LENGTH INT32 [] in
        updateLayer trtScanOut (setInput1 (snd c))
    end in
  ret (nodeOutputs
         ++ [Tensor (mkTensor (LayerOutput trtScanOut 0)
                       (loopOutputDims kCONCATENATE (t_dims scanOutput)))]).

(** An optional scalar operand of [importLoop] turned into a trip limit
    of the given kind; [None] when the operand is omitted. *)
Definition loop_trip_limit (convertToScalar : ITensor -> M (option ITensor))
  (loop : nat) (input : TensorOrWeights) (kind : TripLimit)
  : M (option ITensor) :=
  if tow_bool input then
    let* t := convertToTensor input in
    let* s := convertToScalar t in
    match s with
    | Some limit =>
        let* _ := addLayer (LTripLimit loop limit kind) in
        ret (Some limit)
    | None => fail (Status kINVALID_NODE)
    end
  else ret None.

(** [DEFINE_BUILTIN_OP_IMPORTER(Loop)].  The recursive lowering of the
    body ([onnx2trt::parseGraph]) and [convertToScalar] are defined
    outside the sources and are taken as parameters. *)
Definition importLoop (parseGraph : GraphProto -> M unit)
  (convertToScalar : ITensor -> M (option ITensor))
  (node : NodeProto) (inputs : list TensorOrWeights)
  : M (list TensorOrWeights) :=
  let NB_NON_STATE_INPUTS := 2 in
  let NB_DISCARDED_OUTPUTS := 1 in
  let* _ := ASSERT (2 <=? Z.of_nat (length inputs)) kINVALID_NODE in
  let attrs := OnnxAttrs node in
  let nbInputs := Z.of_nat (length (node_input node)) in
  let nbStateVars := nbInputs - NB_NON_STATE_INPUTS in
  let* body := lift (attrs_get_graph attrs "body") in
  let* loop := addLayer LLoop in
  let* in0 := lift (vec_idx inputs 0) in
  let* tripLimit := loop_trip_limit convertToScalar loop in0 kCOUNT in
  let* in1 := lift (vec_idx inputs 1) in
  let* _ := loop_trip_limit convertToScalar loop in1 kWHILE_NONZERO in
  let* stateVars :=
    forM (range 2 (Z.of_nat (length inputs)))
      (loop_state_var loop body inputs) [] in
  let* _ := parseGraph body in
  let* nodeOutputs :=
    forM (range 0 nbStateVars) (loop_state_output loop body stateVars) [] in
  let* nodeOutputs :=
    forM (range (nbStateVars + NB_DISCARDED_OUTPUTS) nbInputs)
      (loop_scan_output loop body tripLimit) nodeOutputs in
  ret nodeOutputs.

(** A value that is the output of a loop output layer of the given kind
    in network [net]. *)
Definition is_loop_output (net : Network) (kind : LoopOutput)
  (v : TensorOrWeights) : Prop :=
  exists l d lp input axis len,
    v = Tensor (mkTensor (LayerOutput l 0) d)
    /\ net !! l = Some (LLoopOutput lp input kind axis len).

(** Every loop output of [net] is still one, of the same kind, in
    [net']. *)
Definition keeps_loop_outputs (net net' : Network) : Prop :=
  forall kind v, is_loop_output net kind v -> is_loop_output net' kind v.

(** The locals that [get_kernel_params] fills in. *)
Record KernelParams := mkKernelParams {
  kernel_size : Dims;
  strides : Dims;
  beg_padding : Dims;
  end_padding : Dims;
  paddingMode : PaddingMode;
  exclude_padding : bool
}.

(** One iteration of the loop over the two leading spatial dimensions in
    [importAveragePool]; the loop-carried locals are [beg_padding] and
    [pre_crop]. *)
Definition asymmetric_padding (strides end_padding : Dims) (d : Z)
  (st : Dims * Dims) : M (Dims * Dims) :=
  let (beg_padding, pre_crop) := st in
  if dim end_padding d =? dim beg_padding d then ret st
  else if dim end_padding d =? dim beg_padding d + 1 then
    ret (set_dim beg_padding d (dim beg_padding d + dim strides d),
         set_dim pre_crop d 1)
  else
    let supported_form_of_asymmetric_padding_for_AveragePool := false in
    let* _ := ASSERT supported_form_of_asymmetric_padding_for_AveragePool
                kUNSUPPORTED_NODE in
    ret st.

(** [DEFINE_BUILTIN_OP_IMPORTER(AveragePool)].  [get_kernel_params] is
    defined outside the sources and is taken as a parameter, as is the
    backend's computation of the pooling layer's output extents
    ([poolingDims], from the layer and the network's formula flag). *)
Definition importAveragePool
  (get_kernel_params : NodeProto -> Dims -> Dims -> Dims -> Dims -> bool
                       -> KernelParams)
  (poolingDims : Layer -> bool -> Dims)
  (node : NodeProto) (inputs : list TensorOrWeights)
  : M (list TensorOrWeights) :=
  let* in0 := lift (vec_at inputs 0) in
  let* tensor_ptr := convertToTensor in0 in
  let dims := t_dims tensor_ptr in
  let need_to_expand_dims := nbDims dims =? 3 in
  let* tensor_ptr :=
    if need_to_expand_dims
    then reshape_tensor tensor_ptr [dim dims 0; dim dims 1; dim dims 2; 1]
    else ret tensor_ptr in
  let dims := t_dims tensor_ptr in
  let* ver := getOpsetVersion in
  let* _ :=
    if 10 <=? ver then
      let attrs := OnnxAttrs node in
      let* ceil_mode := lift (attrs_get_int_default attrs "ceil_mode" 0) in
      let* dilations := lift (attrs_get_ints_default attrs "dilations" [1; 1]) in
      let* _ := forM dilations
                  (fun dil _ => ASSERT (dil =? 1) kUNSUPPORTED_NODE) tt in
      if negb (ceil_mode =? 0) then setPoolingOutputDimensionsFormula
      else ret tt
    else ret tt in
  let* _ := ASSERT (4 <=? nbDims dims) kUNSUPPORTED_NODE in
  let nbSpatialDims := nbDims dims - 2 in
  let* _ := ASSERT ((nbSpatialDims =? 2) || (nbSpatialDims =? 3))
              kUNSUPPORTED_NODE in
  let kp := get_kernel_params node
              (makeDims nbSpatialDims 1) (makeDims nbSpatialDims 1)
              (makeDims nbSpatialDims 0) (makeDims nbSpatialDims 0) true in
  let* layer :=
    addLayer (LPooling tensor_ptr kAVERAGE (kernel_size kp)
                (makeDims nbSpatialDims 1) true kEXPLICIT_ROUND_DOWN
                (makeDims nbSpatialDims 0) (makeDims nbSpatialDims 0)) in
  let* _ := updateLayer layer
              (fun _ => LPooling tensor_ptr kAVERAGE (kernel_size kp)
                          (strides kp) (exclude_padding kp) (paddingMode kp)
                          (beg_padding kp) (end_padding kp)) in
  let* _ := forM [0; 1] (asymmetric_padding (strides kp) (end_padding kp))
              (beg_padding kp, [0; 0]) in
  let* net := getNetwork in
  let* pooling := lift (vec_idx net (Z.of_nat layer)) in
  let* ceilFormula := (fun c => (Ok (ceilingPoolFormula c), c)) in
  let dims := poolingDims pooling ceilFormula in
  let tensor_ptr := mkTensor (LayerOutput layer 0) dims in
  let* tensor_ptr :=
    if need_to_expand_dims
    then reshape_tensor tensor_ptr [dim dims 0; dim dims 1; dim dims 2]
    else ret tensor_ptr in
  ret [Tensor tensor_ptr].

(** Row-major offset of a multi-index into a buffer of shape [shape]. *)
Fixpoint ravel (shape : Dims) (idx : list Z) : Z :=
  match shape, idx with
  | _ :: shape', i :: idx' => i * volume shape' + ravel shape' idx'
  | _, _ => 0
  end.

(** The multi-index of a row-major offset. *)
Fixpoint unravel (shape : Dims) (o : Z) : list Z :=
  match shape with
  | [] => []
  | _ :: shape' => (o / volume shape') :: unravel shape' (o mod volume shape')
  end.

(** Row-major stride of axis [p]. *)
Definition stride_of (shape : Dims) (p : Z) : Z :=
  volume (drop (S (Z.to_nat p)) shape).

Definition sumZ (l : list Z) : Z := fold_right Z.add 0 l.

Definition valid_permutation (perm : Trt.Permutation) (ndim : nat) : bool :=
  (length perm =? ndim)%nat
  && forallb (fun i => existsb (Z.eqb i) perm) (iota ndim).

(** Modelled from the spec: [transposeWeights] (declared with the weights
    class, which is not among the sources).  Section 8: the output "of
    shape [3,2]" for permutation [1,0] on shape [2,3] has a buffer that
    "equals the mathematical transpose".  The model writes the permuted
    shape into the result and fills its buffer in row-major order, each
    element fetched from the source offset obtained by weighting the
    output coordinates with the strides of the axes they come from; it
    reports failure for an order that is not a permutation of the axes. *)
Definition transposeWeights (weights : ShapedWeights)
  (perm : Trt.Permutation) (result : ShapedWeights) : option ShapedWeights :=
  let shape := w_shape weights in
  if valid_permutation perm (length shape) then
    let new_shape := map (fun p => dim shape p) perm in
    let source (o : Z) : Z :=
      sumZ
        (zip_with (fun i p => i * stride_of shape p) (unravel new_shape o) perm) in
    Some (mkWeights (w_type result)
            (map (fun o => nth (Z.to_nat (source o)) (w_values weights) 0)
               (iota (Z.to_nat (volume new_shape))))
            new_shape)
  else None.

(** The element of a weights buffer at a multi-index. *)
Definition element (w : ShapedWeights) (idx : list Z) : Z :=
  nth (Z.to_nat (ravel (w_shape w) idx)) (w_values w) 0.

(** A multi-index that addresses an element of a buffer of shape
    [shape]. *)
Definition in_bounds (idx : list Z) (shape : Dims) : Prop :=
  Forall2 (fun i n => 0 <= i < n) idx shape.

(** [DEFINE_BUILTIN_OP_IMPORTER(Transpose)] *)
Definition importTranspose (node : NodeProto) (inputs : list TensorOrWeights)
  : M (list TensorOrWeights) :=
  let* input := lift (vec_at inputs 0) in
  let attrs := OnnxAttrs node in
  let* s := lift (shape input) in
  let ndim := nbDims s in
  let* _ := ASSERT (ndim <=? MAX_DIMS) kUNSUPPORTED_NODE in
  let default_perm := map (fun i => ndim - 1 - i) (iota (length s)) in
  let* perm := lift (attrs_get_ints_default attrs "perm" default_perm) in
  match input with
  | Weights weights =>
      let new_weights := createTempWeights (w_type weights) (w_shape weights) in
      match transposeWeights weights perm new_weights with
      | Some new_weights => ret [Weights new_weights]
      | None => fail (Status kUNSUPPORTED_NODE)
      end
  | Tensor t =>
      let* output_tensor := transpose_tensor t perm in
      ret [Tensor output_tensor]
  | Absent => fail Undefined
  end.

End Ops.

Export Ops.

(** ** The error recorder ([onnxErrorRecorder.hpp], [onnxErrorRecorder.cpp]) *)

Module Recorder.

(** [nvinfer1::ErrorCode], the backend's enumeration. *)
Inductive ErrorCode :=
| kSUCCESS
| kUNSPECIFIED_ERROR
| kINTERNAL_ERROR
| kINVALID_ARGUMENT
| kINVALID_CONFIG
| kFAILED_ALLOCATION
| kFAILED_INITIALIZATION
| kFAILED_EXECUTION
| kFAILED_COMPUTATION
| kINVALID_STATE
| kUNSUPPORTED_STATE.

Abbreviation ErrorDesc := string (only parsing).

Abbreviation errorPair := (ErrorCode * string)%type (only parsing).

Abbreviation errorStack := (list (ErrorCode * string)) (only parsing).

(** The recorder object.  The two collaborators it holds pointers to are
    kept as what they have received so far: the reports forwarded to the
    user's recorder, and the lines handed to the logger; [None] is a null
    pointer. *)
Record ONNXParserErrorRecorder := mkRecorder {
  mErrorStack : errorStack;
  mRefCount : Z;
  mUserRecorder : option (list errorPair);
  mLogger : option (list string)
}.

(** Conversion of an [int32_t] to [size_t] (64 bits). *)
Definition to_size_t (x : Z) : Z := x mod 2 ^ 64.

(** Conversion of a [size_t] to [int32_t]. *)
Definition to_int32 (x : Z) : Z := (x + 2 ^ 31) mod 2 ^ 32 - 2 ^ 31.

(** An upper bound on the number of elements a [std::vector] can hold:
    its storage is addressed by a signed 64-bit difference. *)
Definition vector_max_size : Z := 2 ^ 63 - 1.

Definition size (r : ONNXParserErrorRecorder) : Z :=
  Z.of_nat (length (mErrorStack r)).

(** [getNbErrors] *)
Definition getNbErrors (r : ONNXParserErrorRecorder) : Z :=
  to_int32 (size r).

(** [operator[]]: the element, or [None] where the access is out of
    bounds (undefined behaviour). *)
Definition index (r : ONNXParserErrorRecorder) (index : Z) : option errorPair :=
  mErrorStack r !! Z.to_nat index.

(** [invalidIndexCheck] *)
Definition invalidIndexCheck (r : ONNXParserErrorRecorder) (index : Z) : bool :=
  let sIndex := to_size_t index in
  size r <=? sIndex.

(** [getErrorCode]; [None] would be an out-of-bounds read. *)
Definition getErrorCode (r : ONNXParserErrorRecorder) (errorIdx : Z)
  : option ErrorCode :=
  if invalidIndexCheck r errorIdx then Some kINVALID_ARGUMENT
  else fst <$> index r (to_size_t errorIdx).

(** [getErrorDesc]; [None] would be an out-of-bounds read. *)
Definition getErrorDesc (r : ONNXParserErrorRecorder) (errorIdx : Z)
  : option ErrorDesc :=
  if invalidIndexCheck r errorIdx then Some "errorIdx out of range."%string
  else snd <$> index r (to_size_t errorIdx).

(** [hasOverflowed] *)
Definition hasOverflowed (r : ONNXParserErrorRecorder) : bool := false.

(** [logError(logger, str)] *)
Definition logError (logger : option (list string)) (str : string)
  : option (list string) :=
  match logger with
  | Some lines => Some (lines ++ [str])
  | None => None
  end.

(** [mErrorStack.push_back(errorPair(val, desc))] *)
Definition push_back (r : ONNXParserErrorRecorder) (p : errorPair)
  : ONNXParserErrorRecorder :=
  mkRecorder (mErrorStack r ++ [p]) (mRefCount r) (mUserRecorder r) (mLogger r).

(** The [if (mUserRecorder) ... else ...] of [reportError]. *)
Definition notify (r : ONNXParserErrorRecorder) (p : errorPair)
  : ONNXParserErrorRecorder :=
  match mUserRecorder r with
  | Some received =>
      mkRecorder (mErrorStack r) (mRefCount r) (Some (received ++ [p])) (mLogger r)
  | None =>
      mkRecorder (mErrorStack r) (mRefCount r) None (logError (mLogger r) (snd p))
  end.

(** [reportError], run by one thread without interference: the value
    returned and the recorder afterwards. *)
Definition reportError (r : ONNXParserErrorRecorder) (val : ErrorCode)
  (desc : ErrorDesc) : bool * ONNXParserErrorRecorder :=
  let r := push_back r (val, desc) in
  let r := notify r (val, desc) in
  (true, r).

(** [clear] *)
Definition clear (r : ONNXParserErrorRecorder) : ONNXParserErrorRecorder :=
  mkRecorder [] (mRefCount r) (mUserRecorder r) (mLogger r).

End Recorder.

(** ** [reportError] called from several threads

    Each thread runs [reportError] once.  Its body is cut at the points
    where another thread can be scheduled: taking [mStackLock] (the
    [lock_guard]), the two halves of [push_back] (reading the current
    contents, writing them back with the new element appended), the
    notification, and leaving the [try] block, which releases the lock and
    returns.  A schedule is the sequence of thread numbers that are given
    a turn; a thread whose turn comes while it waits for the lock, or
    after it has returned, does nothing. *)

Module Threads.

Import Recorder.

Inductive Pc :=
| Start
| Holding
| Appending (read : errorStack)
| Appended
| Notified
| Returned (result : bool).

Record State := mkState {
  recorder : ONNXParserErrorRecorder;
  mStackLock : option nat;
  pcs : list Pc
}.

(** One turn of a thread at [pc] whose call is [reportError(call)]: the
    recorder, the lock and the thread's next position; [None] when the
    thread cannot move. *)
Definition thread_step (k : nat) (call : errorPair)
  (r : ONNXParserErrorRecorder) (lock : option nat) (pc : Pc)
  : option (ONNXParserErrorRecorder * option nat * Pc) :=
  match pc with
  | Start =>
      match lock with
      | None => Some (r, Some k, Holding)
      | Some _ => None
      end
  | Holding => Some (r, lock, Appending (mErrorStack r))
  | Appending read =>
      Some (mkRecorder (read ++ [call]) (mRefCount r) (mUserRecorder r) (mLogger r),
            lock, Appended)
  | Appended => Some (notify r call, lock, Notified)
  | Notified => Some (r, None, Returned true)
  | Returned _ => None
  end.

Definition step (calls : list errorPair) (k : nat) (s : State) : State :=
  match pcs s !! k, calls !! k with
  | Some pc, Some call =>
      match thread_step k call (recorder s) (mStackLock s) pc with
      | Some (r, lock, pc') => mkState r lock (<[k := pc']> (pcs s))
      | None => s
      end
  | _, _ => s
  end.

Definition run (calls : list errorPair) (schedule : list nat) (s : State)
  : State :=
  fold_left (fun s k => step calls k s) schedule s.

(** All threads at the start of their call, on a recorder [r]. *)
Definition init (r : ONNXParserErrorRecorder) (calls : list errorPair) : State :=
  mkState r None (repeat Start (length calls)).

Definition returned (pc : Pc) : bool :=
  match pc with Returned _ => true | _ => false end.

Definition all_returned (s : State) : bool := forallb returned (pcs s).

(** The values the calls returned. *)
Definition results (s : State) : list bool :=
  omap (fun pc => match pc with Returned b => Some b | _ => None end) (pcs s).

(** A schedule that runs the threads one after the other. *)
Definition sequential (n : nat) : list nat :=
  flat_map (fun k => repeat k 5) (seq 0 n).

(** The positions at which a thread holds [mStackLock]. *)
Definition in_cs (pc : Pc) : bool :=
  match pc with
  | Holding | Appending _ | Appended | Notified => true
  | Start | Returned _ => false
  end.

(** The positions at which a thread's pair is in the vector. *)
Definition has_pushed (pc : Pc) : bool :=
  match pc with
  | Appended | Notified | Returned _ => true
  | Start | Holding | Appending _ => false
  end.

Definition contribution (pc : Pc) (call : errorPair) : list errorPair :=
  if has_pushed pc then [call] else [].

(** The pairs that the threads have appended so far. *)
Definition pushed (pcs : list Pc) (calls : list errorPair) : list errorPair :=
  concat (zip_with contribution pcs calls).

(** What holds of every state the threads can reach: the lock is held
    exactly by the thread inside [reportError]'s guarded block, what that
    thread read of the vector is still its contents, and the vector
    holds the pairs appended so far. *)
Record Inv (calls : list errorPair) (s : State) : Prop := mkInv {
  inv_length : length (pcs s) = length calls;
  inv_holder : forall k pc,
    pcs s !! k = Some pc -> in_cs pc = true -> mStackLock s = Some k;
  inv_locked : forall k,
    mStackLock s = Some k -> exists pc, pcs s !! k = Some pc /\ in_cs pc = true;
  inv_read : forall k old,
    pcs s !! k = Some (Appending old) -> old = mErrorStack (recorder s);
  inv_stack : mErrorStack (recorder s) ≡ₚ pushed (pcs s) calls;
  inv_result : forall k b, pcs s !! k = Some (Returned b) -> b = true
}.

(** One turn of thread [k] on its own view (recorder, lock, position);
    nothing happens when it cannot move. *)
Definition turn (k : nat) (call : errorPair)
  (x : ONNXParserErrorRecorder * option nat * Pc)
  : ONNXParserErrorRecorder * option nat * Pc :=
  match thread_step k call (fst (fst x)) (snd (fst x)) (snd x) with
  | Some y => y
  | None => x
  end.

(** The state with thread [k]'s view written back. *)
Definition put (k : nat) (x : ONNXParserErrorRecorder * option nat * Pc)
  (s : State) : State :=
  mkState (fst (fst x)) (snd (fst x)) (<[k := snd x]> (pcs s)).

(** Nobody holds the lock or is inside the guarded block. *)
Definition quiet (calls : list errorPair) (s : State) : Prop :=
  mStackLock s = None
  /\ length (pcs s) = length calls
  /\ Forall (fun pc => in_cs pc = false) (pcs s).

(** A schedule that completes every call from state [s]: the holder of
    the lock, if any, runs to its return, then each thread gets five
    turns. *)
Definition finish (calls : list errorPair) (s : State) : list nat :=
  match mStackLock s with
  | Some k => repeat k 4
  | None => []
  end ++ sequential (length calls).

End Threads.

(** ** Concrete nodes and values used in the examples *)

Module Examples.

Local Open Scope string_scope.

Definition opset_ctx (ver : Z) : Ctx := mkCtx ver [] false ∅.

Definition int64_vector (l : list Z) : TensorOrWeights :=
  Weights (mkWeights INT64 l [Z.of_nat (length l)]).

Definition float_matrix (values : list Z) (shape : Dims) : ShapedWeights :=
  mkWeights FLOAT values shape.

Definition input_tensor (name : string) (d : Dims) : TensorOrWeights :=
  Tensor (mkTensor (NetworkInput name) d).

(** [Slice] over the whole of axis 0 of a [5 x 3] tensor. *)
Definition slice_node : NodeProto :=
  mkNode "Slice" ["data"; "starts"; "ends"; "axes"; "steps"] ["out"] [].

Definition slice_inputs : list TensorOrWeights :=
  [input_tensor "data" [5; 3]; int64_vector [0]; int64_vector [2 ^ 30];
   int64_vector [0]; int64_vector [1]].

(** [Add] without attributes, and its operands of ranks 2 and 1. *)
Definition add_node : NodeProto := mkNode "Add" ["A"; "B"] ["C"] [].

Definition add_inputs : list TensorOrWeights :=
  [input_tensor "A" [2; 3]; input_tensor "B" [3]].

(** [Sum] of a single operand. *)
Definition sum_node : NodeProto := mkNode "Sum" ["A"] ["S"] [].

(** LSTM nodes and operands. *)
Definition lstm_names : list string := ["X"; "W"; "R"].

Definition lstm_inputs : list TensorOrWeights :=
  [Weights (float_matrix (repeat 0 2) [1; 1; 2]);
   input_tensor "W" [1; 16; 2]; input_tensor "R" [1; 16; 4]].

Definition lstm_clip_sentinel : NodeProto :=
  mkNode "LSTM" lstm_names ["Y"]
    [("hidden_size", A_int 4); ("clip", A_float float_minus_one)].

Definition lstm_input_forget : NodeProto :=
  mkNode "LSTM" lstm_names ["Y"]
    [("hidden_size", A_int 4); ("input_forget", A_int 1)].

Definition lstm_no_hidden_size : NodeProto :=
  mkNode "LSTM" lstm_names ["Y"] [("input_forget", A_int 1)].

(** A loop with one state variable; its body produces the condition, the
    next state and one scan value. *)
Definition loop_body : GraphProto :=
  mkGraph ["iter"; "cond_in"; "state_in"] [] ["cond_out"; "state_out"; "scan_out"].

Definition loop_node : NodeProto :=
  mkNode "Loop" ["trip"; ""; "state"] ["final"; "scan"] [("body", A_graph loop_body)].

Definition loop_inputs_counted : list TensorOrWeights :=
  [input_tensor "trip" []; Absent; input_tensor "state" [2]].

Definition loop_inputs_uncounted : list TensorOrWeights :=
  [Absent; Absent; input_tensor "state" [2]].

(** Stand-ins for the two helpers [importLoop] takes as parameters: a
    body lowering that binds the body's outputs, and a scalar conversion
    that accepts tensors of volume 1. *)
Definition bind_body_outputs (g : GraphProto) : M unit :=
  forM (graph_output g)
    (fun name _ => registerTensor (input_tensor name [2]) name) tt.

Definition scalar_of_volume_one (t : ITensor) : M (option ITensor) :=
  if (volume (t_dims t) =? 1)%Z then ret (Some t) else ret None.

(** [AveragePool] over a [1 x 1 x 4 x 4] tensor (or a volume), with
    stand-ins for the two helpers [importAveragePool] takes as
    parameters: kernel parameters that carry the given explicit pads
    (kernel 2, stride 1), and a backend that reports the input's extents
    for the output. *)
Definition pool_node : NodeProto := mkNode "AveragePool" ["X"] ["Y"] [].

Definition pool_inputs : list TensorOrWeights :=
  [input_tensor "X" [1; 1; 4; 4]].

Definition pool_inputs_3d : list TensorOrWeights :=
  [input_tensor "X" [1; 1; 4; 4; 4]].

Definition explicit_pads (beg_pad end_pad : Dims) (node : NodeProto)
  (kernel stride beg_default end_default : Dims) (exclude : bool)
  : KernelParams :=
  mkKernelParams (map (fun _ => 2) kernel) stride beg_pad end_pad
    kEXPLICIT_ROUND_DOWN exclude.

Definition input_extents (l : Layer) (ceilFormula : bool) : Dims :=
  match l with
  | LPooling input _ _ _ _ _ _ _ => t_dims input
  | _ => []
  end.


Definition loop_outputs_uncounted : list TensorOrWeights :=
  [Tensor (mkTensor (LayerOutput 2 0) [2]);
   Tensor (mkTensor (LayerOutput 3 0) [-1; 2])].

(** [Transpose] of a [2 x 3] constant. *)
Definition transpose_node : NodeProto :=
  mkNode "Transpose" ["W"] ["Wt"] [("perm", A_ints [1; 0])].

Definition transpose_weights : ShapedWeights :=
  float_matrix [11; 12; 13; 21; 22; 23] [2; 3].

(** A recorder holding two errors. *)
Definition two_errors : Recorder.ONNXParserErrorRecorder :=
  Recorder.mkRecorder
    [(Recorder.kINTERNAL_ERROR, "first"); (Recorder.kINVALID_CONFIG, "second")]
    1 None None.

Definition fresh_recorder : Recorder.ONNXParserErrorRecorder :=
  Recorder.mkRecorder [] 1 None (Some []).

Definition three_calls : list Recorder.errorPair :=
  [(Recorder.kINTERNAL_ERROR, "a"); (Recorder.kINVALID_STATE, "b");
   (Recorder.kFAILED_EXECUTION, "c")].

(** An interleaving of three threads; thread 1 gets the lock first. *)
Definition interleaved : list nat :=
  [1; 0; 2; 1; 0; 1; 2; 1; 1; 2; 0; 2; 2; 2; 0; 2; 0; 0; 0; 0; 0]%nat.

End Examples.

(** * Further code of the importers and of the recorder *)

(** ** Transposed convolution: paddings from an explicit output shape *)

Module Deconvolution.






End Deconvolution.

(** ** Flattening to two extents *)

Module ShapeOps.

(** [convert_tensor_to_2d]: the extents before [axis] are multiplied
    into the first of two extents, the others into the second.  The
    products are [int]s. *)
Definition convert_tensor_to_2d (tensor : ITensor) (axis : Z) : M ITensor :=
  let shape := t_dims tensor in
  let new_shape := makeDims 2 1 in
  let new_shape :=
    fold_left (fun ns i => set_dim ns 0 (wrap32 (dim ns 0 * dim shape i)))
      (range 0 axis) new_shape in
  let new_shape :=
    fold_left (fun ns i => set_dim ns 1 (wrap32 (dim ns 1 * dim shape i)))
      (range axis (nbDims shape)) new_shape in
  reshape_tensor tensor new_shape.

(** [flatten_tensor]: the extents after [axis] are multiplied into
    extent [axis] and become 1. *)
Definition flatten_tensor (tensor : ITensor) (axis : Z) : M ITensor :=
  let shape := t_dims tensor in
  let new_shape :=
    fold_left
      (fun ns i =>
         set_dim (set_dim ns axis (wrap32 (dim ns axis * dim shape i))) i 1)
      (range (axis + 1) (nbDims shape)) shape in
  reshape_tensor tensor new_shape.

(** [DEFINE_BUILTIN_OP_IMPORTER(Flatten)] *)
Definition importFlatten (node : NodeProto) (inputs : list TensorOrWeights)
  : M (list TensorOrWeights) :=
  let attrs := OnnxAttrs node in
  let* axis := lift (attrs_get_int_default attrs "axis" 1) in
  let* in0 := lift (vec_at inputs 0) in
  let* dims := lift (shape in0) in
  let* tensor_ptr := convertToTensor in0 in
  let dim0 :=
    fold_left (fun acc i => wrap32 (acc * dim dims i)) (range 0 axis) 1 in
  let dim1 :=
    fold_left (fun acc i => wrap32 (acc * dim dims i))
      (range axis (nbDims dims)) 1 in
  let new_shape := [dim0; dim1] in
  let* tensor_ptr := reshape_tensor tensor_ptr new_shape in
  ret [Tensor tensor_ptr].

End ShapeOps.

(** ** [DepthToSpace]: the extents of its shuffle and reshape *)

Module DepthToSpace.

(** The first loop of [importDepthToSpace], which fills [new_shape1]:
    the channel extent is divided by the block size once per spatial
    axis. *)
Definition split_channels (dims : Dims) (ndim_spatial block_size : Z) (i : Z)
  (new_shape1 : Dims) : M Dims :=
  let* _ := ASSERT (Z.rem (dim new_shape1 (ndim_spatial + 1)) block_size =? 0)
              kINVALID_NODE in
  let new_shape1 :=
    set_dim new_shape1 (ndim_spatial + 1)
      (dim new_shape1 (ndim_spatial + 1) ÷ block_size) in
  let new_shape1 := set_dim new_shape1 i block_size in
  let new_shape1 := set_dim new_shape1 (ndim_spatial + 1 + i) (dim dims (1 + i)) in
  ret new_shape1.

(** The extents the backend reports for a shuffle layer that reshapes
    and then transposes: extent [k] of the output is extent [order[k]]
    of the reshaped tensor. *)
Definition shuffled (reshape : Dims) (perm : Trt.Permutation) : Dims :=
  map (fun k => dim reshape (dim perm k)) (iota (length reshape)).

(** The extents and the permutation that [importDepthToSpace] computes
    from the extents of its operand (of rank 4, by its first check) and
    the [blocksize] attribute: [new_shape1] and [perm], which it sets on
    the shuffle layer, and [new_shape2], to which it reshapes that
    layer's output.  The locals are not initialised in the source; every
    entry is written before it is read.  The extents are [int]s: [%] and
    [/] truncate, the products wrap. *)
Definition depth_to_space_shapes (node : NodeProto) (dims : Dims)
  : M (Dims * Trt.Permutation * Dims) :=
  let* _ := ASSERT (nbDims dims =? 4) kUNSUPPORTED_NODE in
  let attrs := OnnxAttrs node in
  let* block_size := lift (attrs_get_int attrs "blocksize") in
  let ndim_spatial := nbDims dims - 2 in
  let new_shape1 := makeDims (nbDims dims + ndim_spatial) 0 in
  let new_shape1 := set_dim new_shape1 0 (dim dims 0) in
  let new_shape1 := set_dim new_shape1 (ndim_spatial + 1) (dim dims 1) in
  let* new_shape1 :=
    forM (range 1 (ndim_spatial + 1))
      (split_channels dims ndim_spatial block_size) new_shape1 in
  let perm := makeDims (nbDims new_shape1) 0 in
  let perm := set_dim perm 0 0 in
  let perm := set_dim perm 1 (ndim_spatial + 1) in
  let perm :=
    fold_left
      (fun perm i =>
         set_dim (set_dim perm (2 * i) (ndim_spatial + 1 + i)) (2 * i + 1) i)
      (range 1 (ndim_spatial + 1)) perm in
  let dims := shuffled new_shape1 perm in
  let new_shape2 := makeDims (nbDims dims - ndim_spatial) 0 in
  let new_shape2 := set_dim new_shape2 0 (dim dims 0) in
  let new_shape2 := set_dim new_shape2 1 (dim dims 1) in
  let new_shape2 :=
    fold_left
      (fun ns i =>
         set_dim ns (1 + i) (wrap32 (dim dims (2 * i) * dim dims (1 + 2 * i))))
      (range 1 (ndim_spatial + 1)) new_shape2 in
  ret (new_shape1, perm, new_shape2).

End DepthToSpace.

(** ** Elementwise layers in sequence *)

Module Chain.

(** The extents of the running result of the last loop of
    [combineTensorsElementwise] once the tensors [ts] have been folded,
    from left to right, into a result of extents [d]; [None] when one of
    the layers cannot be had. *)
Fixpoint chainDims (d : Dims) (ts : list ITensor) : option Dims :=
  match ts with
  | [] => Some d
  | t :: ts => d' ← elementwiseDims d (t_dims t); chainDims d' ts
  end.

End Chain.

(** ** [Slice]: the region a slice layer reads *)

Module SliceBounds.

(** The elements that a slice layer with the given start, size and
    stride reads on axis [a] are those of the tensor: when the slice is
    not empty on that axis, its first and its last index lie within the
    extent. *)
Definition within_extent (dims start size stride : Dims) (a : Z) : Prop :=
  0 < dim size a ->
  0 <= dim start a <= dim dims a - 1
  /\ 0 <= dim start a + (dim size a - 1) * dim stride a <= dim dims a - 1.

(** What the loop of [importSlice] keeps true of its four locals. *)
Record SliceInv (dims : Dims) (v : SliceVars) : Prop := mkSliceInv {
  inv_start : nbDims (sliceStart v) = nbDims dims;
  inv_end : nbDims (sliceEnd v) = nbDims dims;
  inv_size : nbDims (sliceSize v) = nbDims dims;
  inv_stride : nbDims (sliceStride v) = nbDims dims;
  inv_within : forall a, 0 <= a < nbDims dims ->
    within_extent dims (sliceStart v) (sliceSize v) (sliceStride v) a
}.

End SliceBounds.

(** ** [Unsqueeze]: the loop that places the new axes *)

Module Unsqueeze.

(** The locals of the loop of [importUnsqueeze]. *)
Record UnsqueezeVars := mkUnsqueezeVars {
  uq_i : Z;
  uq_j : Z;
  uq_new_shape : Dims;
  uq_perm : Trt.Permutation
}.

(** One iteration of the loop: position [i + j] of the result is a new
    axis when it is in [axes_set], and the next axis of the operand
    otherwise. *)
Definition unsqueeze_step (old_shape : Dims) (axes_set : gset Z)
  (st : UnsqueezeVars) : UnsqueezeVars :=
  let ndim_in := nbDims old_shape in
  let i := uq_i st in
  let j := uq_j st in
  if bool_decide (i + j ∈ axes_set) then
    mkUnsqueezeVars i (j + 1)
      (set_dim (uq_new_shape st) (ndim_in + j) 1)
      (set_dim (uq_perm st) (i + j) (ndim_in + j))
  else
    mkUnsqueezeVars (i + 1) j
      (set_dim (uq_new_shape st) i
         (if dim old_shape i <? 0 then 0 else dim old_shape i))
      (set_dim (uq_perm st) (i + j) i).

(** The loop of [importUnsqueeze]: the reshape extents and the
    permutation it builds for the shuffle layer.  Each iteration
    advances [i + j] by one, so the loop runs [ndim_out] times.  The two
    locals are not initialised in the source; their contents before the
    loop, [new_shape] and [perm], are arbitrary. *)
Definition unsqueeze_loop (old_shape : Dims) (axes : list Z)
  (new_shape : Dims) (perm : Trt.Permutation) : Dims * Trt.Permutation :=
  let axes_set : gset Z := list_to_set axes in
  let ndim_in := nbDims old_shape in
  let ndim_out := ndim_in + Z.of_nat (size axes_set) in
  let st :=
    Nat.iter (Z.to_nat ndim_out) (unsqueeze_step old_shape axes_set)
      (mkUnsqueezeVars 0 0 new_shape perm) in
  (uq_new_shape st, uq_perm st).

(** The number of new axes before position [k]. *)
Definition axes_before (axes_set : gset Z) (k : Z) : Z :=
  Z.of_nat (size (filter (fun a => a < k) axes_set)).

(** What holds of the loop's locals after [t] iterations. *)
Record LoopInv (old_shape : Dims) (axes_set : gset Z) (t : Z)
  (st : UnsqueezeVars) : Prop := mkLoopInv {
  inv_j : uq_j st = axes_before axes_set t;
  inv_i : uq_i st = t - axes_before axes_set t;
  inv_len_shape :
    nbDims (uq_new_shape st) = nbDims old_shape + Z.of_nat (size axes_set);
  inv_len_perm :
    nbDims (uq_perm st) = nbDims old_shape + Z.of_nat (size axes_set);
  inv_perm : forall k, 0 <= k < t ->
    dim (uq_perm st) k
    = if bool_decide (k ∈ axes_set) then nbDims old_shape + axes_before axes_set k
      else k - axes_before axes_set k;
  inv_ones : forall j, 0 <= j < axes_before axes_set t ->
    dim (uq_new_shape st) (nbDims old_shape + j) = 1;
  inv_kept : forall i, 0 <= i < t - axes_before axes_set t ->
    dim (uq_new_shape st) i
    = if dim old_shape i <? 0 then 0 else dim old_shape i
}.

End Unsqueeze.

(** ** Layers beside the pooling layer *)

Module PoolNetwork.

(** A layer that only presents a value as a tensor, or under other
    extents: a constant, or a shuffle that reshapes without
    transposing.  Such a layer neither pads nor crops. *)
Definition presents_only (l : Layer) : bool :=
  match l with
  | LConstant _ _ => true
  | LShuffle _ None (Some _) => true
  | _ => false
  end.

End PoolNetwork.

(** ** The pooling output formula *)

Module PoolFormula.


End PoolFormula.

(** ** The axes [is_transpose_required] looks at *)

Module Layout.

(** The axes among [ps] whose extent is not 1, in the order of [ps]:
    the ones [is_transpose_required] calls significant. *)
Definition significant (shape : Dims) (ps : list Z) : list Z :=
  filter (fun p => dim shape p <> 1) ps.

(** The source axes that [is_transpose_required] visits: the first
    [nbDims] entries of the permutation. *)
Definition visited (shape : Dims) (perm : Trt.Permutation) : list Z :=
  map (fun dst_i => dim perm dst_i) (iota (length shape)).

End Layout.

(** ** The recorder's reference count and sequences of reports *)

Module Lifetime.
Import Recorder.

(** A reference-count call made on the user's recorder. *)
Inductive RefCall := IncRef | DecRef.

(** The free store as far as the recorder is concerned: the recorder
    object while it is allocated, and the reference-count calls
    that the user's recorder has received from it. *)
Record Heap := mkHeap {
  object : option ONNXParserErrorRecorder;
  userRefCalls : list RefCall
}.

(** [new ONNXParserErrorRecorder(logger, otherRecorder)]: the constructor
    on fresh storage (allocation is taken to succeed). *)
Definition construct (logger : option (list string))
  (otherRecorder : option (list errorPair)) (h : Heap) : Heap :=
  mkHeap (Some (mkRecorder [] 0 otherRecorder logger))
    (match otherRecorder with
     | Some _ => userRefCalls h ++ [IncRef]
     | None => userRefCalls h
     end).

(** [delete this]: the destructor, then the release of the storage. *)
Definition delete_this (r : ONNXParserErrorRecorder) (h : Heap) : Heap :=
  mkHeap None
    (match mUserRecorder r with
     | Some _ => userRefCalls h ++ [DecRef]
     | None => userRefCalls h
     end).

Definition set_mRefCount (r : ONNXParserErrorRecorder) (n : Z)
  : ONNXParserErrorRecorder :=
  mkRecorder (mErrorStack r) n (mUserRecorder r) (mLogger r).

(** [incRefCount]: the value returned and the heap afterwards; [None]
    for a call on an object that has been deleted.  The counter is an
    atomic [int32_t], which wraps around. *)
Definition incRefCount (h : Heap) : option (Z * Heap) :=
  match object h with
  | Some r =>
      let newVal := to_int32 (mRefCount r + 1) in
      Some (newVal, mkHeap (Some (set_mRefCount r newVal)) (userRefCalls h))
  | None => None
  end.

(** [decRefCount] *)
Definition decRefCount (h : Heap) : option (Z * Heap) :=
  match object h with
  | Some r =>
      let newVal := to_int32 (mRefCount r - 1) in
      if newVal =? 0 then Some (newVal, delete_this r h)
      else Some (newVal, mkHeap (Some (set_mRefCount r newVal)) (userRefCalls h))
  | None => None
  end.

(** [create]: whether the pointer returned is non-null, and the heap.
    [new] does not return a null pointer; its failure, an exception that
    [create] logs before it returns a null pointer, is not modelled. *)
Definition create (logger : option (list string))
  (otherRecorder : option (list errorPair)) (h : Heap) : option (bool * Heap) :=
  match incRefCount (construct logger otherRecorder h) with
  | Some (_, h) => Some (true, h)
  | None => None
  end.

(** [destroy]: the pointer ([recorder], taken by reference) and the heap
    afterwards. *)
Definition destroy (recorder : bool) (h : Heap) : option (bool * Heap) :=
  if recorder then
    match decRefCount h with
    | Some (_, h) => Some (false, h)
    | None => None
    end
  else Some (recorder, h).

(** [n] calls, one after the other, of [incRefCount] or of
    [decRefCount]. *)
Definition times (n : nat) (call : Heap -> option (Z * Heap)) (h : Heap)
  : option Heap :=
  Nat.iter n (fun oh => oh ≫= fun h => snd <$> call h) (Some h).

(** [reportError] for each pair of a list in turn, by one thread: the
    values returned and the recorder afterwards. *)
Definition reportErrors (r : ONNXParserErrorRecorder) (calls : list errorPair)
  : list bool * ONNXParserErrorRecorder :=
  fold_left
    (fun st p =>
       let (b, r) := reportError (snd st) (fst p) (snd p) in (fst st ++ [b], r))
    calls ([], r).

End Lifetime.


(** ** Properties *)

Module RecorderFacts.

Import Recorder.

Lemma to_size_t_nonneg (i : Z) : 0 <= i < 2 ^ 31 -> to_size_t i = i.
Proof. intros H. unfold to_size_t. apply Z.mod_small. lia. Qed.

Lemma to_size_t_neg (i : Z) : - 2 ^ 31 <= i < 0 -> to_size_t i = i + 2 ^ 64.
Proof.
  intros H. unfold to_size_t. symmetry.
  apply Z.mod_unique with (q := -1); lia.
Qed.

Lemma invalidIndexCheck_spec (r : ONNXParserErrorRecorder) (i : Z) :
  - 2 ^ 31 <= i < 2 ^ 31 -> size r <= vector_max_size ->
  invalidIndexCheck r i = true <-> (i < 0 \/ size r <= i).
Proof.
  intros Hi Hsz. unfold invalidIndexCheck, vector_max_size in *.
  rewrite Z.leb_le.
  destruct (Z.neg_nonneg_cases i) as [Hneg | Hpos].
  - rewrite to_size_t_neg by lia. lia.
  - rewrite to_size_t_nonneg by lia. lia.
Qed.

(** C9.  Bounds-checked accessors: for an [int32_t] index outside
    [0, number of recorded errors), negative ones included,
    [getErrorCode] yields [kINVALID_ARGUMENT] and [getErrorDesc] the
    out-of-range text; inside the range they yield the recorded pair.
    Neither ever reads out of bounds. *)
Theorem getError_bounds_checked (r : ONNXParserErrorRecorder) (i : Z) :
  - 2 ^ 31 <= i < 2 ^ 31 ->
  size r <= vector_max_size ->
  ((i < 0 \/ size r <= i) ->
   getErrorCode r i = Some kINVALID_ARGUMENT
   /\ getErrorDesc r i = Some "errorIdx out of range."%string)
  /\ (0 <= i < size r ->
      exists code desc,
        mErrorStack r !! Z.to_nat i = Some (code, desc)
        /\ getErrorCode r i = Some code
        /\ getErrorDesc r i = Some desc).
Proof.
  intros Hi Hsz. split.
  - intros Hout. apply (invalidIndexCheck_spec r i Hi Hsz) in Hout.
    unfold getErrorCode, getErrorDesc. rewrite Hout. split; reflexivity.
  - intros Hin.
    assert (Hchk : invalidIndexCheck r i = false).
    { destruct (invalidIndexCheck r i) eqn:E; [| reflexivity].
      apply (invalidIndexCheck_spec r i Hi Hsz) in E. lia. }
    unfold getErrorCode, getErrorDesc, index. rewrite Hchk.
    rewrite to_size_t_nonneg by lia.
    destruct (lookup_lt_is_Some_2 (mErrorStack r) (Z.to_nat i)) as [[code desc] Hp].
    { unfold size in Hin. lia. }
    exists code, desc. rewrite Hp. simpl. auto.
Qed.

Lemma getError_bounds_checked_witness :
  getErrorCode Examples.two_errors (-1) = Some kINVALID_ARGUMENT
  /\ getErrorDesc Examples.two_errors 2 = Some "errorIdx out of range."%string
  /\ getErrorCode Examples.two_errors 1 = Some kINVALID_CONFIG.
Proof.
  assert (Hsz : size Examples.two_errors <= vector_max_size) by (vm_compute; discriminate).
  split; [| split].
  - apply (getError_bounds_checked Examples.two_errors (-1)); [lia | exact Hsz | left; lia].
  - apply (getError_bounds_checked Examples.two_errors 2);
      [lia | exact Hsz | right; vm_compute; discriminate].
  - destruct (getError_bounds_checked Examples.two_errors 1) as [_ H];
      [lia | exact Hsz |].
    destruct H as (code & desc & Hl & Hc & _); [vm_compute; split; [discriminate | reflexivity] |].
    vm_compute in Hl. injection Hl as <- <-. exact Hc.
Defined.

End RecorderFacts.

Module ImporterFacts.

(** *** Running computations *)

Lemma bind_run {A B} (m : M A) (k : A -> M B) (c : Ctx) :
  bind m k c = match m c with
               | (Ok a, c') => k a c'
               | (Err f, c') => (Err f, c')
               end.
Proof. reflexivity. Qed.

Lemma bind_Ok {A B} (m : M A) (k : A -> M B) (c c' : Ctx) (b : B) :
  bind m k c = (Ok b, c') ->
  exists a c1, m c = (Ok a, c1) /\ k a c1 = (Ok b, c').
Proof.
  rewrite bind_run. destruct (m c) as [[a | f] c1]; intros H.
  - exists a, c1. split; [reflexivity | exact H].
  - discriminate H.
Qed.

Lemma bind_step {A B} (m : M A) (k : A -> M B) (c c1 : Ctx) (a : A) :
  m c = (Ok a, c1) -> bind m k c = k a c1.
Proof. intros H. rewrite bind_run, H. reflexivity. Qed.

Lemma bind_fail {A B} (m : M A) (k : A -> M B) (c c1 : Ctx) (f : Failure) :
  m c = (Err f, c1) -> bind m k c = (Err f, c1).
Proof. intros H. rewrite bind_run, H. reflexivity. Qed.

Lemma bind_lift_Ok {A B} (a : A) (k : A -> M B) (c : Ctx) :
  bind (lift (Ok a)) k c = k a c.
Proof. reflexivity. Qed.

Lemma bind_ret {A B} (a : A) (k : A -> M B) (c : Ctx) :
  bind (ret a) k c = k a c.
Proof. reflexivity. Qed.

Lemma bind_ASSERT_true {B} (code : ErrorCode) (k : unit -> M B) (c : Ctx) :
  bind (ASSERT true code) k c = k tt c.
Proof. reflexivity. Qed.

Lemma bind_ASSERT_false {B} (code : ErrorCode) (k : unit -> M B) (c : Ctx) :
  bind (ASSERT false code) k c = (Err (Status code), c).
Proof. reflexivity. Qed.

Lemma lift_Ok {A} (r : Res A) (c c' : Ctx) (a : A) :
  lift r c = (Ok a, c') -> r = Ok a /\ c' = c.
Proof. unfold lift. intros H. injection H as -> ->. auto. Qed.

Lemma ASSERT_Ok (b : bool) (code : ErrorCode) (c c' : Ctx) (u : unit) :
  ASSERT b code c = (Ok u, c') -> b = true /\ c' = c.
Proof.
  unfold ASSERT. destruct b; intros H.
  - injection H as _ ->. auto.
  - discriminate H.
Qed.

Lemma ret_Ok {A} (a b : A) (c c' : Ctx) :
  ret a c = (Ok b, c') -> b = a /\ c' = c.
Proof. unfold ret. intros H. injection H as -> ->. auto. Qed.

Lemma forM_one {T S} (x : T) (body : T -> S -> M S) (s : S) (c : Ctx) :
  forM [x] body s c = body x s c.
Proof.
  cbn [forM]. rewrite bind_run.
  destruct (body x s c) as [[s' | f] c']; reflexivity.
Qed.

Lemma forM_cons {T S} (x : T) (xs : list T) (body : T -> S -> M S) (s : S) :
  forM (x :: xs) body s = bind (body x s) (fun s' => forM xs body s').
Proof. reflexivity. Qed.

(** *** Extents *)

Lemma dim_set_dim_ne (d : Dims) (i j v : Z) :
  0 <= i -> 0 <= j -> i <> j -> dim (set_dim d i v) j = dim d j.
Proof.
  intros Hi Hj Hne. unfold dim, set_dim.
  destruct (Z.ltb_spec i 0); [lia |]. destruct (Z.ltb_spec j 0); [lia |].
  rewrite !nth_lookup. rewrite list_lookup_insert_ne by lia. reflexivity.
Qed.

End ImporterFacts.

Module SliceFacts.

Import Examples ImporterFacts.

Lemma slice_axis_full_range (dims : Dims) (starts ends axes steps : list Z)
  (i : Z) (v : SliceVars) (c : Ctx) :
  full_range dims starts ends axes steps i ->
  slice_axis dims starts ends axes steps i v c = (Ok v, c).
Proof.
  intros (a & axis & e & Ha & Haxis & Hs & He & Hle & Hst).
  unfold slice_axis. rewrite Ha, bind_lift_Ok, Haxis, bind_lift_Ok.
  rewrite Hs, bind_lift_Ok, He, bind_lift_Ok, Hst, bind_lift_Ok.
  destruct (Z.leb_spec (dim dims axis) e) as [_ | ?]; [reflexivity | lia].
Qed.

Lemma slice_loop_full_range (dims : Dims) (starts ends axes steps : list Z)
  (idx : list Z) (v : SliceVars) (c : Ctx) :
  Forall (full_range dims starts ends axes steps) idx ->
  forM idx (slice_axis dims starts ends axes steps) v c = (Ok v, c).
Proof.
  induction 1 as [| i idx Hi _ IH]; [reflexivity |].
  rewrite forM_cons.
  rewrite (bind_step _ _ _ _ _ (slice_axis_full_range _ _ _ _ _ _ v c Hi)).
  exact IH.
Qed.

Lemma nonzero_not_all_zero (dims : Dims) (n : Z) :
  dims <> [] -> Forall (fun x => x <> 0) dims -> dims_eqb dims (makeDims n 0) = false.
Proof.
  intros Hne Hnz. unfold dims_eqb, makeDims. apply bool_decide_eq_false.
  intros E. destruct dims as [| x dims]; [contradiction |].
  inversion Hnz as [| ? ? Hx _]; subst.
  destruct (Z.to_nat n); [discriminate E |]. cbn in E. injection E as -> _.
  contradiction.
Qed.

Lemma nonzero_sizes (dims : Dims) (n : nat) (c : Ctx) :
  Forall (fun x => x <> 0) dims -> (n <= length dims)%nat ->
  forM (iota n) (slice_size_nonzero dims) tt c = (Ok tt, c).
Proof.
  intros Hnz Hn. unfold iota.
  assert (Hidx : Forall (fun i => dim dims i <> 0) (map Z.of_nat (seq 0 n))).
  { apply List.Forall_forall. intros i Hi. apply in_map_iff in Hi.
    destruct Hi as (k & <- & Hk). apply in_seq in Hk.
    unfold dim. destruct (Z.ltb_spec (Z.of_nat k) 0); [lia |].
    rewrite Nat2Z.id. rewrite List.Forall_forall in Hnz. apply Hnz.
    apply nth_In. lia. }
  induction Hidx as [| i idx Hi _ IH]; [reflexivity |].
  rewrite forM_cons. unfold slice_size_nonzero at 1.
  destruct (Z.eqb_spec (dim dims i) 0) as [E | _]; [contradiction |].
  cbn [negb]. rewrite bind_ASSERT_true. exact IH.
Qed.

(** Whatever the shape, as long as it has no extent of 0: a slice that
    is the whole range on every axis it names is lowered to a slice
    layer over the whole tensor, not to the input tensor. *)
Lemma full_range_slice_adds_layer (node : NodeProto)
  (inputs : list TensorOrWeights) (t : ITensor)
  (starts ends axes steps : list Z) (c : Ctx) :
  vec_at inputs 0 = Ok (Tensor t) ->
  slice_parameters node inputs c = (Ok (starts, ends, axes, steps), c) ->
  Forall (full_range (t_dims t) starts ends axes steps) (iota (length axes)) ->
  t_dims t <> [] ->
  Forall (fun x => x <> 0) (t_dims t) ->
  (length axes <= length (t_dims t))%nat ->
  importSlice node inputs c
  = (Ok [Tensor (mkTensor (LayerOutput (length (network c)) 0) (t_dims t))],
     mkCtx (opset c)
       (network c
          ++ [LSlice t (makeDims (nbDims (t_dims t)) 0) (t_dims t)
                (makeDims (nbDims (t_dims t)) 1)])
       (ceilingPoolFormula c) (tensors c)).
Proof.
  intros Hin Hpar Hfull Hne Hnz Hlen. unfold importSlice.
  rewrite Hin, bind_lift_Ok. cbn [convertToTensor]. rewrite bind_ret.
  rewrite (bind_step _ _ _ _ _ Hpar).
  rewrite (bind_step _ _ _ _ _ (slice_loop_full_range _ _ _ _ _ _ _ c Hfull)).
  cbn [sliceSize sliceStart sliceStride].
  rewrite (nonzero_not_all_zero _ _ Hne Hnz).
  rewrite (bind_step _ _ _ _ _ (nonzero_sizes _ _ c Hnz Hlen)).
  reflexivity.
Qed.

(** C1.  The full-range [Slice] of the specification's example
    ([starts] 0, [ends] 2^30, [axes] 0, [steps] 1 on a [5 x 3] tensor)
    is not elided: [sliceSize] keeps the input extents, which are
    compared with the all-zero extents, so the importer goes on to add a
    slice layer covering the whole tensor and returns that layer's
    output instead of the input tensor. *)
Theorem importSlice_full_range_adds_layer :
  importSlice slice_node slice_inputs (opset_ctx 10)
  = (Ok [Tensor (mkTensor (LayerOutput 0 0) [5; 3])],
     mkCtx 10
       [LSlice (mkTensor (NetworkInput "data") [5; 3]) [0; 0] [5; 3] [1; 1]]
       false ∅).
Proof.
  apply (full_range_slice_adds_layer slice_node slice_inputs
           (mkTensor (NetworkInput "data") [5; 3]) [0] [2 ^ 30] [0] [1]
           (opset_ctx 10)).
  - reflexivity.
  - reflexivity.
  - constructor; [| constructor].
    exists 0, 0, (2 ^ 30).
    split; [reflexivity |]. split; [reflexivity |]. split; [reflexivity |].
    split; [reflexivity |]. split; [| reflexivity].
    vm_compute. discriminate.
  - discriminate.
  - repeat constructor; discriminate.
  - cbn. lia.
Qed.

(** The elision does fire when every extent is 0. *)
Example importSlice_empty_tensor :
  importSlice slice_node
    [input_tensor "data" [0]; int64_vector [0]; int64_vector [2 ^ 30];
     int64_vector [0]; int64_vector [1]] (opset_ctx 10)
  = (Ok [input_tensor "data" [0]], opset_ctx 10).
Proof. vm_compute. reflexivity. Qed.

End SliceFacts.

Module LSTMFacts.

Import Examples ImporterFacts.

Lemma peephole_test (inputs : list TensorOrWeights) (c : Ctx) :
  (if 7 <? Z.of_nat (length inputs)
   then bind (lift (vec_at inputs 7)) (fun in7 => ret (tow_bool in7))
   else ret false) c
  = (Ok (match inputs !! 7%nat with Some v => tow_bool v | None => false end), c).
Proof.
  destruct (Z.ltb_spec 7 (Z.of_nat (length inputs))) as [Hlt | Hge].
  - destruct (lookup_lt_is_Some_2 inputs 7) as [v Hv]; [lia |].
    unfold bind, lift, vec_at, ret. simpl. change (Z.to_nat 7) with 7%nat.
    rewrite Hv. reflexivity.
  - rewrite (lookup_ge_None_2 inputs 7) by lia. reflexivity.
Qed.

(** The three guards at the head of [importLSTM], on the values read
    from the node ([input_forget] as the [int] it is kept in): whatever
    they reject fails with [kUNSUPPORTED_NODE] and leaves the context as
    it was. *)
Lemma importLSTM_guards
  (cell : LSTMPrologue -> M (list TensorOrWeights))
  (node : NodeProto) (inputs : list TensorOrWeights) (c : Ctx)
  (direction : string) (hidden inputForget clip : Z) :
  attrs_get_string_default (OnnxAttrs node) "direction" "forward" = Ok direction ->
  attrs_get_int (OnnxAttrs node) "hidden_size" = Ok hidden ->
  attrs_get_int_default (OnnxAttrs node) "input_forget" 0 = Ok inputForget ->
  attrs_get_float_default (OnnxAttrs node) "clip" float_minus_one = Ok clip ->
  rejected inputForget inputs clip ->
  importLSTM cell node inputs c = (Err (Status kUNSUPPORTED_NODE), c).
Proof.
  intros Hdir Hhid Hfg Hclip Hrej.
  unfold importLSTM. apply bind_fail. unfold importLSTM_prologue.
  rewrite Hdir, Hhid, Hfg, Hclip.
  rewrite !bind_lift_Ok.
  destruct (Z.eqb_spec inputForget 0) as [-> | Hne];
    [rewrite bind_ASSERT_true | apply bind_ASSERT_false].
  rewrite (bind_step _ _ c c _ (peephole_test inputs c)).
  destruct (inputs !! 7%nat) as [v |] eqn:Hv.
  - destruct (tow_bool v) eqn:Hb; [apply bind_ASSERT_false |].
    simpl negb. rewrite bind_ASSERT_true.
    destruct (Z.eqb_spec clip float_minus_one) as [-> | Hc];
      [| apply bind_ASSERT_false].
    destruct Hrej as [H | [(p & Hp & Hpb) | H]]; congruence.
  - simpl negb. rewrite bind_ASSERT_true.
    destruct (Z.eqb_spec clip float_minus_one) as [-> | Hc];
      [| apply bind_ASSERT_false].
    destruct Hrej as [H | [(p & Hp & Hpb) | H]]; congruence.
Qed.

(** C3 (amended).  For an LSTM node whose attributes can be read (one
    that carries [hidden_size], in particular): an [input_forget] equal
    to 1, a peephole operand, or a [clip] whose value is not the
    sentinel [-1.0] makes the lowering fail with [kUNSUPPORTED_NODE],
    leaving the context (and so the network) exactly as it was: no
    layer has been added for the node. *)
Theorem importLSTM_rejects_early
  (cell : LSTMPrologue -> M (list TensorOrWeights))
  (node : NodeProto) (inputs : list TensorOrWeights) (c : Ctx)
  (direction : string) (hidden inputForget clip : Z) :
  attrs_get_string_default (OnnxAttrs node) "direction" "forward" = Ok direction ->
  attrs_get_int (OnnxAttrs node) "hidden_size" = Ok hidden ->
  attrs_get_int_default (OnnxAttrs node) "input_forget" 0 = Ok inputForget ->
  attrs_get_float_default (OnnxAttrs node) "clip" float_minus_one = Ok clip ->
  inputForget = 1
  \/ (exists peephole,
        inputs !! 7%nat = Some peephole /\ tow_bool peephole = true)
  \/ clip <> float_minus_one ->
  importLSTM cell node inputs c = (Err (Status kUNSUPPORTED_NODE), c).
Proof.
  intros Hdir Hhid Hfg Hclip Hrej.
  apply (importLSTM_guards cell node inputs c direction hidden inputForget clip
           Hdir Hhid Hfg Hclip).
  unfold rejected. destruct Hrej as [-> | [Hp | Hc]]; [left; lia | tauto | tauto].
Qed.

Lemma importLSTM_rejects_early_witness :
  importLSTM (fun _ => ret []) lstm_input_forget lstm_inputs (opset_ctx 11)
  = (Err (Status kUNSUPPORTED_NODE), opset_ctx 11).
Proof.
  apply (importLSTM_rejects_early _ lstm_input_forget lstm_inputs (opset_ctx 11)
           "forward" 4 1 float_minus_one).
  - vm_compute. reflexivity.
  - vm_compute. reflexivity.
  - vm_compute. reflexivity.
  - vm_compute. reflexivity.
  - left. reflexivity.
Defined.

(** [input_forget] is kept in an [int]: 2^32 is read as 0 and passes the
    first guard. *)
Example input_forget_narrowed :
  attrs_get_int_default
    (OnnxAttrs (mkNode "LSTM" lstm_names ["Y"]
                  [("hidden_size", A_int 4); ("input_forget", A_int (2 ^ 32))]))
    "input_forget" 0
  = Ok 0.
Proof. vm_compute. reflexivity. Qed.

(** C3 as stated fails on a [clip] attribute holding the sentinel: the
    guards pass and the three operands are converted (the constant [X]
    becomes a layer); and without [hidden_size] the failure of an
    [input_forget = 1] node is that of the attribute accessor. *)
Lemma lstm_clip_sentinel_accepted :
  fst (importLSTM_prologue lstm_clip_sentinel lstm_inputs (opset_ctx 11))
  = Ok (mkLSTMPrologue 1 4
          (mkTensor (LayerOutput 0 0) [1; 1; 2])
          (mkTensor (NetworkInput "W") [1; 16; 2])
          (mkTensor (NetworkInput "R") [1; 16; 4]))
  /\ length (network (snd (importLSTM_prologue lstm_clip_sentinel lstm_inputs
                             (opset_ctx 11)))) = 1%nat
  /\ fst (importLSTM_prologue lstm_no_hidden_size lstm_inputs (opset_ctx 11))
     = Err InvalidAttribute.
Proof. vm_compute. repeat split. Qed.

End LSTMFacts.

Module ElementwiseFacts.

Import Examples ImporterFacts.

Lemma max_rank (d : Dims) : Z.max (-1) (nbDims d) = nbDims d.
Proof. unfold nbDims. lia. Qed.

Lemma ndim_max_step_run (x : TensorOrWeights) (s : Dims) (n : Z) (c : Ctx) :
  shape x = Ok s -> ndim_max_step x n c = (Ok (Z.max n (nbDims s)), c).
Proof. intros Hs. unfold ndim_max_step. rewrite Hs. reflexivity. Qed.

Lemma nbDims_expand_dims (d : Dims) (n : Z) :
  nbDims d <= n -> nbDims (expand_dims d n) = n.
Proof.
  intros H. unfold expand_dims, nbDims in *.
  rewrite length_app, repeat_length. lia.
Qed.

Lemma expand_dims_same_rank (d : Dims) : expand_dims d (nbDims d) = d.
Proof. unfold expand_dims. rewrite Z.sub_diag. reflexivity. Qed.

(** An operand of rank at most [n] comes out of [expand_operand] as a
    tensor of rank exactly [n], its extents preceded by extents of 1. *)
Lemma expand_operand_run (n : Z) (x : TensorOrWeights)
  (acc : list ITensor) (s : Dims) (c : Ctx) :
  shape x = Ok s -> nbDims s <= n ->
  exists t c', expand_operand n x acc c = (Ok (acc ++ [t]), c')
               /\ t_dims t = expand_dims s n
               /\ nbDims (t_dims t) = n.
Proof.
  intros Hs Hn. unfold expand_operand.
  destruct x as [t | w |]; simpl in Hs; [| | discriminate Hs];
    injection Hs as <-.
  - cbn [convertToTensor]. rewrite bind_ret.
    destruct (Z.eqb_spec (nbDims (t_dims t)) n) as [E | E]; cbn [negb].
    + rewrite bind_ret, E, Z.eqb_refl. eexists _, _.
      split; [reflexivity |]. split; [| exact E].
      rewrite <- E. symmetry. apply expand_dims_same_rank.
    + cbv [reshape_tensor bind addLayer ret]. cbn [t_dims].
      rewrite (nbDims_expand_dims _ _ Hn), Z.eqb_refl.
      eexists _, _. split; [reflexivity |]. split; [reflexivity |].
      apply nbDims_expand_dims, Hn.
  - cbv [convertToTensor bind addLayer ret]. cbn [t_dims].
    destruct (Z.eqb_spec (nbDims (w_shape w)) n) as [E | E]; cbn [negb].
    + cbn [t_dims]. rewrite E, Z.eqb_refl.
      eexists _, _. split; [reflexivity |]. split; [| exact E].
      cbn [t_dims]. rewrite <- E. symmetry. apply expand_dims_same_rank.
    + cbv [reshape_tensor bind addLayer ret]. cbn [t_dims network].
      rewrite (nbDims_expand_dims _ _ Hn), Z.eqb_refl.
      eexists _, _. split; [reflexivity |]. split; [reflexivity |].
      apply nbDims_expand_dims, Hn.
Qed.

(** At its own rank the operand is only converted, never reshaped. *)
Lemma expand_operand_same_rank (x : TensorOrWeights) (s : Dims)
  (ts : list ITensor) (c c1 : Ctx) :
  shape x = Ok s ->
  expand_operand (nbDims s) x [] c = (Ok ts, c1) ->
  exists t, convertToTensor x c = (Ok t, c1) /\ ts = [t].
Proof.
  intros Hs. unfold expand_operand.
  destruct x as [t | w |]; simpl in Hs; [| | discriminate Hs];
    injection Hs as <-.
  - cbn [convertToTensor]. rewrite bind_ret, Z.eqb_refl. cbn [negb].
    rewrite bind_ret, Z.eqb_refl, bind_ASSERT_true.
    intros H. injection H as <- <-. exists t. split; reflexivity.
  - cbv [convertToTensor bind addLayer ret]. cbn [t_dims].
    rewrite Z.eqb_refl. cbn [negb t_dims]. rewrite Z.eqb_refl. cbn [ASSERT].
    intros H. injection H as <- <-. eexists. split; reflexivity.
Qed.

(** C6.  With exactly one operand, a successful
    [combineTensorsElementwise] returns the output of an identity layer
    that it has just added over the operand (converted to a tensor), not
    the operand itself; and it does succeed for any present operand
    outside the legacy path of opsets below 7. *)
Theorem single_operand_identity (node : NodeProto) (x : TensorOrWeights)
  (op : ElementWiseOperation) (legacy : bool) (c : Ctx) :
  (forall outs c',
     combineTensorsElementwise node [x] op legacy c = (Ok outs, c') ->
     exists t c1,
       convertToTensor x c = (Ok t, c1)
       /\ network c' = network c1 ++ [LIdentity t]
       /\ outs = [Tensor (mkTensor (LayerOutput (length (network c1)) 0)
                            (t_dims t))])
  /\ (tow_bool x = true -> (opset c <? 7) && legacy = false ->
      exists outs c',
        combineTensorsElementwise node [x] op legacy c = (Ok outs, c')).
Proof.
  assert (Hshape : forall s, shape x = Ok s ->
            forM [x] ndim_max_step (-1) c = (Ok (nbDims s), c)).
  { intros s Hs. rewrite forM_one, (ndim_max_step_run x s _ c Hs), max_rank.
    reflexivity. }
  split.
  - intros outs c' H. unfold combineTensorsElementwise in H.
    rewrite bind_ASSERT_true in H.
    rewrite (bind_step getOpsetVersion _ c c (opset c)) in H by reflexivity.
    destruct ((opset c <? 7) && legacy); [discriminate H |].
    rewrite bind_ret in H.
    destruct (shape x) as [s | f] eqn:Hs.
    2:{ apply bind_Ok in H. destruct H as (n & c0 & H & _).
        rewrite forM_one in H. unfold ndim_max_step in H. rewrite Hs in H.
        discriminate H. }
    rewrite (bind_step _ _ _ _ _ (Hshape s eq_refl)) in H.
    apply bind_Ok in H. destruct H as (ts & c1 & Hts & H).
    rewrite forM_one in Hts.
    apply (expand_operand_same_rank x s ts c c1 Hs) in Hts.
    destruct Hts as (t & Ht & ->).
    exists t, c1. split; [exact Ht |].
    cbn in H. injection H as <- <-. split; reflexivity.
  - intros Hx Hleg. unfold combineTensorsElementwise.
    rewrite bind_ASSERT_true.
    rewrite (bind_step getOpsetVersion _ c c (opset c)) by reflexivity.
    rewrite Hleg, bind_ret.
    destruct (shape x) as [s | f] eqn:Hs; [| destruct x; discriminate].
    rewrite (bind_step _ _ _ _ _ (Hshape s eq_refl)).
    destruct (expand_operand_run (nbDims s) x [] s c Hs ltac:(lia))
      as (t & c1 & Hts & _ & _).
    rewrite <- forM_one in Hts. rewrite (bind_step _ _ _ _ _ Hts).
    cbn. eexists _, _. reflexivity.
Qed.

Lemma single_operand_identity_witness :
  exists outs c',
    combineTensorsElementwise sum_node [input_tensor "A" [2; 3]] kSUM false
      (opset_ctx 6) = (Ok outs, c')
    /\ exists t c1,
         convertToTensor (input_tensor "A" [2; 3]) (opset_ctx 6) = (Ok t, c1)
         /\ network c' = network c1 ++ [LIdentity t]
         /\ outs = [Tensor (mkTensor (LayerOutput (length (network c1)) 0)
                              (t_dims t))].
Proof.
  destruct (single_operand_identity sum_node (input_tensor "A" [2; 3]) kSUM
              false (opset_ctx 6)) as [Hid Hok].
  destruct Hok as (outs & c' & Hrun); [reflexivity | reflexivity |].
  exists outs, c'. split; [exact Hrun | exact (Hid outs c' Hrun)].
Defined.

Lemma legacy_broadcast_off (node : NodeProto) (lhs rhs : TensorOrWeights)
  (sl sr : Dims) (c : Ctx) :
  attrs_count (OnnxAttrs node) "broadcast" = false
  \/ attrs_count (OnnxAttrs node) "axis" = false ->
  shape lhs = Ok sl -> shape rhs = Ok sr ->
  applyLegacyBinaryOpBroadcasting node lhs rhs c = (Ok rhs, c).
Proof.
  intros Hflag Hl Hr. unfold applyLegacyBinaryOpBroadcasting.
  rewrite Hl, Hr, !bind_lift_Ok.
  assert (Hoff : attrs_count (OnnxAttrs node) "axis"
                 && attrs_count (OnnxAttrs node) "broadcast" = false).
  { destruct Hflag as [-> | ->]; [apply andb_false_r | reflexivity]. }
  rewrite Hoff, bind_ret. cbn [negb]. rewrite orb_true_r. reflexivity.
Qed.

(** One step of the last loop: the operand is combined with the running
    result by a new elementwise layer when the backend can broadcast
    the two, and the step fails with [kUNSUPPORTED_NODE], adding
    nothing, when it cannot. *)
Lemma combine_step_run (ts : list ITensor) (op : ElementWiseOperation)
  (i : Z) (acc t : ITensor) (c : Ctx) :
  vec_at ts i = Ok t ->
  nbDims (t_dims t) = nbDims (t_dims acc) ->
  combine_step ts op i acc c
  = match elementwiseDims (t_dims acc) (t_dims t) with
    | Some d =>
        (Ok (mkTensor (LayerOutput (length (network c)) 0) d),
         mkCtx (opset c) (network c ++ [LElementWise acc t op])
           (ceilingPoolFormula c) (tensors c))
    | None => (Err (Status kUNSUPPORTED_NODE), c)
    end.
Proof.
  intros Hat Hrank. unfold combine_step.
  rewrite Hat, bind_lift_Ok, Hrank, Z.eqb_refl, bind_ASSERT_true.
  unfold addElementWise.
  destruct (elementwiseDims (t_dims acc) (t_dims t)); reflexivity.
Qed.

(** C2 (amended).  Under an opset below 7, when the [broadcast] attribute
    (or the [axis] attribute) is absent, the legacy broadcaster returns
    success and leaves the operands as they are, so operands of
    different ranks are not rejected.  The lowering then brings both
    operands to the larger rank, with leading extents of 1, and asks for
    the elementwise layer: it succeeds, returning that layer's output,
    when the expanded extents can be broadcast, and fails with
    [kUNSUPPORTED_NODE] only when they cannot. *)
Theorem legacy_flag_absent_broadcasts (node : NodeProto)
  (lhs rhs : TensorOrWeights) (op : ElementWiseOperation) (sl sr : Dims)
  (c : Ctx) :
  opset c < 7 ->
  attrs_count (OnnxAttrs node) "broadcast" = false
  \/ attrs_count (OnnxAttrs node) "axis" = false ->
  shape lhs = Ok sl -> shape rhs = Ok sr ->
  applyLegacyBinaryOpBroadcasting node lhs rhs c = (Ok rhs, c)
  /\ exists a b c1,
       forM [lhs; rhs]
         (expand_operand (Z.max (nbDims sl) (nbDims sr))) [] c
       = (Ok [a; b], c1)
       /\ t_dims a = expand_dims sl (Z.max (nbDims sl) (nbDims sr))
       /\ t_dims b = expand_dims sr (Z.max (nbDims sl) (nbDims sr))
       /\ combineTensorsElementwise node [lhs; rhs] op true c
          = match elementwiseDims (t_dims a) (t_dims b) with
            | Some d =>
                (Ok [Tensor (mkTensor (LayerOutput (length (network c1)) 0) d)],
                 mkCtx (opset c1) (network c1 ++ [LElementWise a b op])
                   (ceilingPoolFormula c1) (tensors c1))
            | None => (Err (Status kUNSUPPORTED_NODE), c1)
            end.
Proof.
  intros Hver Hflag Hl Hr.
  pose proof (legacy_broadcast_off node lhs rhs sl sr c Hflag Hl Hr) as Hleg.
  split; [exact Hleg |].
  set (n := Z.max (nbDims sl) (nbDims sr)).
  destruct (expand_operand_run n lhs [] sl c Hl ltac:(lia))
    as (a & c1 & Ha & Hda & Hra).
  destruct (expand_operand_run n rhs [a] sr c1 Hr ltac:(lia))
    as (b & c2 & Hb & Hdb & Hrb).
  assert (Hts : forM [lhs; rhs] (expand_operand n) [] c = (Ok [a; b], c2)).
  { rewrite forM_cons. rewrite (bind_step _ _ _ _ _ Ha).
    rewrite forM_one. exact Hb. }
  exists a, b, c2.
  split; [exact Hts |]. split; [exact Hda |]. split; [exact Hdb |].
  unfold combineTensorsElementwise.
  rewrite bind_ASSERT_true.
  rewrite (bind_step getOpsetVersion _ c c (opset c)) by reflexivity.
  destruct (Z.ltb_spec (opset c) 7) as [_ | ?]; [| lia]. cbn [andb].
  assert (Hin : (let* _ := ASSERT (length [lhs; rhs] =? 2)%nat kINTERNAL_ERROR in
                 let* lhs0 := lift (vec_idx [lhs; rhs] 0) in
                 let* rhs0 := lift (vec_idx [lhs; rhs] 1) in
                 let* rhs' := applyLegacyBinaryOpBroadcasting node lhs0 rhs0 in
                 ret [lhs0; rhs']) c = (Ok [lhs; rhs], c)).
  { cbn [length Nat.eqb]. rewrite bind_ASSERT_true.
    change (vec_idx [lhs; rhs] 0) with (Ok lhs).
    change (vec_idx [lhs; rhs] 1) with (Ok rhs).
    rewrite !bind_lift_Ok. rewrite (bind_step _ _ _ _ _ Hleg). reflexivity. }
  rewrite (bind_step _ _ _ _ _ Hin).
  assert (Hmax : forM [lhs; rhs] ndim_max_step (-1) c = (Ok n, c)).
  { rewrite forM_cons.
    rewrite (bind_step _ _ _ _ _ (ndim_max_step_run lhs sl (-1) c Hl)).
    rewrite forM_one, (ndim_max_step_run rhs sr _ c Hr), max_rank.
    reflexivity. }
  rewrite (bind_step _ _ _ _ _ Hmax).
  rewrite (bind_step _ _ _ _ _ Hts).
  change (vec_at [a; b] 0) with (Ok a). rewrite bind_lift_Ok.
  cbn [length Nat.eqb].
  change (range 1 (Z.of_nat 2)) with [1].
  rewrite bind_run, forM_one.
  rewrite (combine_step_run [a; b] op 1 a b c2 eq_refl)
    by (rewrite Hra, Hrb; reflexivity).
  destruct (elementwiseDims (t_dims a) (t_dims b)); reflexivity.
Qed.

Lemma legacy_flag_absent_broadcasts_witness :
  applyLegacyBinaryOpBroadcasting add_node (input_tensor "A" [2; 3])
    (input_tensor "B" [3]) (opset_ctx 6)
  = (Ok (input_tensor "B" [3]), opset_ctx 6)
  /\ exists a b c1,
       forM add_inputs
         (expand_operand (Z.max (nbDims [2; 3]) (nbDims [3]))) [] (opset_ctx 6)
       = (Ok [a; b], c1)
       /\ t_dims a = expand_dims [2; 3] (Z.max (nbDims [2; 3]) (nbDims [3]))
       /\ t_dims b = expand_dims [3] (Z.max (nbDims [2; 3]) (nbDims [3]))
       /\ combineTensorsElementwise add_node add_inputs kSUM true (opset_ctx 6)
          = match elementwiseDims (t_dims a) (t_dims b) with
            | Some d =>
                (Ok [Tensor (mkTensor (LayerOutput (length (network c1)) 0) d)],
                 mkCtx (opset c1) (network c1 ++ [LElementWise a b kSUM])
                   (ceilingPoolFormula c1) (tensors c1))
            | None => (Err (Status kUNSUPPORTED_NODE), c1)
            end.
Proof.
  apply (legacy_flag_absent_broadcasts add_node (input_tensor "A" [2; 3])
           (input_tensor "B" [3]) kSUM [2; 3] [3] (opset_ctx 6)).
  - simpl. lia.
  - left. vm_compute. reflexivity.
  - reflexivity.
  - reflexivity.
Defined.

(** C2 as stated fails: opset 6, operands of ranks 2 and 1, no
    [broadcast] and no [axis] attribute; the lowering succeeds, reshaping
    the second operand to rank 2 and adding the sum. *)
Lemma legacy_rank_mismatch_accepted :
  attrs_count (OnnxAttrs add_node) "broadcast" = false
  /\ attrs_count (OnnxAttrs add_node) "axis" = false
  /\ importAdd add_node add_inputs (opset_ctx 6)
     = (Ok [Tensor (mkTensor (LayerOutput 1 0) [2; 3])],
        mkCtx 6
          [LShuffle (mkTensor (NetworkInput "B") [3]) None (Some [1; 3]);
           LElementWise (mkTensor (NetworkInput "A") [2; 3])
             (mkTensor (LayerOutput 0 0) [1; 3]) kSUM]
          false ∅).
Proof. vm_compute. repeat split. Qed.

(** Extents that cannot be broadcast ([2 x 3] and [2 x 4]) are refused
    where the layer is asked for. *)
Example incompatible_extents_rejected :
  fst (importAdd add_node
         [input_tensor "A" [2; 3]; input_tensor "B" [2; 4]] (opset_ctx 6))
  = Err (Status kUNSUPPORTED_NODE).
Proof. vm_compute. reflexivity. Qed.

End ElementwiseFacts.

Module PoolFacts.

Import Examples ImporterFacts.

Lemma asymmetric_padding_Ok (strides end_padding beg crop : Dims) (d : Z)
  (st : Dims * Dims) (c c' : Ctx) :
  0 <= d ->
  asymmetric_padding strides end_padding d (beg, crop) c = (Ok st, c') ->
  (dim end_padding d = dim beg d \/ dim end_padding d = dim beg d + 1)
  /\ forall j, 0 <= j -> j <> d -> dim (fst st) j = dim beg j.
Proof.
  intros Hd. unfold asymmetric_padding.
  destruct (Z.eqb_spec (dim end_padding d) (dim beg d)) as [E | E].
  - intros H. injection H as <- <-. auto.
  - destruct (Z.eqb_spec (dim end_padding d) (dim beg d + 1)) as [E1 | E1].
    + intros H. injection H as <- <-. split; [auto |].
      intros j Hj Hne. cbn [fst]. apply dim_set_dim_ne; lia.
    + intros H. discriminate H.
Qed.

(** What the loop over the two leading spatial dimensions accepts:
    equal begin- and end-pad change nothing; an end-pad exactly one unit
    above the begin-pad adds the stride to the begin-pad local and sets
    the crop local to 1; every other difference, a begin-pad above the
    end-pad included, fails with [kUNSUPPORTED_NODE].  A lowering that
    succeeds had one of the two accepted forms on both dimensions. *)
Lemma asymmetric_padding_rule :
  (forall (strides end_padding beg crop : Dims) (d : Z) (c : Ctx),
     (dim end_padding d = dim beg d ->
      asymmetric_padding strides end_padding d (beg, crop) c
      = (Ok (beg, crop), c))
     /\ (dim end_padding d = dim beg d + 1 ->
         asymmetric_padding strides end_padding d (beg, crop) c
         = (Ok (set_dim beg d (dim beg d + dim strides d), set_dim crop d 1), c))
     /\ (dim end_padding d <> dim beg d ->
         dim end_padding d <> dim beg d + 1 ->
         asymmetric_padding strides end_padding d (beg, crop) c
         = (Err (Status kUNSUPPORTED_NODE), c)))
  /\ (forall get_kernel_params poolingDims node inputs c outs c',
        importAveragePool get_kernel_params poolingDims node inputs c
        = (Ok outs, c') ->
        exists nb,
          (nb = 2 \/ nb = 3)
          /\ forall d, d = 0 \/ d = 1 ->
               let kp := get_kernel_params node (makeDims nb 1) (makeDims nb 1)
                           (makeDims nb 0) (makeDims nb 0) true in
               dim (end_padding kp) d = dim (beg_padding kp) d
               \/ dim (end_padding kp) d = dim (beg_padding kp) d + 1).
Proof.
  split.
  - intros strides end_padding beg crop d c. unfold asymmetric_padding.
    repeat split.
    + intros E. rewrite E, Z.eqb_refl. reflexivity.
    + intros E. destruct (Z.eqb_spec (dim end_padding d) (dim beg d)); [lia |].
      rewrite E, Z.eqb_refl. reflexivity.
    + intros E E1.
      destruct (Z.eqb_spec (dim end_padding d) (dim beg d)); [lia |].
      destruct (Z.eqb_spec (dim end_padding d) (dim beg d + 1)); [lia |].
      reflexivity.
  - intros gkp pd node inputs c outs c' H. unfold importAveragePool in H.
    apply bind_Ok in H. destruct H as (in0 & c0 & _ & H).
    apply bind_Ok in H. destruct H as (t0 & c1 & _ & H).
    apply bind_Ok in H. destruct H as (t1 & c2 & _ & H).
    apply bind_Ok in H. destruct H as (ver & c3 & _ & H).
    apply bind_Ok in H. destruct H as (u & c4 & _ & H).
    apply bind_Ok in H. destruct H as (u1 & c5 & _ & H).
    apply bind_Ok in H. destruct H as (u2 & c6 & Hnb & H).
    apply ASSERT_Ok in Hnb. destruct Hnb as [Hnb ->].
    apply bind_Ok in H. destruct H as (layer & c7 & _ & H).
    apply bind_Ok in H. destruct H as (u3 & c8 & _ & H).
    apply bind_Ok in H. destruct H as (st & c9 & Hloop & _).
    exists (nbDims (t_dims t1) - 2). split.
    { apply orb_true_iff in Hnb. rewrite !Z.eqb_eq in Hnb. exact Hnb. }
    rewrite forM_cons in Hloop.
    apply bind_Ok in Hloop. destruct Hloop as ([beg1 crop1] & c10 & H0 & H1).
    rewrite forM_one in H1.
    apply asymmetric_padding_Ok in H0; [| lia]. destruct H0 as [Hd0 Hkeep].
    apply asymmetric_padding_Ok in H1; [| lia]. destruct H1 as [Hd1 _].
    cbn [fst] in Hkeep. rewrite (Hkeep 1) in Hd1 by lia.
    intros d [-> | ->]; cbv zeta; assumption.
Qed.

(** A begin-pad of 1 against an end-pad of 0 differs by exactly one
    unit, and is rejected, by the loop and so by the importer (after it
    has added the pooling layer). *)
Example begin_pad_excess_rejected :
  asymmetric_padding [1; 1] [0; 0] 0 ([1; 0], [0; 0]) (opset_ctx 9)
  = (Err (Status kUNSUPPORTED_NODE), opset_ctx 9)
  /\ importAveragePool (explicit_pads [1; 0] [0; 0]) input_extents
       pool_node pool_inputs (opset_ctx 9)
     = (Err (Status kUNSUPPORTED_NODE),
        mkCtx 9
          [LPooling (mkTensor (NetworkInput "X") [1; 1; 4; 4]) kAVERAGE
             [2; 2] [1; 1] true kEXPLICIT_ROUND_DOWN [1; 0] [0; 0]]
          false ∅).
Proof. vm_compute. split; reflexivity. Qed.

(** The failing input of C7.  The adjustment is made on the importer's
    locals after the paddings were handed to the layer: with begin-pads
    [0, 0], end-pads [1, 0] and stride 1, the pooling layer carries the
    pre-padding [0, 0], not [1, 0], and its output is returned as it
    is. *)
Example end_pad_excess_layer :
  importAveragePool (explicit_pads [0; 0] [1; 0]) input_extents
    pool_node pool_inputs (opset_ctx 9)
  = (Ok [Tensor (mkTensor (LayerOutput 0 0) [1; 1; 4; 4])],
     mkCtx 9
       [LPooling (mkTensor (NetworkInput "X") [1; 1; 4; 4]) kAVERAGE
          [2; 2] [1; 1] true kEXPLICIT_ROUND_DOWN [0; 0] [1; 0]]
       false ∅).
Proof. vm_compute. reflexivity. Qed.

(** The third spatial dimension of a volume is not examined: an end-pad
    two above the begin-pad there is accepted. *)
Example third_dimension_unchecked :
  fst (importAveragePool (explicit_pads [0; 0; 0] [0; 0; 2]) input_extents
         pool_node pool_inputs_3d (opset_ctx 9))
  = Ok [Tensor (mkTensor (LayerOutput 0 0) [1; 1; 4; 4; 4])].
Proof. vm_compute. reflexivity. Qed.

End PoolFacts.

Module TransposeFacts.

Import Examples ImporterFacts.

Lemma sumZ_perm (l l' : list Z) : l ≡ₚ l' -> sumZ l = sumZ l'.
Proof.
  induction 1 as [| x l l' _ IH | x y l | l l' l'' _ IH1 _ IH2]; simpl; lia.
Qed.

(** A multi-index within bounds and its row-major offset determine each
    other. *)
Lemma ravel_bounds (shape : Dims) (idx : list Z) :
  in_bounds idx shape ->
  0 <= ravel shape idx < volume shape
  /\ unravel shape (ravel shape idx) = idx.
Proof.
  induction 1 as [| i n idx shape Hi _ IH]; simpl.
  - split; [lia | reflexivity].
  - destruct IH as [Hr Hu]. fold (volume shape).
    assert (Hq : (i * volume shape + ravel shape idx) / volume shape = i).
    { symmetry. apply Z.div_unique with (r := ravel shape idx); lia. }
    assert (Hm : (i * volume shape + ravel shape idx) mod volume shape
                 = ravel shape idx).
    { symmetry. apply Z.mod_unique with (q := i); lia. }
    rewrite Hq, Hm, Hu. split; [nia | reflexivity].
Qed.

Lemma dim_cons_S (x : Z) (l : list Z) (k : nat) :
  dim (x :: l) (Z.of_nat (S k)) = dim l (Z.of_nat k).
Proof.
  unfold dim. destruct (Z.ltb_spec (Z.of_nat (S k)) 0); [lia |].
  destruct (Z.ltb_spec (Z.of_nat k) 0); [lia |].
  rewrite !Nat2Z.id. reflexivity.
Qed.

Lemma stride_cons_S (x : Z) (l : list Z) (k : nat) :
  stride_of (x :: l) (Z.of_nat (S k)) = stride_of l (Z.of_nat k).
Proof. unfold stride_of. rewrite !Nat2Z.id. reflexivity. Qed.

(** The row-major offset is the sum of the coordinates weighted by the
    strides of their axes. *)
Lemma ravel_as_sum (shape : Dims) (idx : list Z) :
  length idx = length shape ->
  ravel shape idx
  = sumZ (map (fun p => dim idx p * stride_of shape p) (iota (length shape))).
Proof.
  revert idx. induction shape as [| n shape IH]; intros [| i idx] Hlen;
    try discriminate Hlen; [reflexivity |].
  injection Hlen as Hlen. cbn [ravel length]. rewrite (IH idx Hlen).
  unfold iota. rewrite <- cons_seq, <- seq_shift. cbn [map sumZ fold_right].
  rewrite !map_map. f_equal.
  f_equal. apply map_ext. intros k. rewrite dim_cons_S, stride_cons_S.
  reflexivity.
Qed.

Lemma valid_permutation_spec (perm : list Z) (n : nat) :
  valid_permutation perm n = true -> iota n ≡ₚ perm.
Proof.
  unfold valid_permutation. rewrite andb_true_iff, Nat.eqb_eq, forallb_forall.
  intros [Hlen Hall].
  apply NoDup_Permutation_bis.
  - unfold iota.
    apply Finite.Injective_map_NoDup; [intros a b; lia | apply seq_NoDup].
  - unfold iota. rewrite length_map, length_seq. lia.
  - intros i Hi. specialize (Hall i Hi). apply existsb_exists in Hall.
    destruct Hall as (p & Hp & E). apply Z.eqb_eq in E. subst. exact Hp.
Qed.

Lemma in_bounds_dim (idx shape : list Z) (p : Z) :
  in_bounds idx shape -> In p (iota (length shape)) ->
  0 <= dim idx p < dim shape p.
Proof.
  intros Hb Hp. unfold iota in Hp. apply in_map_iff in Hp.
  destruct Hp as (k & <- & Hk). apply in_seq in Hk.
  unfold dim. destruct (Z.ltb_spec (Z.of_nat k) 0) as [Hneg | _]; [lia |].
  rewrite Nat2Z.id. cbn [plus] in Hk. destruct Hk as [_ Hk].
  revert k Hk. induction Hb as [| i n idx shape Hi _ IH]; intros k Hk.
  - simpl in Hk. lia.
  - destruct k as [| k]; [exact Hi |]. apply IH. simpl in Hk. lia.
Qed.

Lemma nth_map_iota (f : Z -> Z) (n : nat) (o : Z) :
  0 <= o < Z.of_nat n -> nth (Z.to_nat o) (map f (iota n)) 0 = f o.
Proof.
  intros Ho. unfold iota. rewrite map_map.
  rewrite nth_indep with (d' := f (Z.of_nat 0%nat))
    by (rewrite length_map, length_seq; lia).
  rewrite (map_nth (fun k => f (Z.of_nat k)) (seq 0 n) 0%nat).
  rewrite seq_nth by lia. f_equal. lia.
Qed.

Lemma zip_with_gather (f g : Z -> Z) (perm : list Z) :
  zip_with (fun i p => i * g p) (map f perm) perm
  = map (fun p => f p * g p) perm.
Proof. induction perm as [| p perm IH]; simpl; [| rewrite IH]; reflexivity. Qed.

(** What the modelled [transposeWeights] produces: the permuted shape,
    and a buffer in which the element at the permuted coordinates is the
    source element. *)
Lemma transposeWeights_spec (weights result : ShapedWeights) (perm : list Z) :
  valid_permutation perm (length (w_shape weights)) = true ->
  exists out,
    transposeWeights weights perm result = Some out
    /\ w_type out = w_type result
    /\ w_shape out = map (fun p => dim (w_shape weights) p) perm
    /\ forall j, in_bounds j (w_shape weights) ->
         element out (map (fun p => dim j p) perm) = element weights j.
Proof.
  intros Hvalid. unfold transposeWeights. rewrite Hvalid.
  eexists. split; [reflexivity |]. split; [reflexivity |]. split; [reflexivity |].
  intros j Hj. unfold element. cbn [w_shape w_values].
  pose proof (valid_permutation_spec _ _ Hvalid) as Hperm.
  set (shape := w_shape weights) in *.
  set (new_shape := map (fun p => dim shape p) perm).
  set (idx := map (fun p => dim j p) perm).
  assert (Hidx : in_bounds idx new_shape).
  { unfold idx, new_shape, in_bounds. apply Forall2_fmap, Forall_Forall2_diag.
    apply List.Forall_forall. intros p Hp.
    apply (in_bounds_dim j shape p Hj).
    apply (Permutation_in p (Permutation_sym Hperm) Hp). }
  destruct (ravel_bounds new_shape idx Hidx) as [Hrange Hun].
  rewrite nth_map_iota by lia.
  rewrite Hun. unfold idx. rewrite zip_with_gather.
  rewrite <- (sumZ_perm _ _ (Permutation_map _ Hperm)).
  rewrite <- ravel_as_sum; [reflexivity |].
  apply Forall2_length in Hj. exact Hj.
Qed.

(** C8.  A [Transpose] whose operand is a weights value is folded at
    lowering time: the result is a weights value of the same element
    type whose shape is the permuted shape and whose element at the
    permuted coordinates is the operand's element, and the context (so
    the network) is left as it was. *)
Theorem importTranspose_weights_folded (node : NodeProto)
  (weights : ShapedWeights) (rest : list TensorOrWeights) (c : Ctx)
  (perm : list Z) :
  nbDims (w_shape weights) <= MAX_DIMS ->
  attrs_get_ints_default (OnnxAttrs node) "perm"
    (map (fun i => nbDims (w_shape weights) - 1 - i)
       (iota (length (w_shape weights)))) = Ok perm ->
  valid_permutation perm (length (w_shape weights)) = true ->
  exists out,
    importTranspose node (Weights weights :: rest) c = (Ok [Weights out], c)
    /\ w_type out = w_type weights
    /\ w_shape out = map (fun p => dim (w_shape weights) p) perm
    /\ forall j, in_bounds j (w_shape weights) ->
         element out (map (fun p => dim j p) perm) = element weights j.
Proof.
  intros Hrank Hperm Hvalid.
  destruct (transposeWeights_spec weights
              (createTempWeights (w_type weights) (w_shape weights)) perm Hvalid)
    as (out & Hout & Htype & Hshape & Helem).
  exists out. split; [| auto].
  unfold importTranspose.
  change (vec_at (Weights weights :: rest) 0) with (Ok (Weights weights)).
  rewrite bind_lift_Ok. cbn [shape]. rewrite bind_lift_Ok.
  destruct (Z.leb_spec (nbDims (w_shape weights)) MAX_DIMS) as [_ | ?]; [| lia].
  rewrite bind_ASSERT_true, Hperm, bind_lift_Ok, Hout. reflexivity.
Qed.

Lemma importTranspose_weights_folded_witness :
  exists out,
    importTranspose transpose_node [Weights transpose_weights] (opset_ctx 11)
    = (Ok [Weights out], opset_ctx 11)
    /\ w_type out = FLOAT
    /\ w_shape out = [3; 2]
    /\ forall j, in_bounds j [2; 3] ->
         element out (map (fun p => dim j p) [1; 0]) = element transpose_weights j.
Proof.
  apply (importTranspose_weights_folded transpose_node transpose_weights []
           (opset_ctx 11) [1; 0]).
  - vm_compute. discriminate.
  - vm_compute. reflexivity.
  - vm_compute. reflexivity.
Defined.

(** The example of the specification, evaluated: the buffer of the
    [2 x 3] constant comes out column by column. *)
Example transpose_2x3 :
  importTranspose transpose_node [Weights transpose_weights] (opset_ctx 11)
  = (Ok [Weights (float_matrix [11; 21; 12; 22; 13; 23] [3; 2])],
     opset_ctx 11).
Proof. vm_compute. reflexivity. Qed.

End TransposeFacts.

Module LoopFacts.

Import Examples ImporterFacts.

Lemma keeps_refl (net : Network) : keeps_loop_outputs net net.
Proof. intros kind v H. exact H. Qed.

Lemma keeps_trans (n1 n2 n3 : Network) :
  keeps_loop_outputs n1 n2 -> keeps_loop_outputs n2 n3 ->
  keeps_loop_outputs n1 n3.
Proof. intros H12 H23 kind v H. apply H23, H12, H. Qed.

Lemma keeps_app (net ls : Network) : keeps_loop_outputs net (net ++ ls).
Proof.
  intros kind v (l & d & lp & input & axis & len & -> & Hl).
  exists l, d, lp, input, axis, len. split; [reflexivity |].
  apply lookup_app_l_Some. exact Hl.
Qed.

Lemma keeps_setInput1 (net : Network) (i : nat) (t : ITensor) :
  keeps_loop_outputs net (alter (setInput1 t) i net).
Proof.
  intros kind v (l & d & lp & input & axis & len & -> & Hl).
  destruct (decide (i = l)) as [-> | Hne].
  - exists l, d, lp, input, axis, (Some t). split; [reflexivity |].
    rewrite list_lookup_alter_eq, Hl. reflexivity.
  - exists l, d, lp, input, axis, len. split; [reflexivity |].
    rewrite list_lookup_alter_ne by exact Hne. exact Hl.
Qed.

Lemma convertToTensor_Ok (v : TensorOrWeights) (t : ITensor) (c c' : Ctx) :
  convertToTensor v c = (Ok t, c') ->
  exists ls, network c' = network c ++ ls.
Proof.
  destruct v as [t0 | w |]; cbn [convertToTensor].
  - intros H. injection H as _ <-. exists []. rewrite app_nil_r. reflexivity.
  - cbv [bind addLayer ret]. intros H. injection H as _ <-. eexists. reflexivity.
  - intros H. discriminate H.
Qed.

Lemma tensorsAt_Ok (name : string) (v : TensorOrWeights) (c c' : Ctx) :
  tensorsAt name c = (Ok v, c') -> c' = c.
Proof.
  unfold tensorsAt. destruct (tensors c !! name); intros H;
    [injection H as _ <-; reflexivity | discriminate H].
Qed.


Lemma range_scan (k : Z) : range (k - 2 + 1) k = [k - 1].
Proof.
  unfold range. replace (k - (k - 2 + 1)) with 1 by lia.
  change (Z.to_nat 1) with 1%nat. cbn [seq map]. f_equal. lia.
Qed.

Lemma forM_invariant {T St} (P : nat -> St -> Ctx -> Prop)
  (body : T -> St -> M St) (xs : list T) (s s' : St) (c c' : Ctx) (n : nat) :
  (forall n x s c s' c',
     P n s c -> body x s c = (Ok s', c') -> P (S n) s' c') ->
  P n s c ->
  forM xs body s c = (Ok s', c') ->
  P (n + length xs)%nat s' c'.
Proof.
  intros Hstep. revert n s c.
  induction xs as [| x xs IH]; intros n s c HP H.
  - cbn in H. injection H as <- <-. rewrite Nat.add_0_r. exact HP.
  - rewrite forM_cons in H. apply bind_Ok in H.
    destruct H as (s1 & c1 & Hx & H).
    cbn [length]. rewrite Nat.add_succ_r.
    apply (IH (S n) s1 c1); [| exact H].
    apply (Hstep n x s c); assumption.
Qed.


Lemma loop_scan_output_Ok (loop : nat) (body : GraphProto)
  (tripLimit : option ITensor) (i : Z)
  (outs outs' : list TensorOrWeights) (c c' : Ctx) :
  loop_scan_output loop body tripLimit i outs c = (Ok outs', c') ->
  exists l d input len,
    outs' = outs ++ [Tensor (mkTensor (LayerOutput l 0) d)]
    /\ network c' !! l = Some (LLoopOutput loop input kCONCATENATE 0 (Some len))
    /\ match tripLimit with
       | Some tl => len = tl
       | None =>
           exists lc,
             len = mkTensor (LayerOutput lc 0) []
             /\ network c' !! lc
                = Some (LConstant [] (mkWeights INT32 [MAX_SCAN_OUTPUT_LENGTH] []))
       end
    /\ keeps_loop_outputs (network c) (network c').
Proof.
  intros H. unfold loop_scan_output in H.
  apply bind_Ok in H. destruct H as (name & c1 & H1 & H).
  apply lift_Ok in H1. destruct H1 as [_ ->].
  apply bind_Ok in H. destruct H as (v & c2 & H2 & H).
  apply tensorsAt_Ok in H2. subst c2.
  apply bind_Ok in H. destruct H as (scanOutput & c3 & H3 & H).
  apply convertToTensor_Ok in H3. destruct H3 as (ls & Hls).
  destruct tripLimit as [tl |].
  - cbv [bind updateLayer addLayer ret] in H. injection H as <- <-.
    cbn [network].
    eexists _, _, _, tl. split; [reflexivity |]. split; [| split; [reflexivity |]].
    + rewrite list_lookup_alter_eq, lookup_app_r by lia.
      rewrite Nat.sub_diag. reflexivity.
    + rewrite Hls.
      eapply keeps_trans; [apply keeps_app |].
      eapply keeps_trans; [apply keeps_app | apply keeps_setInput1].
  - cbv [bind updateLayer addLayer addConstantScalar createTempWeights ret] in H.
    cbn in H. injection H as <- <-. cbn [network snd].
    eexists _, _, _, _. split; [reflexivity |]. split; [| split].
    + rewrite list_lookup_alter_eq, lookup_app_l by (rewrite length_app; simpl; lia).
      rewrite lookup_app_r by lia. rewrite Nat.sub_diag. reflexivity.
    + eexists. split; [reflexivity |].
      rewrite list_lookup_alter_ne by (rewrite length_app; simpl; lia).
      rewrite lookup_app_r by (rewrite length_app; simpl; lia).
      rewrite Nat.sub_diag. reflexivity.
    + rewrite Hls.
      eapply keeps_trans; [apply keeps_app |].
      eapply keeps_trans; [apply keeps_app |].
      eapply keeps_trans; [apply keeps_app | apply keeps_setInput1].
Qed.

Lemma loop_trip_limit_Ok (convertToScalar : ITensor -> M (option ITensor))
  (loop : nat) (input : TensorOrWeights) (kind : TripLimit)
  (limit : option ITensor) (c c' : Ctx) :
  loop_trip_limit convertToScalar loop input kind c = (Ok limit, c') ->
  if tow_bool input
  then exists t c1 c2 len,
         convertToTensor input c = (Ok t, c1)
         /\ convertToScalar t c1 = (Ok (Some len), c2)
         /\ limit = Some len
  else limit = None.
Proof.
  unfold loop_trip_limit. destruct (tow_bool input).
  - intros H.
    apply bind_Ok in H. destruct H as (t & c1 & Ht & H).
    apply bind_Ok in H. destruct H as ([len |] & c2 & Hs & H); [| discriminate H].
    cbv [bind addLayer ret] in H. injection H as <- _.
    exists t, c1, c2, len. auto.
  - intros H. injection H as <- _. reflexivity.
Qed.

(** A successful [importLoop], cut at its two output loops. *)
Lemma importLoop_Ok (parseGraph : GraphProto -> M unit)
  (convertToScalar : ITensor -> M (option ITensor))
  (node : NodeProto) (inputs : list TensorOrWeights)
  (outs : list TensorOrWeights) (c c' : Ctx) :
  importLoop parseGraph convertToScalar node inputs c = (Ok outs, c') ->
  let K := Z.of_nat (length (node_input node)) in
  let loop := length (network c) in
  exists body in0 tripLimit stateVars outs1 c1 c2 c3,
    inputs !! 0%nat = Some in0
    /\ loop_trip_limit convertToScalar loop in0 kCOUNT (snd (addLayer LLoop c))
       = (Ok tripLimit, c1)
    /\ forM (range 0 (K - 2)) (loop_state_output loop body stateVars) [] c2
       = (Ok outs1, c3)
    /\ forM (range (K - 2 + 1) K) (loop_scan_output loop body tripLimit) outs1 c3
       = (Ok outs, c').
Proof.
  intros H K loop. unfold importLoop in H.
  apply bind_Ok in H. destruct H as (u & c0 & H0 & H).
  apply ASSERT_Ok in H0. destruct H0 as [_ ->].
  apply bind_Ok in H. destruct H as (body & c0 & H0 & H).
  apply lift_Ok in H0. destruct H0 as [_ ->].
  apply bind_Ok in H. destruct H as (lp & c0 & H0 & H).
  cbv beta delta [addLayer] in H0. injection H0 as <- <-.
  apply bind_Ok in H. destruct H as (in0 & c0 & H0 & H).
  apply lift_Ok in H0. destruct H0 as [Hin0 ->].
  apply bind_Ok in H. destruct H as (tripLimit & c1 & Htrip & H).
  apply bind_Ok in H. destruct H as (in1 & c0 & H0 & H).
  apply lift_Ok in H0. destruct H0 as [_ ->].
  apply bind_Ok in H. destruct H as (cond & c1' & _ & H).
  apply bind_Ok in H. destruct H as (stateVars & c1'' & _ & H).
  apply bind_Ok in H. destruct H as (u' & c2 & _ & H).
  apply bind_Ok in H. destruct H as (outs1 & c3 & Hstate & H).
  apply bind_Ok in H. destruct H as (outs2 & c4 & Hscan & H).
  apply ret_Ok in H. destruct H as [-> ->].
  exists body, in0, tripLimit, stateVars, outs1, c1, c2, c3.
  split; [| split; [exact Htrip | split; [exact Hstate | exact Hscan]]].
  unfold vec_idx in Hin0. cbn in Hin0.
  change (Z.to_nat 0) with 0%nat in Hin0. revert Hin0.
  destruct (inputs !! 0%nat); intros Hin0;
    [injection Hin0 as ->; reflexivity | discriminate Hin0].
Qed.


(** C4.  The scan output that a successful [importLoop] emits is a
    concatenation loop output whose length input is set: to the scalar
    trip-count tensor (the first operand, converted) when the node
    supplies a trip count, and otherwise to the output of a constant
    layer holding the INT32 scalar 1024, the value of the importer's
    [MAX_SCAN_OUTPUT_LENGTH]. *)
Theorem importLoop_scan_length (parseGraph : GraphProto -> M unit)
  (convertToScalar : ITensor -> M (option ITensor))
  (node : NodeProto) (inputs : list TensorOrWeights)
  (outs : list TensorOrWeights) (c c' : Ctx) :
  importLoop parseGraph convertToScalar node inputs c = (Ok outs, c') ->
  exists l d input len in0,
    last outs = Some (Tensor (mkTensor (LayerOutput l 0) d))
    /\ network c' !! l
       = Some (LLoopOutput (length (network c)) input kCONCATENATE 0 (Some len))
    /\ inputs !! 0%nat = Some in0
    /\ if tow_bool in0
       then exists t c1 c2,
              convertToTensor in0 (snd (addLayer LLoop c)) = (Ok t, c1)
              /\ convertToScalar t c1 = (Ok (Some len), c2)
       else exists lc,
              len = mkTensor (LayerOutput lc 0) []
              /\ network c' !! lc
                 = Some (LConstant []
                           (mkWeights INT32 [1024] [])).
Proof.
  intros H. apply importLoop_Ok in H. cbv zeta in H.
  destruct H as (body & in0 & tripLimit & stateVars & outs1 & c1 & c2 & c3
                 & Hin0 & Htrip & _ & Hscan).
  rewrite range_scan, forM_one in Hscan.
  apply loop_scan_output_Ok in Hscan.
  destruct Hscan as (l & d & input & len & -> & Hl & Hlen & _).
  exists l, d, input, len, in0.
  split; [apply last_snoc |]. split; [exact Hl |]. split; [exact Hin0 |].
  apply loop_trip_limit_Ok in Htrip.
  destruct (tow_bool in0).
  - destruct Htrip as (t & c1' & c2' & len' & Hconv & Hscalar & ->).
    subst len. exists t, c1', c2'. auto.
  - subst tripLimit. exact Hlen.
Qed.


Lemma importLoop_scan_length_witness :
  exists l d input len in0,
    last loop_outputs_uncounted = Some (Tensor (mkTensor (LayerOutput l 0) d))
    /\ network (snd (importLoop bind_body_outputs scalar_of_volume_one
                       loop_node loop_inputs_uncounted (opset_ctx 11))) !! l
       = Some (LLoopOutput (length (network (opset_ctx 11))) input
                 kCONCATENATE 0 (Some len))
    /\ loop_inputs_uncounted !! 0%nat = Some in0
    /\ if tow_bool in0
       then exists t c1 c2,
              convertToTensor in0 (snd (addLayer LLoop (opset_ctx 11))) = (Ok t, c1)
              /\ scalar_of_volume_one t c1 = (Ok (Some len), c2)
       else exists lc,
              len = mkTensor (LayerOutput lc 0) []
              /\ network (snd (importLoop bind_body_outputs
                                 scalar_of_volume_one loop_node
                                 loop_inputs_uncounted (opset_ctx 11))) !! lc
                 = Some (LConstant []
                           (mkWeights INT32 [1024] [])).
Proof.
  apply (importLoop_scan_length bind_body_outputs scalar_of_volume_one
           loop_node loop_inputs_uncounted loop_outputs_uncounted
           (opset_ctx 11)).
  vm_compute. reflexivity.
Defined.

(** The two cases, evaluated: with a trip count the scan output's length
    is the trip-count tensor; without one it is the constant 1024. *)
Example loop_counted_network :
  network (snd (importLoop bind_body_outputs scalar_of_volume_one loop_node
                  loop_inputs_counted (opset_ctx 11)))
  = [LLoop;
     LTripLimit 0 (mkTensor (NetworkInput "trip") []) kCOUNT;
     LRecurrence 0 (mkTensor (NetworkInput "state") [2])
       (Some (mkTensor (NetworkInput "state_out") [2]));
     LLoopOutput 0 (mkTensor (LayerOutput 2 0) [2]) kLAST_VALUE 0 None;
     LLoopOutput 0 (mkTensor (NetworkInput "scan_out") [2]) kCONCATENATE 0
       (Some (mkTensor (NetworkInput "trip") []))].
Proof. vm_compute. reflexivity. Qed.

Example loop_uncounted_network :
  network (snd (importLoop bind_body_outputs scalar_of_volume_one loop_node
                  loop_inputs_uncounted (opset_ctx 11)))
  = [LLoop;
     LRecurrence 0 (mkTensor (NetworkInput "state") [2])
       (Some (mkTensor (NetworkInput "state_out") [2]));
     LLoopOutput 0 (mkTensor (LayerOutput 1 0) [2]) kLAST_VALUE 0 None;
     LLoopOutput 0 (mkTensor (NetworkInput "scan_out") [2]) kCONCATENATE 0
       (Some (mkTensor (LayerOutput 4 0) []));
     LConstant [] (mkWeights INT32 [1024] [])].
Proof. vm_compute. reflexivity. Qed.

End LoopFacts.

Module ThreadFacts.

Import Recorder Threads RecorderFacts Examples.

Local Open Scope nat_scope.

Lemma lookup_update (l : list Pc) (k j : nat) (pc' pc : Pc) :
  <[k := pc']> l !! j = Some pc ->
  (j = k /\ pc = pc') \/ (j <> k /\ l !! j = Some pc).
Proof.
  rewrite list_lookup_insert. case_decide as Hd.
  - intros H. injection H as <-. left. destruct Hd as [-> _]. auto.
  - intros H. destruct (decide (j = k)) as [-> | Hne]; [| auto].
    exfalso. apply Hd. split; [reflexivity |].
    apply lookup_lt_Some in H. exact H.
Qed.

Lemma pushed_cons (p : Pc) (l : list Pc) (c : errorPair) (calls : list errorPair) :
  pushed (p :: l) (c :: calls) = contribution p c ++ pushed l calls.
Proof. reflexivity. Qed.

Lemma pushed_insert_same (l : list Pc) (calls : list errorPair) (k : nat)
  (pc pc' : Pc) :
  l !! k = Some pc -> has_pushed pc' = has_pushed pc ->
  pushed (<[k := pc']> l) calls = pushed l calls.
Proof.
  revert k calls. induction l as [| p l IH]; intros [| k] [| c calls] Hk Hp;
    try discriminate Hk; try reflexivity.
  - injection Hk as ->. cbn [insert list_insert]. rewrite !pushed_cons.
    unfold contribution. rewrite Hp. reflexivity.
  - cbn [insert list_insert]. rewrite !pushed_cons. f_equal.
    apply (IH k calls Hk Hp).
Qed.

Lemma pushed_insert_new (l : list Pc) (calls : list errorPair) (k : nat)
  (pc pc' : Pc) (call : errorPair) :
  l !! k = Some pc -> calls !! k = Some call ->
  has_pushed pc = false -> has_pushed pc' = true ->
  pushed (<[k := pc']> l) calls ≡ₚ call :: pushed l calls.
Proof.
  revert k calls. induction l as [| p l IH]; intros [| k] [| c calls] Hk Hc Hp Hp';
    try discriminate Hk; try discriminate Hc.
  - injection Hk as ->. injection Hc as ->. cbn [insert list_insert].
    rewrite !pushed_cons. unfold contribution. rewrite Hp, Hp'. reflexivity.
  - cbn [insert list_insert]. rewrite !pushed_cons.
    rewrite (IH k calls Hk Hc Hp Hp'). symmetry. apply Permutation_middle.
Qed.

Lemma pushed_all (l : list Pc) (calls : list errorPair) :
  length l = length calls -> forallb returned l = true ->
  pushed l calls = calls.
Proof.
  revert calls. induction l as [| p l IH]; intros [| c calls] Hlen Hall;
    try discriminate Hlen; [reflexivity |].
  cbn [forallb] in Hall. apply andb_true_iff in Hall. destruct Hall as [Hp Hall].
  rewrite pushed_cons, IH by (try exact Hall; injection Hlen as Hlen; exact Hlen).
  destruct p; try discriminate Hp. reflexivity.
Qed.

Lemma step_Inv (calls : list errorPair) (k : nat) (s : State) :
  Inv calls s -> Inv calls (step calls k s).
Proof.
  intros HI. unfold step.
  destruct (pcs s !! k) as [pc |] eqn:Hpc; [| exact HI].
  destruct (calls !! k) as [call |] eqn:Hcall; [| exact HI].
  pose proof (lookup_lt_Some _ _ _ Hpc) as Hk.
  destruct HI as [Hlen Hholder Hlocked Hread Hstack Hres].
  destruct pc as [| | old | | | b]; cbn [thread_step].
  - (* Start *)
    destruct (mStackLock s) as [h |] eqn:Hlock;
      [constructor; rewrite ?Hlock; assumption |].
    constructor; cbn [pcs mStackLock recorder].
    + rewrite length_insert. exact Hlen.
    + intros j pc Hj Hcs. apply lookup_update in Hj.
      destruct Hj as [[-> ->] | [Hne Hj]]; [reflexivity |].
      specialize (Hholder j pc Hj Hcs). discriminate Hholder.
    + intros j Hj. injection Hj as <-. exists Holding.
      split; [apply list_lookup_insert_eq, Hk | reflexivity].
    + intros j old Hj. apply lookup_update in Hj.
      destruct Hj as [[_ Hj] | [_ Hj]]; [discriminate Hj | eauto].
    + rewrite (pushed_insert_same _ _ _ _ _ Hpc) by reflexivity. exact Hstack.
    + intros j b Hj. apply lookup_update in Hj.
      destruct Hj as [[_ Hj] | [_ Hj]]; [discriminate Hj | eauto].
  - (* Holding *)
    pose proof (Hholder k _ Hpc eq_refl) as Hlock.
    constructor; cbn [pcs mStackLock recorder].
    + rewrite length_insert. exact Hlen.
    + intros j pc Hj Hcs. apply lookup_update in Hj.
      destruct Hj as [[-> ->] | [Hne Hj]]; [exact Hlock | eauto].
    + intros j Hj. rewrite Hlock in Hj. injection Hj as <-.
      exists (Appending (mErrorStack (recorder s))).
      split; [apply list_lookup_insert_eq, Hk | reflexivity].
    + intros j old Hj. apply lookup_update in Hj.
      destruct Hj as [[_ Hj] | [_ Hj]]; [injection Hj as ->; reflexivity | eauto].
    + rewrite (pushed_insert_same _ _ _ _ _ Hpc) by reflexivity. exact Hstack.
    + intros j b Hj. apply lookup_update in Hj.
      destruct Hj as [[_ Hj] | [_ Hj]]; [discriminate Hj | eauto].
  - (* Appending *)
    pose proof (Hholder k _ Hpc eq_refl) as Hlock.
    pose proof (Hread k old Hpc) as ->.
    constructor; cbn [pcs mStackLock recorder mErrorStack].
    + rewrite length_insert. exact Hlen.
    + intros j pc Hj Hcs. apply lookup_update in Hj.
      destruct Hj as [[-> ->] | [Hne Hj]]; [exact Hlock | eauto].
    + intros j Hj. rewrite Hlock in Hj. injection Hj as <-.
      exists Appended. split; [apply list_lookup_insert_eq, Hk | reflexivity].
    + intros j old Hj. apply lookup_update in Hj.
      destruct Hj as [[_ Hj] | [Hne Hj]]; [discriminate Hj |].
      specialize (Hholder j _ Hj eq_refl). rewrite Hlock in Hholder.
      injection Hholder as ->. contradiction.
    + rewrite (pushed_insert_new _ _ _ _ _ _ Hpc Hcall) by reflexivity.
      rewrite <- Hstack. symmetry. apply Permutation_cons_append.
    + intros j b Hj. apply lookup_update in Hj.
      destruct Hj as [[_ Hj] | [_ Hj]]; [discriminate Hj | eauto].
  - (* Appended *)
    pose proof (Hholder k _ Hpc eq_refl) as Hlock.
    assert (Hsame : mErrorStack (notify (recorder s) call)
                    = mErrorStack (recorder s)).
    { unfold notify. destruct (mUserRecorder (recorder s)); reflexivity. }
    constructor; cbn [pcs mStackLock recorder]; rewrite ?Hsame.
    + rewrite length_insert. exact Hlen.
    + intros j pc Hj Hcs. apply lookup_update in Hj.
      destruct Hj as [[-> ->] | [Hne Hj]]; [exact Hlock | eauto].
    + intros j Hj. rewrite Hlock in Hj. injection Hj as <-.
      exists Notified. split; [apply list_lookup_insert_eq, Hk | reflexivity].
    + intros j old Hj. apply lookup_update in Hj.
      destruct Hj as [[_ Hj] | [_ Hj]]; [discriminate Hj | eauto].
    + rewrite (pushed_insert_same _ _ _ _ _ Hpc) by reflexivity. exact Hstack.
    + intros j b Hj. apply lookup_update in Hj.
      destruct Hj as [[_ Hj] | [_ Hj]]; [discriminate Hj | eauto].
  - (* Notified *)
    pose proof (Hholder k _ Hpc eq_refl) as Hlock.
    constructor; cbn [pcs mStackLock recorder].
    + rewrite length_insert. exact Hlen.
    + intros j pc Hj Hcs. apply lookup_update in Hj.
      destruct Hj as [[-> ->] | [Hne Hj]]; [discriminate Hcs |].
      specialize (Hholder j _ Hj Hcs). rewrite Hlock in Hholder.
      injection Hholder as ->. contradiction.
    + intros j Hj. discriminate Hj.
    + intros j old Hj. apply lookup_update in Hj.
      destruct Hj as [[_ Hj] | [_ Hj]]; [discriminate Hj | eauto].
    + rewrite (pushed_insert_same _ _ _ _ _ Hpc) by reflexivity. exact Hstack.
    + intros j b Hj. apply lookup_update in Hj.
      destruct Hj as [[_ Hj] | [_ Hj]]; [injection Hj as ->; reflexivity | eauto].
  - (* Returned *)
    constructor; assumption.
Qed.

Lemma run_Inv (calls : list errorPair) (schedule : list nat) (s : State) :
  Inv calls s -> Inv calls (run calls schedule s).
Proof.
  revert s. induction schedule as [| k schedule IH]; intros s HI; [exact HI |].
  apply IH, step_Inv, HI.
Qed.

Lemma init_Inv (r : ONNXParserErrorRecorder) (calls : list errorPair) :
  mErrorStack r = [] -> Inv calls (init r calls).
Proof.
  intros Hempty. unfold init.
  assert (Hstart : forall k pc, repeat Start (length calls) !! k = Some pc -> pc = Start).
  { intros k pc Hk. apply list_elem_of_lookup_2, list_elem_of_In in Hk.
    apply repeat_spec in Hk. exact Hk. }
  constructor; cbn [pcs mStackLock recorder].
  - apply repeat_length.
  - intros k pc Hk Hcs. apply Hstart in Hk. subst. discriminate Hcs.
  - intros k Hk. discriminate Hk.
  - intros k old Hk. apply Hstart in Hk. discriminate Hk.
  - rewrite Hempty. clear. induction calls as [| c calls IH]; [reflexivity |].
    cbn [length repeat]. rewrite pushed_cons. exact IH.
  - intros k b Hk. apply Hstart in Hk. discriminate Hk.
Qed.

Lemma results_all (l : list Pc) :
  forallb returned l = true ->
  Forall (fun pc => forall b, pc = Returned b -> b = true) l ->
  omap (fun pc => match pc with Returned b => Some b | _ => None end) l
  = repeat true (length l).
Proof.
  induction l as [| p l IH]; intros Hall Hres; [reflexivity |].
  cbn [forallb] in Hall. apply andb_true_iff in Hall. destruct Hall as [Hp Hall].
  inversion Hres as [| ? ? Hb Hres']; subst.
  destruct p as [| | | | | b]; try discriminate Hp.
  cbn. rewrite (Hb b eq_refl). f_equal. apply IH; assumption.
Qed.

Lemma to_int32_small (x : Z) : (0 <= x < 2 ^ 31)%Z -> to_int32 x = x.
Proof. intros H. unfold to_int32. rewrite Z.mod_small; lia. Qed.

(** Reading back every index below the size yields the recorded pairs,
    in order. *)
Lemma retrieve_all (r : ONNXParserErrorRecorder) :
  (size r < 2 ^ 31)%Z ->
  map (fun i => (getErrorCode r i, getErrorDesc r i))
    (iota (length (mErrorStack r)))
  = map (fun p => (Some (fst p), Some (snd p))) (mErrorStack r).
Proof.
  intros Hsz. apply list_eq. intros i. unfold iota.
  rewrite !list_lookup_fmap.
  destruct (mErrorStack r !! i) as [p |] eqn:Hp.
  - pose proof (lookup_lt_Some _ _ _ Hp) as Hi.
    rewrite lookup_seq_lt by exact Hi. cbn [fmap option_fmap option_map].
    assert (Hchk : invalidIndexCheck r (Z.of_nat (0 + i)) = false).
    { destruct (invalidIndexCheck r (Z.of_nat (0 + i))) eqn:E; [| reflexivity].
      apply invalidIndexCheck_spec in E; unfold size, vector_max_size in *; lia. }
    unfold getErrorCode, getErrorDesc, index. rewrite Hchk.
    rewrite to_size_t_nonneg by (unfold size in Hsz; lia).
    rewrite Nat2Z.id. cbn [plus]. rewrite Hp. reflexivity.
  - rewrite lookup_seq_ge by (apply lookup_ge_None in Hp; exact Hp).
    reflexivity.
Qed.

Lemma finished_state (calls : list errorPair) (s : State) :
  (Z.of_nat (length calls) < 2 ^ 31)%Z ->
  Inv calls s -> all_returned s = true ->
  getNbErrors (recorder s) = Z.of_nat (length calls)
  /\ mErrorStack (recorder s) ≡ₚ calls
  /\ map (fun i => (getErrorCode (recorder s) i, getErrorDesc (recorder s) i))
       (iota (length calls))
     ≡ₚ map (fun p => (Some (fst p), Some (snd p))) calls
  /\ results s = repeat true (length calls).
Proof.
  intros HN HI Hall. destruct HI as [Hlen _ _ _ Hstack Hres].
  unfold all_returned in Hall.
  rewrite (pushed_all _ _ Hlen Hall) in Hstack.
  pose proof (Permutation_length Hstack) as Hsize.
  split; [| split; [exact Hstack | split]].
  - unfold getNbErrors, size. rewrite Hsize. apply to_int32_small. lia.
  - rewrite <- Hsize.
    rewrite retrieve_all by (unfold size; lia).
    apply Permutation_map, Hstack.
  - unfold results. rewrite <- Hlen. apply results_all; [exact Hall |].
    apply Forall_lookup_2. intros k pc Hk b ->. exact (Hres k b Hk).
Qed.

Lemma run_app (calls : list errorPair) (l1 l2 : list nat) (s : State) :
  run calls (l1 ++ l2) s = run calls l2 (run calls l1 s).
Proof. unfold run. apply fold_left_app. Qed.

Lemma step_turn (calls : list errorPair) (k : nat) (s : State) (pc : Pc)
  (call : errorPair) :
  pcs s !! k = Some pc -> calls !! k = Some call ->
  step calls k s = put k (turn k call (recorder s, mStackLock s, pc)) s.
Proof.
  intros Hpc Hcall. unfold step, turn, put. rewrite Hpc, Hcall. cbn [fst snd].
  destruct (thread_step k call (recorder s) (mStackLock s) pc)
    as [[[r l] pc'] |]; cbn [fst snd]; [reflexivity |].
  rewrite (list_insert_id _ _ _ Hpc). destruct s; reflexivity.
Qed.

Lemma run_turns (calls : list errorPair) (k n : nat) (s : State) (pc : Pc)
  (call : errorPair) :
  pcs s !! k = Some pc -> calls !! k = Some call ->
  run calls (repeat k n) s
  = put k (Nat.iter n (turn k call) (recorder s, mStackLock s, pc)) s.
Proof.
  revert s pc. induction n as [| n IH]; intros s pc Hpc Hcall.
  - cbn. unfold put. cbn [fst snd]. rewrite (list_insert_id _ _ _ Hpc).
    destruct s; reflexivity.
  - cbn [repeat]. change (run calls (k :: repeat k n) s)
      with (run calls (repeat k n) (step calls k s)).
    rewrite (step_turn calls k s pc call Hpc Hcall).
    rewrite Nat.iter_succ_r.
    destruct (turn k call (recorder s, mStackLock s, pc)) as [[r1 l1] pc1].
    rewrite (IH (put k (r1, l1, pc1) s) pc1).
    + unfold put. cbn [fst snd pcs recorder mStackLock].
      rewrite list_insert_insert_eq. reflexivity.
    + unfold put. cbn [pcs snd]. apply list_lookup_insert_eq.
      apply lookup_lt_Some in Hpc. exact Hpc.
    + exact Hcall.
Qed.

Lemma turns_from_start (k : nat) (call : errorPair) (r : ONNXParserErrorRecorder) :
  exists r', Nat.iter 5 (turn k call) (r, None, Start) = (r', None, Returned true).
Proof. eexists. reflexivity. Qed.

Lemma turns_from_cs (k : nat) (call : errorPair) (r : ONNXParserErrorRecorder)
  (l : option nat) (pc : Pc) :
  in_cs pc = true ->
  exists r', Nat.iter 4 (turn k call) (r, l, pc) = (r', None, Returned true).
Proof. destruct pc; intros H; try discriminate H; eexists; reflexivity. Qed.

Lemma turns_returned (k n : nat) (call : errorPair)
  (r : ONNXParserErrorRecorder) (l : option nat) (b : bool) :
  Nat.iter n (turn k call) (r, l, Returned b) = (r, l, Returned b).
Proof.
  induction n as [| n IH]; [reflexivity |].
  rewrite Nat.iter_succ, IH. reflexivity.
Qed.

Lemma not_in_cs (pc : Pc) :
  in_cs pc = false -> pc = Start \/ exists b, pc = Returned b.
Proof. destruct pc; intros H; try discriminate H; eauto. Qed.

(** With the lock free and nobody inside, five turns take a thread from
    the start of its call to its return, and leave the others alone. *)
Lemma quiet_thread (calls : list errorPair) (k : nat) (s : State) :
  quiet calls s -> k < length calls ->
  quiet calls (run calls (repeat k 5) s)
  /\ (exists b, pcs (run calls (repeat k 5) s) !! k = Some (Returned b))
  /\ forall j b, pcs s !! j = Some (Returned b) ->
       exists b', pcs (run calls (repeat k 5) s) !! j = Some (Returned b').
Proof.
  intros (Hlock & Hlen & Hout) Hk.
  destruct (lookup_lt_is_Some_2 (pcs s) k) as [pc Hpc]; [lia |].
  destruct (lookup_lt_is_Some_2 calls k) as [call Hcall]; [lia |].
  rewrite (run_turns calls k 5 s pc call Hpc Hcall).
  pose proof (Forall_lookup_1 _ _ _ _ Hout Hpc) as Hpcout.
  destruct (not_in_cs pc Hpcout) as [-> | [b ->]].
  - rewrite Hlock. destruct (turns_from_start k call (recorder s)) as [r' ->].
    unfold put, quiet. cbn [fst snd pcs mStackLock]. split; [| split].
    + split; [reflexivity |]. split; [rewrite length_insert; exact Hlen |].
      apply Forall_insert; [exact Hout | reflexivity].
    + exists true. apply list_lookup_insert_eq. lia.
    + intros j b Hj. destruct (decide (k = j)) as [-> | Hne].
      * rewrite Hpc in Hj. discriminate Hj.
      * exists b. rewrite list_lookup_insert_ne by exact Hne. exact Hj.
  - rewrite turns_returned. unfold put. cbn [fst snd pcs].
    rewrite (list_insert_id _ _ _ Hpc). split; [| split].
    + split; [exact Hlock | split; [exact Hlen | exact Hout]].
    + exists b. exact Hpc.
    + intros j b' Hj. exists b'. exact Hj.
Qed.

Lemma quiet_threads (calls : list errorPair) (ks : list nat) (s : State) :
  quiet calls s -> Forall (fun k => k < length calls) ks ->
  quiet calls (run calls (flat_map (fun k => repeat k 5) ks) s)
  /\ (forall j b, pcs s !! j = Some (Returned b) ->
        exists b', pcs (run calls (flat_map (fun k => repeat k 5) ks) s) !! j
                   = Some (Returned b'))
  /\ Forall (fun k => exists b,
               pcs (run calls (flat_map (fun k => repeat k 5) ks) s) !! k
               = Some (Returned b)) ks.
Proof.
  revert s. induction ks as [| k ks IH]; intros s Hq Hks.
  - cbn. split; [exact Hq |]. split; [eauto | constructor].
  - inversion Hks as [| ? ? Hk Hks']; subst.
    cbn [flat_map]. rewrite run_app.
    destruct (quiet_thread calls k s Hq Hk) as (Hq1 & Hk1 & Hkeep1).
    destruct (IH _ Hq1 Hks') as (Hq2 & Hkeep2 & Hall2).
    split; [exact Hq2 |]. split.
    + intros j b Hj. destruct (Hkeep1 j b Hj) as [b' Hj']. eauto.
    + constructor; [| exact Hall2].
      destruct Hk1 as [b Hb]. eauto.
Qed.

Lemma quiet_finishes (calls : list errorPair) (s : State) :
  quiet calls s ->
  all_returned (run calls (sequential (length calls)) s) = true.
Proof.
  intros Hq. unfold sequential.
  destruct (quiet_threads calls (seq 0 (length calls)) s Hq) as ((_ & Hlen & _) & _ & Hall).
  { apply List.Forall_forall. intros k Hk. apply in_seq in Hk. lia. }
  unfold all_returned. apply forallb_forall. intros pc Hpc.
  apply list_elem_of_In, list_elem_of_lookup_1 in Hpc. destruct Hpc as [j Hj].
  pose proof (lookup_lt_Some _ _ _ Hj) as Hlt.
  rewrite List.Forall_forall in Hall.
  destruct (Hall j) as [b Hb]; [apply in_seq; lia |].
  rewrite Hj in Hb. injection Hb as ->. reflexivity.
Qed.

Lemma holder_finishes (calls : list errorPair) (s : State) (k : nat) :
  Inv calls s -> mStackLock s = Some k ->
  quiet calls (run calls (repeat k 4) s).
Proof.
  intros [Hlen Hholder Hlocked _ _ _] Hlock.
  destruct (Hlocked k Hlock) as (pc & Hpc & Hcs).
  pose proof (lookup_lt_Some _ _ _ Hpc) as Hk.
  destruct (lookup_lt_is_Some_2 calls k) as [call Hcall]; [lia |].
  rewrite (run_turns calls k 4 s pc call Hpc Hcall).
  destruct (turns_from_cs k call (recorder s) (mStackLock s) pc Hcs) as [r' ->].
  unfold put, quiet. cbn [fst snd pcs mStackLock]. split; [reflexivity |].
  split; [rewrite length_insert; exact Hlen |].
  apply Forall_lookup_2. intros j pcj Hj.
  apply lookup_update in Hj. destruct Hj as [[-> ->] | [Hne Hj]]; [reflexivity |].
  destruct (in_cs pcj) eqn:Hcsj; [| reflexivity].
  specialize (Hholder j pcj Hj Hcsj). rewrite Hlock in Hholder.
  injection Hholder as ->. contradiction.
Qed.

Lemma unlocked_quiet (calls : list errorPair) (s : State) :
  Inv calls s -> mStackLock s = None -> quiet calls s.
Proof.
  intros [Hlen Hholder _ _ _ _] Hlock. split; [exact Hlock |].
  split; [exact Hlen |]. apply Forall_lookup_2. intros j pc Hj.
  destruct (in_cs pc) eqn:Hcs; [| reflexivity].
  specialize (Hholder j pc Hj Hcs). rewrite Hlock in Hholder.
  discriminate Hholder.
Qed.

Lemma finish_returns (calls : list errorPair) (s : State) :
  Inv calls s -> all_returned (run calls (finish calls s) s) = true.
Proof.
  intros HI. unfold finish. rewrite run_app.
  apply quiet_finishes.
  destruct (mStackLock s) as [k |] eqn:Hlock.
  - apply holder_finishes; assumption.
  - apply unlocked_quiet; assumption.
Qed.

(** C10.  [reportError] called once by each of N threads, under any
    schedule: whenever all calls have returned, [getNbErrors] is N, the
    recorded pairs are the reported pairs in some order (none lost, none
    twice), reading the indices below N gives them back, and every call
    has returned [true]; and from wherever the schedule stops the calls
    can all run to their return. *)
Theorem concurrent_reportError (r0 : ONNXParserErrorRecorder)
  (calls : list errorPair) (schedule : list nat) :
  mErrorStack r0 = [] ->
  (Z.of_nat (length calls) < 2 ^ 31)%Z ->
  (all_returned (run calls schedule (init r0 calls)) = true ->
   getNbErrors (recorder (run calls schedule (init r0 calls)))
   = Z.of_nat (length calls)
   /\ mErrorStack (recorder (run calls schedule (init r0 calls))) ≡ₚ calls
   /\ map (fun i =>
            (getErrorCode (recorder (run calls schedule (init r0 calls))) i,
             getErrorDesc (recorder (run calls schedule (init r0 calls))) i))
        (iota (length calls))
      ≡ₚ map (fun p => (Some (fst p), Some (snd p))) calls
   /\ results (run calls schedule (init r0 calls)) = repeat true (length calls))
  /\ all_returned
       (run calls
          (schedule ++ finish calls (run calls schedule (init r0 calls)))
          (init r0 calls)) = true.
Proof.
  intros Hempty HN.
  pose proof (run_Inv calls schedule _ (init_Inv r0 calls Hempty)) as HI.
  split.
  - intros Hall. apply finished_state; assumption.
  - rewrite run_app. apply finish_returns, HI.
Qed.

Lemma concurrent_reportError_witness :
  getNbErrors (recorder (run three_calls interleaved
                           (init fresh_recorder three_calls)))
  = Z.of_nat (length three_calls)
  /\ mErrorStack (recorder (run three_calls interleaved
                              (init fresh_recorder three_calls)))
     ≡ₚ three_calls
  /\ map (fun i =>
           (getErrorCode (recorder (run three_calls interleaved
                                      (init fresh_recorder three_calls))) i,
            getErrorDesc (recorder (run three_calls interleaved
                                      (init fresh_recorder three_calls))) i))
       (iota (length three_calls))
     ≡ₚ map (fun p => (Some (fst p), Some (snd p))) three_calls
  /\ results (run three_calls interleaved (init fresh_recorder three_calls))
     = repeat true (length three_calls).
Proof.
  destruct (concurrent_reportError fresh_recorder three_calls interleaved)
    as [Hdone _].
  - reflexivity.
  - vm_compute. reflexivity.
  - apply Hdone. vm_compute. reflexivity.
Defined.

(** The interleaving of the example, evaluated: thread 1 wins the lock,
    then thread 2, then thread 0, and the vector holds their pairs in
    that order. *)
Example interleaved_stack :
  mErrorStack (recorder (run three_calls interleaved
                           (init fresh_recorder three_calls)))
  = [(kINVALID_STATE, "b"); (kFAILED_EXECUTION, "c"); (kINTERNAL_ERROR, "a")]%string
  /\ mStackLock (run three_calls interleaved (init fresh_recorder three_calls))
     = None.
Proof. vm_compute. split; reflexivity. Qed.

(** One thread alone goes through [reportError] as the sequential
    definition says. *)
Lemma single_thread_reportError (r : ONNXParserErrorRecorder)
  (val : ErrorCode) (desc : string) :
  run [(val, desc)] (sequential 1) (init r [(val, desc)])
  = mkState (snd (reportError r val desc)) None
      [Returned (fst (reportError r val desc))].
Proof. reflexivity. Qed.

End ThreadFacts.

(** * Properties of the further code *)

(** ** Extents, ranges and volumes *)

Module DimsFacts.

Lemma range_nil (lo hi : Z) : hi <= lo -> range lo hi = [].
Proof.
  intros H. unfold range. replace (Z.to_nat (hi - lo)) with 0%nat by lia.
  reflexivity.
Qed.

Lemma range_snoc (lo hi : Z) : lo <= hi -> range lo (hi + 1) = range lo hi ++ [hi].
Proof.
  intros H. unfold range.
  replace (Z.to_nat (hi + 1 - lo)) with (S (Z.to_nat (hi - lo))) by lia.
  rewrite seq_S, map_app. cbn. f_equal. f_equal. lia.
Qed.

Lemma range_cons (lo hi : Z) : lo < hi -> range lo hi = lo :: range (lo + 1) hi.
Proof.
  intros H. unfold range.
  replace (Z.to_nat (hi - lo)) with (S (Z.to_nat (hi - (lo + 1)))) by lia.
  cbn [seq map]. f_equal; [lia |].
  rewrite <- seq_shift, map_map. apply map_ext. intros k. lia.
Qed.

Lemma dim_nat (d : Dims) (i : nat) : dim d (Z.of_nat i) = nth i d 0.
Proof.
  unfold dim. destruct (Z.ltb_spec (Z.of_nat i) 0); [lia |].
  now rewrite Nat2Z.id.
Qed.

Lemma set_dim_nat (d : Dims) (i : nat) (v : Z) :
  set_dim d (Z.of_nat i) v = <[i := v]> d.
Proof.
  unfold set_dim. destruct (Z.ltb_spec (Z.of_nat i) 0); [lia |].
  now rewrite Nat2Z.id.
Qed.

Lemma dim_set_dim_eq (d : Dims) (i v : Z) :
  0 <= i < nbDims d -> dim (set_dim d i v) i = v.
Proof.
  intros H. unfold dim, set_dim, nbDims in *.
  destruct (Z.ltb_spec i 0); [lia |].
  apply nth_lookup_Some. apply list_lookup_insert_eq. lia.
Qed.

Lemma dim_set_dim_other (d : Dims) (i j v : Z) :
  i <> j -> dim (set_dim d i v) j = dim d j.
Proof.
  intros Hne. unfold dim, set_dim.
  destruct (Z.ltb_spec i 0); [reflexivity |].
  destruct (Z.ltb_spec j 0); [reflexivity |].
  rewrite !nth_lookup. rewrite list_lookup_insert_ne by lia. reflexivity.
Qed.

Lemma nbDims_set_dim (d : Dims) (i v : Z) : nbDims (set_dim d i v) = nbDims d.
Proof.
  unfold nbDims, set_dim. destruct (i <? 0); [reflexivity |].
  now rewrite length_insert.
Qed.

Lemma volume_app (a b : Dims) : volume (a ++ b) = volume a * volume b.
Proof.
  unfold volume. induction a as [| x a IH]; cbn [app fold_right]; [lia |].
  rewrite IH. lia.
Qed.

Lemma volume_ones (n : nat) : volume (repeat 1 n) = 1.
Proof. unfold volume. induction n as [| n IH]; cbn; [reflexivity | rewrite IH; lia]. Qed.

Lemma volume_take_drop (d : Dims) (n : nat) :
  volume (take n d) * volume (drop n d) = volume d.
Proof. rewrite <- volume_app, take_drop. reflexivity. Qed.

Lemma wrap32_small (x : Z) : - 2 ^ 31 <= x < 2 ^ 31 -> wrap32 x = x.
Proof. intros H. unfold wrap32. rewrite Z.mod_small; lia. Qed.

Lemma volume_pos (d : Dims) : Forall (fun x => 0 < x) d -> 0 < volume d.
Proof.
  unfold volume. induction 1 as [| x d Hx _ IH]; cbn [fold_right]; lia.
Qed.

(** Among positive extents, the product of some of them is at most the
    product of all. *)
Lemma volume_take_le (d : Dims) (n : nat) :
  Forall (fun x => 0 < x) d -> volume (take n d) <= volume d.
Proof.
  intros H. rewrite <- (volume_take_drop d n).
  pose proof (volume_pos _ (Forall_take _ n _ H)).
  pose proof (volume_pos _ (Forall_drop _ n _ H)). nia.
Qed.

Lemma volume_drop_le (d : Dims) (n : nat) :
  Forall (fun x => 0 < x) d -> volume (drop n d) <= volume d.
Proof.
  intros H. rewrite <- (volume_take_drop d n).
  pose proof (volume_pos _ (Forall_take _ n _ H)).
  pose proof (volume_pos _ (Forall_drop _ n _ H)). nia.
Qed.

(** The product accumulated by [for (i = lo; i < hi; ++i) acc *= d[i]]. *)
Lemma fold_product (d : Dims) (lo hi : nat) (acc : Z) :
  (lo <= hi <= length d)%nat ->
  fold_left (fun acc i => acc * dim d i) (range (Z.of_nat lo) (Z.of_nat hi)) acc
  = acc * volume (take (hi - lo) (drop lo d)).
Proof.
  intros [Hlo Hhi]. induction hi as [| hi IH].
  - replace lo with 0%nat by lia. rewrite range_nil by lia.
    cbn [Nat.sub fold_left]. rewrite take_0. unfold volume. cbn. lia.
  - destruct (Nat.eq_dec lo (S hi)) as [-> | Hne].
    + rewrite range_nil by lia. rewrite Nat.sub_diag, take_0.
      unfold volume. cbn. lia.
    + replace (Z.of_nat (S hi)) with (Z.of_nat hi + 1) by lia.
      rewrite range_snoc by lia. rewrite fold_left_app. cbn [fold_left].
      rewrite IH by lia. rewrite dim_nat.
      replace (S hi - lo)%nat with (S (hi - lo)) by lia.
      destruct (lookup_lt_is_Some_2 d hi ltac:(lia)) as [x Hx].
      rewrite (take_S_r _ _ x) by (rewrite lookup_drop; rewrite <- Hx; f_equal; lia).
      rewrite volume_app. rewrite (nth_lookup_Some _ _ _ _ Hx).
      unfold volume at 3. cbn. lia.
Qed.

(** The same product in [int] arithmetic, when the extents are positive
    and the product fits: no step overflows. *)
Lemma fold_product_int (d : Dims) (lo hi : nat) (acc : Z) :
  (lo <= hi <= length d)%nat ->
  Forall (fun x => 0 < x) d -> 0 < acc ->
  acc * volume (take (hi - lo) (drop lo d)) < 2 ^ 31 ->
  fold_left (fun acc i => wrap32 (acc * dim d i))
    (range (Z.of_nat lo) (Z.of_nat hi)) acc
  = acc * volume (take (hi - lo) (drop lo d)).
Proof.
  intros [Hlo Hhi] Hpos Hacc. induction hi as [| hi IH]; intros Hfit.
  - replace lo with 0%nat by lia. rewrite range_nil by lia.
    cbn [Nat.sub fold_left]. rewrite take_0. unfold volume. cbn. lia.
  - destruct (Nat.eq_dec lo (S hi)) as [-> | Hne].
    + rewrite range_nil by lia. rewrite Nat.sub_diag, take_0.
      unfold volume. cbn. lia.
    + replace (Z.of_nat (S hi)) with (Z.of_nat hi + 1) by lia.
      rewrite range_snoc by lia. rewrite fold_left_app. cbn [fold_left].
      destruct (lookup_lt_is_Some_2 d hi ltac:(lia)) as [x Hx].
      assert (Hx0 : 0 < x).
      { rewrite List.Forall_forall in Hpos. apply Hpos.
        apply list_elem_of_In. eapply list_elem_of_lookup_2. exact Hx. }
      replace (S hi - lo)%nat with (S (hi - lo)) in * by lia.
      rewrite (take_S_r _ _ x) in *
        by (rewrite lookup_drop; rewrite <- Hx; f_equal; lia).
      rewrite volume_app in *.
      replace (volume [x]) with x in * by (unfold volume; cbn; lia).
      pose proof (volume_pos _ (Forall_take _ (hi - lo) _
                                  (Forall_drop _ lo _ Hpos))) as Hv.
      rewrite IH by nia. rewrite dim_nat, (nth_lookup_Some _ _ _ _ Hx).
      rewrite wrap32_small by nia. lia.
Qed.

End DimsFacts.

(** ** Transposed convolution paddings *)

Module DeconvolutionFacts.
Import Deconvolution ImporterFacts DimsFacts.

Section Padding.

Variables input_dims output_shape kernel_size strides dilations : Dims.



End Padding.



End DeconvolutionFacts.

(** ** Flattening *)

Module ShapeOpsFacts.
Import ShapeOps ImporterFacts DimsFacts.

Lemma fold_first (g : Z -> Z -> Z) (l : list Z) (a b : Z) :
  fold_left (fun ns i => set_dim ns 0 (g (dim ns 0) i)) l [a; b]
  = [fold_left g l a; b].
Proof.
  revert a. induction l as [| x l IH]; intros a; [reflexivity |].
  cbn [fold_left]. change (set_dim [a; b] 0 (g (dim [a; b] 0) x)) with [g a x; b].
  apply IH.
Qed.

Lemma fold_second (g : Z -> Z -> Z) (l : list Z) (a b : Z) :
  fold_left (fun ns i => set_dim ns 1 (g (dim ns 1) i)) l [a; b]
  = [a; fold_left g l b].
Proof.
  revert b. induction l as [| x l IH]; intros b; [reflexivity |].
  cbn [fold_left]. change (set_dim [a; b] 1 (g (dim [a; b] 1) x)) with [a; g b x].
  apply IH.
Qed.

Lemma reshape_tensor_run (t : ITensor) (new_shape : Dims) (c : Ctx) :
  reshape_tensor t new_shape c
  = (Ok (mkTensor (LayerOutput (length (network c)) 0) new_shape),
     mkCtx (opset c) (network c ++ [LShuffle t None (Some new_shape)])
       (ceilingPoolFormula c) (tensors c)).
Proof. reflexivity. Qed.

(** The two extents of a tensor brought to two dimensions at [axis],
    for positive extents whose product is an [int]. *)
Lemma two_extents (d : Dims) (axis : Z) :
  0 <= axis <= nbDims d ->
  Forall (fun x => 0 < x) d -> volume d < 2 ^ 31 ->
  fold_left (fun acc i => wrap32 (acc * dim d i)) (range 0 axis) 1
  = volume (take (Z.to_nat axis) d)
  /\ fold_left (fun acc i => wrap32 (acc * dim d i)) (range axis (nbDims d)) 1
     = volume (drop (Z.to_nat axis) d).
Proof.
  intros H Hpos Hfit. unfold nbDims in *.
  pose proof (volume_take_le d (Z.to_nat axis) Hpos) as Ht.
  pose proof (volume_drop_le d (Z.to_nat axis) Hpos) as Hd.
  split.
  - pose proof (fold_product_int d 0 (Z.to_nat axis) 1 ltac:(lia) Hpos
                  ltac:(lia)) as E.
    rewrite Nat.sub_0_r, drop_0 in E.
    rewrite Z2Nat.id in E by lia. change (Z.of_nat 0) with 0 in E.
    rewrite E by lia. lia.
  - pose proof (fold_product_int d (Z.to_nat axis) (length d) 1 ltac:(lia)
                  Hpos ltac:(lia)) as E.
    rewrite (take_ge (drop _ _)) in E by (rewrite length_drop; lia).
    rewrite Z2Nat.id in E by lia. rewrite E by lia. lia.
Qed.

(** X2.  For a tensor of positive extents whose number of elements is
    an [int], [convert_tensor_to_2d] adds one reshape to the two
    extents obtained by multiplying the extents before [axis] and those
    from [axis] on; the number of elements is unchanged. *)
Theorem convert_tensor_to_2d_volume (tensor : ITensor) (axis : Z) (c : Ctx) :
  0 <= axis <= nbDims (t_dims tensor) ->
  Forall (fun d => 0 < d) (t_dims tensor) ->
  volume (t_dims tensor) < 2 ^ 31 ->
  exists out c',
    convert_tensor_to_2d tensor axis c = (Ok out, c')
    /\ t_dims out = [volume (take (Z.to_nat axis) (t_dims tensor));
                     volume (drop (Z.to_nat axis) (t_dims tensor))]
    /\ volume (t_dims out) = volume (t_dims tensor)
    /\ network c' = network c ++ [LShuffle tensor None (Some (t_dims out))].
Proof.
  intros H Hpos Hfit. unfold convert_tensor_to_2d. cbv zeta.
  change (makeDims 2 1) with [1; 1].
  rewrite (fold_first (fun acc i => wrap32 (acc * dim (t_dims tensor) i))).
  rewrite (fold_second (fun acc i => wrap32 (acc * dim (t_dims tensor) i))).
  destruct (two_extents (t_dims tensor) axis H Hpos Hfit) as [-> ->].
  rewrite reshape_tensor_run. eexists _, _. split; [reflexivity |].
  cbn [t_dims network]. split; [reflexivity |]. split; [| reflexivity].
  rewrite <- (volume_take_drop (t_dims tensor) (Z.to_nat axis)).
  unfold volume at 1. cbn [fold_right]. lia.
Qed.

Lemma convert_tensor_to_2d_volume_witness :
  exists out c',
    convert_tensor_to_2d (mkTensor (NetworkInput "x") [2; 3; 4]) 1
      (Examples.opset_ctx 9) = (Ok out, c')
    /\ t_dims out = [2; 12].
Proof.
  destruct (convert_tensor_to_2d_volume (mkTensor (NetworkInput "x") [2; 3; 4]) 1
              (Examples.opset_ctx 9)) as (out & c' & Hrun & Hd & _).
  - vm_compute. split; discriminate.
  - repeat constructor.
  - vm_compute. reflexivity.
  - exists out, c'. split; [exact Hrun | exact Hd].
Defined.

(** X3.  [Flatten] of a present operand of positive extents, whose
    number of elements is an [int], at an axis within its rank returns
    a tensor of two extents, the products of the operand's extents
    before the axis and from the axis on, with as many elements as the
    operand. *)
Theorem importFlatten_volume (node : NodeProto) (inputs : list TensorOrWeights)
  (in0 : TensorOrWeights) (dims : Dims) (axis : Z) (c : Ctx) :
  inputs !! 0%nat = Some in0 ->
  shape in0 = Ok dims ->
  attrs_get_int_default (OnnxAttrs node) "axis" 1 = Ok axis ->
  0 <= axis <= nbDims dims ->
  Forall (fun d => 0 < d) dims ->
  volume dims < 2 ^ 31 ->
  exists out c',
    importFlatten node inputs c = (Ok [Tensor out], c')
    /\ t_dims out = [volume (take (Z.to_nat axis) dims);
                     volume (drop (Z.to_nat axis) dims)]
    /\ volume (t_dims out) = volume dims.
Proof.
  intros Hin Hshape Haxis H Hpos Hfit. unfold importFlatten.
  rewrite Haxis, bind_lift_Ok.
  assert (Hat : vec_at inputs 0 = Ok in0).
  { unfold vec_at. cbn. change (Z.to_nat 0) with 0%nat. now rewrite Hin. }
  rewrite Hat, bind_lift_Ok, Hshape, bind_lift_Ok.
  destruct (two_extents dims axis H Hpos Hfit) as [-> ->].
  assert (Hconv : exists t c1, convertToTensor in0 c = (Ok t, c1)).
  { destruct in0 as [t | w |]; [eexists _, _; reflexivity
                               | eexists _, _; reflexivity | discriminate]. }
  destruct Hconv as (t & c1 & Hconv).
  rewrite (bind_step _ _ _ _ _ Hconv).
  rewrite (bind_step _ _ _ _ _ (reshape_tensor_run _ _ _)).
  eexists _, _. split; [reflexivity |]. cbn [t_dims]. split; [reflexivity |].
  rewrite <- (volume_take_drop dims (Z.to_nat axis)).
  unfold volume at 1. cbn [fold_right]. lia.
Qed.

Lemma importFlatten_volume_witness :
  exists out c',
    importFlatten (mkNode "Flatten" ["x"] ["y"] [])
      [Examples.input_tensor "x" [2; 3; 4]] (Examples.opset_ctx 9)
    = (Ok [Tensor out], c')
    /\ t_dims out = [volume (take (Z.to_nat 1) [2; 3; 4]);
                     volume (drop (Z.to_nat 1) [2; 3; 4])]
    /\ volume (t_dims out) = volume [2; 3; 4].
Proof.
  apply (importFlatten_volume (mkNode "Flatten" ["x"] ["y"] [])
           [Examples.input_tensor "x" [2; 3; 4]]
           (Examples.input_tensor "x" [2; 3; 4]) [2; 3; 4] 1
           (Examples.opset_ctx 9)).
  - reflexivity.
  - reflexivity.
  - reflexivity.
  - unfold nbDims. cbn. lia.
  - repeat constructor.
  - vm_compute. reflexivity.
Defined.

(** In [int] arithmetic an extent of 65536 twice gives the product 0:
    the hypothesis on the number of elements is needed. *)
Example importFlatten_overflow :
  fst (importFlatten (mkNode "Flatten" ["x"] ["y"] [("axis"%string, A_int 0)])
         [Examples.input_tensor "x" [65536; 65536]] (Examples.opset_ctx 9))
  = Ok [Tensor (mkTensor (LayerOutput 0 0) [1; 0])].
Proof. vm_compute. reflexivity. Qed.

Lemma insert_middle {A} (l1 l2 : list A) (x v : A) :
  <[length l1 := v]> (l1 ++ x :: l2) = l1 ++ v :: l2.
Proof.
  induction l1 as [| a l1 IH]; [reflexivity |].
  change (a :: <[length l1 := v]> (l1 ++ x :: l2) = a :: (l1 ++ v :: l2)).
  now rewrite IH.
Qed.

Lemma flatten_loop (shape : Dims) (axis k : nat) :
  (axis < k <= length shape)%nat ->
  Forall (fun x => 0 < x) shape -> volume shape < 2 ^ 31 ->
  fold_left
    (fun ns i =>
       set_dim (set_dim ns (Z.of_nat axis)
                  (wrap32 (dim ns (Z.of_nat axis) * dim shape i))) i 1)
    (range (Z.of_nat axis + 1) (Z.of_nat k)) shape
  = take axis shape
    ++ [volume (take (k - axis) (drop axis shape))]
    ++ repeat 1 (k - axis - 1) ++ drop k shape.
Proof.
  intros [Hlt Hle] Hpos Hfit. induction k as [| k IH]; [lia |].
  destruct (lookup_lt_is_Some_2 shape axis ltac:(lia)) as [x Hx].
  destruct (Nat.eq_dec k axis) as [-> | Hne].
  - rewrite range_nil by lia. cbn [fold_left].
    replace (S axis - axis)%nat with 1%nat by lia.
    replace (S axis - axis - 1)%nat with 0%nat by lia.
    rewrite (take_S_r _ _ x) by (rewrite lookup_drop; rewrite <- Hx; f_equal; lia).
    rewrite take_0. cbn [app repeat]. unfold volume. cbn [fold_right].
    rewrite Z.mul_1_r. symmetry. apply take_drop_middle. exact Hx.
  - replace (Z.of_nat (S k)) with (Z.of_nat k + 1) by lia.
    rewrite range_snoc by lia. rewrite fold_left_app. cbn [fold_left].
    rewrite IH by lia. clear IH.
    destruct (lookup_lt_is_Some_2 shape k ltac:(lia)) as [y Hy].
    set (P := volume (take (k - axis) (drop axis shape))).
    assert (HP : volume (take (S (k - axis)) (drop axis shape)) = P * y).
    { rewrite (take_S_r _ _ y) by (rewrite lookup_drop; rewrite <- Hy; f_equal; lia).
      rewrite volume_app. unfold volume at 2. cbn [fold_right]. subst P. lia. }
    assert (Hin : 0 < P * y < 2 ^ 31).
    { rewrite <- HP.
      pose proof (volume_pos _ (Forall_take _ (S (k - axis)) _
                                  (Forall_drop _ axis _ Hpos))).
      pose proof (volume_take_le (drop axis shape) (S (k - axis))
                    (Forall_drop _ axis _ Hpos)).
      pose proof (volume_drop_le shape axis Hpos). lia. }
    assert (Hlen : length (take axis shape) = axis) by (rewrite length_take; lia).
    rewrite !dim_nat, !set_dim_nat.
    rewrite (nth_lookup_Some _ _ _ _ Hy).
    rewrite app_nth2 by lia. rewrite Hlen, Nat.sub_diag. cbn [app nth].
    rewrite (wrap32_small (P * y)) by lia.
    pose proof (insert_middle (take axis shape)
                  (repeat 1 (k - axis - 1) ++ drop k shape) P (P * y)) as E1.
    rewrite Hlen in E1. rewrite E1. clear E1.
    rewrite (drop_S _ _ _ Hy).
    replace (take axis shape ++ P * y :: repeat 1 (k - axis - 1) ++ y :: drop (S k) shape)
      with ((take axis shape ++ P * y :: repeat 1 (k - axis - 1)) ++ y :: drop (S k) shape)
      by (rewrite <- app_assoc; reflexivity).
    replace k with (length (take axis shape ++ P * y :: repeat 1 (k - axis - 1))) at 1
      by (rewrite length_app, Hlen; cbn [length]; rewrite repeat_length; lia).
    rewrite insert_middle. rewrite <- app_assoc. cbn [app]. f_equal. f_equal.
    + replace (S k - axis)%nat with (S (k - axis)) by lia. symmetry. exact HP.
    + replace (S k - axis - 1)%nat with (S (k - axis - 1)) by lia.
      cbn [repeat]. rewrite repeat_cons. rewrite <- app_assoc. reflexivity.
Qed.

(** X4.  For a tensor of positive extents whose number of elements is
    an [int], [flatten_tensor] adds one reshape that keeps the extents
    before [axis], puts the product of the other extents at [axis] and
    1 after it: the rank and the number of elements are unchanged. *)
Theorem flatten_tensor_volume (tensor : ITensor) (axis : Z) (c : Ctx) :
  0 <= axis < nbDims (t_dims tensor) ->
  Forall (fun d => 0 < d) (t_dims tensor) ->
  volume (t_dims tensor) < 2 ^ 31 ->
  exists out c',
    flatten_tensor tensor axis c = (Ok out, c')
    /\ t_dims out
       = take (Z.to_nat axis) (t_dims tensor)
         ++ [volume (drop (Z.to_nat axis) (t_dims tensor))]
         ++ repeat 1 (length (t_dims tensor) - Z.to_nat axis - 1)
    /\ nbDims (t_dims out) = nbDims (t_dims tensor)
    /\ volume (t_dims out) = volume (t_dims tensor)
    /\ network c' = network c ++ [LShuffle tensor None (Some (t_dims out))].
Proof.
  intros H Hpos Hfit. unfold flatten_tensor. cbv zeta. unfold nbDims in *.
  pose proof (flatten_loop (t_dims tensor) (Z.to_nat axis)
                (length (t_dims tensor)) ltac:(lia) Hpos Hfit) as E.
  rewrite Z2Nat.id in E by lia. rewrite E. clear E.
  rewrite drop_all, app_nil_r.
  rewrite (take_ge (drop _ _)) by (rewrite length_drop; lia).
  rewrite reshape_tensor_run. eexists _, _. split; [reflexivity |].
  cbn [t_dims network]. split; [reflexivity |]. split; [| split; [| reflexivity]].
  - rewrite !length_app, length_take, repeat_length. cbn [length]. lia.
  - rewrite !volume_app, volume_ones.
    rewrite <- (volume_take_drop (t_dims tensor) (Z.to_nat axis)).
    unfold volume at 2. cbn [fold_right]. lia.
Qed.

Lemma flatten_tensor_volume_witness :
  exists out c',
    flatten_tensor (mkTensor (NetworkInput "x") [2; 3; 4]) 1
      (Examples.opset_ctx 9) = (Ok out, c')
    /\ t_dims out = [2; 12; 1].
Proof.
  destruct (flatten_tensor_volume (mkTensor (NetworkInput "x") [2; 3; 4]) 1
              (Examples.opset_ctx 9)) as (out & c' & Hrun & Hd & _).
  - vm_compute. split; [discriminate | reflexivity].
  - repeat constructor.
  - vm_compute. reflexivity.
  - exists out, c'. split; [exact Hrun | exact Hd].
Defined.

End ShapeOpsFacts.

(** ** [DepthToSpace] *)

Module DepthToSpaceFacts.
Import DepthToSpace ImporterFacts DimsFacts.

(** X5.  [DepthToSpace] on static extents [n, c, h, w] with a positive
    block size [b] that divides the channel extent twice, the extents
    [h*b] and [w*b] being [int]s: the shuffle layer splits the channels
    into [b, b, c/b/b], moves the two factors [b] behind the spatial
    extents, and the final reshape merges them, giving
    [n, c/(b*b), h*b, w*b], with as many elements as the operand.  When
    [b] does not divide the channel extent twice, the importer fails
    with [kINVALID_NODE]. *)
Theorem depth_to_space_extents (node : NodeProto) (n ch h w b : Z) (c : Ctx) :
  attrs_get_int (OnnxAttrs node) "blocksize"%string = Ok b ->
  0 < b ->
  0 <= n -> 0 <= ch -> 0 <= h -> 0 <= w ->
  h * b < 2 ^ 31 -> w * b < 2 ^ 31 ->
  (Z.rem ch b = 0 -> Z.rem (ch ÷ b) b = 0 ->
   depth_to_space_shapes node [n; ch; h; w] c
   = (Ok ([n; b; b; ch ÷ b ÷ b; h; w], [0; 3; 4; 1; 5; 2],
          [n; ch ÷ b ÷ b; h * b; w * b]), c)
   /\ volume [n; ch ÷ b ÷ b; h * b; w * b] = volume [n; ch; h; w])
  /\ (Z.rem ch b <> 0 \/ Z.rem (ch ÷ b) b <> 0 ->
      depth_to_space_shapes node [n; ch; h; w] c
      = (Err (Status kINVALID_NODE), c)).
Proof.
  intros Hattr Hpos Hn Hch Hh Hw Hhb Hwb.
  assert (Hb : b <> 0) by lia.
  assert (Hloop : forM (range 1 3) (split_channels [n; ch; h; w] 2 b)
                    [n; 0; 0; ch; 0; 0] c
                  = if Z.rem ch b =? 0
                    then if Z.rem (ch ÷ b) b =? 0
                         then (Ok [n; b; b; ch ÷ b ÷ b; h; w], c)
                         else (Err (Status kINVALID_NODE), c)
                    else (Err (Status kINVALID_NODE), c)).
  { change (range 1 3) with [1; 2]. rewrite forM_cons, bind_run.
    unfold split_channels at 1. rewrite bind_run. unfold ASSERT at 1.
    change (dim [n; 0; 0; ch; 0; 0] (2 + 1)) with ch.
    destruct (Z.rem ch b =? 0); [| reflexivity].
    cbn [lift ret]. rewrite forM_one.
    unfold split_channels. rewrite bind_run. unfold ASSERT.
    change (dim (set_dim (set_dim (set_dim [n; 0; 0; ch; 0; 0] (2 + 1) (ch ÷ b)) 1 b)
                   (2 + 1 + 1) (dim [n; ch; h; w] (1 + 1))) (2 + 1))
      with (ch ÷ b).
    destruct (Z.rem (ch ÷ b) b =? 0); reflexivity. }
  assert (Hhead : forall (k : Dims -> M (Dims * Trt.Permutation * Dims)),
            (let* _ := ASSERT (nbDims [n; ch; h; w] =? 4) kUNSUPPORTED_NODE in
             let* block_size :=
               lift (attrs_get_int (OnnxAttrs node) "blocksize"%string) in
             let* new_shape1 :=
               forM (range 1 (nbDims [n; ch; h; w] - 2 + 1))
                 (split_channels [n; ch; h; w] (nbDims [n; ch; h; w] - 2)
                    block_size)
                 (set_dim
                    (set_dim
                       (makeDims
                          (nbDims [n; ch; h; w] + (nbDims [n; ch; h; w] - 2)) 0)
                       0 (dim [n; ch; h; w] 0))
                    (nbDims [n; ch; h; w] - 2 + 1) (dim [n; ch; h; w] 1)) in
             k new_shape1) c
            = (let* new_shape1 :=
                 forM (range 1 3) (split_channels [n; ch; h; w] 2 b)
                   [n; 0; 0; ch; 0; 0] in
               k new_shape1) c).
  { intros k. change (nbDims [n; ch; h; w] =? 4) with true.
    rewrite bind_ASSERT_true, Hattr, bind_lift_Ok. reflexivity. }
  split.
  - intros H1 H2. split.
    + unfold depth_to_space_shapes. cbv zeta. rewrite Hhead.
      rewrite (bind_step _ _ _ _ _ (eq_trans Hloop
                 ltac:(rewrite H1, H2; reflexivity))).
      rewrite <- (wrap32_small (h * b)) by lia.
      rewrite <- (wrap32_small (w * b)) by lia.
      reflexivity.
    + unfold volume. cbn [fold_right].
      pose proof (Z.quot_exact ch b Hb) as E1. apply E1 in H1.
      pose proof (Z.quot_exact (ch ÷ b) b Hb) as E2. apply E2 in H2.
      rewrite H1 at 2. rewrite H2 at 2. ring.
  - intros Hor. unfold depth_to_space_shapes. cbv zeta. rewrite Hhead.
    apply (bind_fail _ _ _ _ _). rewrite Hloop.
    destruct (Z.eqb_spec (Z.rem ch b) 0) as [E1 | N1]; [| reflexivity].
    destruct (Z.eqb_spec (Z.rem (ch ÷ b) b) 0) as [E2 | N2]; [| reflexivity].
    destruct Hor; contradiction.
Qed.

Lemma depth_to_space_extents_witness :
  depth_to_space_shapes
    (mkNode "DepthToSpace" ["x"] ["y"] [("blocksize"%string, A_int 2)])
    [1; 8; 3; 5] (Examples.opset_ctx 11)
  = (Ok ([1; 2; 2; 2; 3; 5], [0; 3; 4; 1; 5; 2], [1; 2; 6; 10]),
     Examples.opset_ctx 11)
  /\ volume [1; 2; 6; 10] = volume [1; 8; 3; 5].
Proof.
  apply (depth_to_space_extents
           (mkNode "DepthToSpace" ["x"] ["y"] [("blocksize"%string, A_int 2)])
           1 8 3 5 2 (Examples.opset_ctx 11));
    first [reflexivity | lia].
Defined.

End DepthToSpaceFacts.

(** ** Legacy broadcasting *)

Module BroadcastFacts.
Import ImporterFacts DimsFacts ElementwiseFacts.

Lemma attrs_count_Some (attrs : gmap string AttributeProto) (key : string)
  (a : AttributeProto) :
  attrs !! key = Some a -> attrs_count attrs key = true.
Proof.
  intros H. unfold attrs_count. apply bool_decide_eq_true. rewrite H. eauto.
Qed.

(** What [applyLegacyBinaryOpBroadcasting] does once the flag is read as
    set and the second operand has the lower rank.  [get<int>] narrows
    both attributes. *)
Lemma legacy_broadcast_run (node : NodeProto) (lhs rhs : TensorOrWeights)
  (sl sr : Dims) (flag axis : Z) (c : Ctx) :
  shape lhs = Ok sl -> shape rhs = Ok sr ->
  OnnxAttrs node !! "broadcast"%string = Some (A_int flag) ->
  wrap32 flag <> 0 ->
  OnnxAttrs node !! "axis"%string = Some (A_int axis) ->
  nbDims sr < nbDims sl ->
  let a := if wrap32 axis <? 0 then wrap32 axis + nbDims sl else wrap32 axis in
  let new_shape :=
    repeat 1 (Z.to_nat a) ++ sr ++ repeat 1 (Z.to_nat (nbDims sl - nbDims sr - a)) in
  applyLegacyBinaryOpBroadcasting node lhs rhs c
  = (let* _ := ASSERT (0 <=? nbDims sl - nbDims sr - a) kINVALID_NODE in
     match rhs with
     | Weights w => ret (Weights (mkWeights (w_type w) (w_values w) new_shape))
     | Tensor t => let* t' := reshape_tensor t new_shape in ret (Tensor t')
     | Absent => fail Undefined
     end) c.
Proof.
  intros Hl Hr Hflag Hnz Haxis Hrank a new_shape.
  unfold applyLegacyBinaryOpBroadcasting.
  rewrite Hl, Hr, !bind_lift_Ok.
  rewrite (attrs_count_Some _ _ _ Hflag), (attrs_count_Some _ _ _ Haxis).
  cbn [andb]. cbv iota. unfold attrs_get_int. rewrite Hflag, Haxis.
  rewrite (bind_step _ _ c c true);
    [| rewrite bind_lift_Ok;
       destruct (Z.eqb_spec (wrap32 flag) 0) as [? | _];
       [contradiction | reflexivity]].
  cbn [negb].
  destruct (Z.leb_spec (nbDims sl) (nbDims sr)) as [? | _]; [lia |].
  cbn [orb]. rewrite bind_lift_Ok. reflexivity.
Qed.

(** X6.  With the [broadcast] flag set (read as an [int]),
    [applyLegacyBinaryOpBroadcasting] gives a second operand of lower
    rank the rank of the first: its extents are placed at [axis]
    (counted from the end when negative) with extents of 1 before and
    after, so the elements are the same; a constant keeps its values and
    no layer is added for it, a tensor goes through one reshape.  When
    the operand does not fit at [axis] the call fails with
    [kINVALID_NODE] and nothing is added.  An axis that is still
    negative after the rank has been added is not rejected: the extents
    of 1 are all appended, and the operand ends with a rank above that
    of the first. *)
Theorem legacy_broadcast_aligns (node : NodeProto) (lhs rhs : TensorOrWeights)
  (sl sr : Dims) (flag axis : Z) (c : Ctx) :
  shape lhs = Ok sl -> shape rhs = Ok sr ->
  OnnxAttrs node !! "broadcast"%string = Some (A_int flag) ->
  wrap32 flag <> 0 ->
  OnnxAttrs node !! "axis"%string = Some (A_int axis) ->
  nbDims sr < nbDims sl ->
  let a := if wrap32 axis <? 0 then wrap32 axis + nbDims sl else wrap32 axis in
  let new_shape :=
    repeat 1 (Z.to_nat a) ++ sr ++ repeat 1 (Z.to_nat (nbDims sl - nbDims sr - a)) in
  (0 <= a -> a + nbDims sr <= nbDims sl ->
   exists rhs' c',
     applyLegacyBinaryOpBroadcasting node lhs rhs c = (Ok rhs', c')
     /\ shape rhs' = Ok new_shape
     /\ nbDims new_shape = nbDims sl
     /\ volume new_shape = volume sr
     /\ (forall w, rhs = Weights w ->
           rhs' = Weights (mkWeights (w_type w) (w_values w) new_shape) /\ c' = c)
     /\ (forall t, rhs = Tensor t ->
           network c' = network c ++ [LShuffle t None (Some new_shape)]))
  /\ (nbDims sl < a + nbDims sr ->
      applyLegacyBinaryOpBroadcasting node lhs rhs c
      = (Err (Status kINVALID_NODE), c))
  /\ (a < 0 -> nbDims sl - a <= MAX_DIMS ->
      exists rhs' c',
        applyLegacyBinaryOpBroadcasting node lhs rhs c = (Ok rhs', c')
        /\ shape rhs' = Ok (sr ++ repeat 1 (Z.to_nat (nbDims sl - nbDims sr - a)))
        /\ nbDims (sr ++ repeat 1 (Z.to_nat (nbDims sl - nbDims sr - a)))
           = nbDims sl - a).
Proof.
  intros Hl Hr Hflag Hnz Haxis Hrank a new_shape.
  rewrite (legacy_broadcast_run node lhs rhs sl sr flag axis c
             Hl Hr Hflag Hnz Haxis Hrank).
  fold a. fold new_shape. split; [| split].
  - intros Ha Hfit.
    destruct (Z.leb_spec 0 (nbDims sl - nbDims sr - a)) as [_ | ?]; [| lia].
    rewrite bind_ASSERT_true.
    assert (Hnb : nbDims new_shape = nbDims sl).
    { subst new_shape. unfold nbDims in *.
      rewrite !length_app, !repeat_length. lia. }
    assert (Hvol : volume new_shape = volume sr).
    { subst new_shape. rewrite !volume_app, !volume_ones. lia. }
    destruct rhs as [t | w |]; [| | discriminate Hr].
    + eexists _, _. split; [reflexivity |]. cbn [shape t_dims].
      split; [reflexivity |]. split; [exact Hnb |]. split; [exact Hvol |].
      split; [discriminate |].
      intros t0 E. injection E as <-. reflexivity.
    + eexists _, _. split; [reflexivity |]. cbn [shape w_shape].
      split; [reflexivity |]. split; [exact Hnb |]. split; [exact Hvol |].
      split; [| discriminate].
      intros w0 E. injection E as <-. split; reflexivity.
  - intros Hno.
    destruct (Z.leb_spec 0 (nbDims sl - nbDims sr - a)) as [? | _]; [lia |].
    reflexivity.
  - intros Hneg _.
    destruct (Z.leb_spec 0 (nbDims sl - nbDims sr - a)) as [_ | ?]; [| lia].
    rewrite bind_ASSERT_true.
    assert (Hshape : new_shape
                     = sr ++ repeat 1 (Z.to_nat (nbDims sl - nbDims sr - a))).
    { subst new_shape. replace (Z.to_nat a) with 0%nat by lia. reflexivity. }
    rewrite Hshape.
    assert (Hnb : nbDims (sr ++ repeat 1 (Z.to_nat (nbDims sl - nbDims sr - a)))
                  = nbDims sl - a).
    { unfold nbDims in *. rewrite length_app, repeat_length. lia. }
    destruct rhs as [t | w |]; [| | discriminate Hr].
    + eexists _, _. split; [reflexivity |]. cbn [shape t_dims].
      split; [reflexivity | exact Hnb].
    + eexists _, _. split; [reflexivity |]. cbn [shape w_shape].
      split; [reflexivity | exact Hnb].
Qed.

Lemma legacy_broadcast_aligns_witness :
  exists rhs' c',
    applyLegacyBinaryOpBroadcasting
      (mkNode "Add" ["A"; "B"] ["C"]
         [("axis"%string, A_int 1); ("broadcast"%string, A_int 1)])
      (Examples.input_tensor "A" [2; 3; 4])
      (Weights (Examples.float_matrix [1; 2; 3] [3]))
      (Examples.opset_ctx 6)
    = (Ok rhs', c')
    /\ shape rhs' = Ok [1; 3; 1].
Proof.
  destruct (legacy_broadcast_aligns
              (mkNode "Add" ["A"; "B"] ["C"]
                 [("axis"%string, A_int 1); ("broadcast"%string, A_int 1)])
              (Examples.input_tensor "A" [2; 3; 4])
              (Weights (Examples.float_matrix [1; 2; 3] [3]))
              [2; 3; 4] [3] 1 1 (Examples.opset_ctx 6))
    as [H _].
  - reflexivity.
  - reflexivity.
  - vm_compute. reflexivity.
  - vm_compute. discriminate.
  - vm_compute. reflexivity.
  - unfold nbDims. cbn. lia.
  - destruct H as (rhs' & c' & Hrun & Hshape & _).
    + vm_compute. discriminate.
    + vm_compute. discriminate.
    + exists rhs', c'. split; [exact Hrun | exact Hshape].
Defined.

(** A flag of 2^32 is read as 0: the operand is left as it is. *)
Example legacy_broadcast_flag_narrowed :
  applyLegacyBinaryOpBroadcasting
    (mkNode "Add" ["A"; "B"] ["C"]
       [("axis"%string, A_int 1); ("broadcast"%string, A_int (2 ^ 32))])
    (Examples.input_tensor "A" [2; 3; 4])
    (Weights (Examples.float_matrix [1; 2; 3] [3]))
    (Examples.opset_ctx 6)
  = (Ok (Weights (Examples.float_matrix [1; 2; 3] [3])), Examples.opset_ctx 6).
Proof. vm_compute. reflexivity. Qed.

End BroadcastFacts.

(** ** Chains of elementwise layers *)

Module ChainFacts.
Import Chain ImporterFacts DimsFacts ElementwiseFacts.

Lemma nbDims_elementwiseDims (a b d : Dims) :
  elementwiseDims a b = Some d -> nbDims d = nbDims a.
Proof.
  revert b d. induction a as [| x a IH]; intros [| y b] d H;
    cbn in H; try discriminate H.
  - injection H as <-. reflexivity.
  - destruct (broadcast_extent x y) as [e |]; [| discriminate H].
    cbn in H. destruct (elementwiseDims a b) as [ds |] eqn:E; [| discriminate H].
    cbn in H. injection H as <-. specialize (IH b ds E).
    unfold nbDims in *. cbn [length]. lia.
Qed.

Lemma ranks_max (ts : list ITensor) (r n : Z) (c : Ctx) :
  Forall (fun t => nbDims (t_dims t) = r) ts -> n <= r -> ts <> [] ->
  forM (map Tensor ts) ndim_max_step n c = (Ok r, c).
Proof.
  intros Hall. revert n. induction Hall as [| t ts Ht Hall IH]; intros n Hn Hne.
  - contradiction.
  - cbn [map]. rewrite forM_cons.
    rewrite (bind_step _ _ _ _ _ (ndim_max_step_run (Tensor t) (t_dims t) n c eq_refl)).
    rewrite Ht. replace (Z.max n r) with r by lia.
    destruct ts as [| t' ts]; [reflexivity |].
    apply IH; [lia | discriminate].
Qed.

Lemma tensors_kept (ts : list ITensor) (r : Z) (acc : list ITensor) (c : Ctx) :
  Forall (fun t => nbDims (t_dims t) = r) ts ->
  forM (map Tensor ts) (expand_operand r) acc c = (Ok (acc ++ ts), c).
Proof.
  intros Hall. revert acc. induction Hall as [| t ts Ht Hall IH]; intros acc.
  - cbn. rewrite app_nil_r. reflexivity.
  - cbn [map]. rewrite forM_cons.
    assert (Hstep : expand_operand r (Tensor t) acc c = (Ok (acc ++ [t]), c)).
    { unfold expand_operand. cbn [convertToTensor]. rewrite bind_ret.
      rewrite Ht, Z.eqb_refl. cbn [negb]. rewrite bind_ret.
      rewrite Ht, Z.eqb_refl, bind_ASSERT_true. reflexivity. }
    rewrite (bind_step _ _ _ _ _ Hstep). rewrite IH.
    rewrite <- app_assoc. reflexivity.
Qed.

Local Open Scope nat_scope.

Lemma operand_at (ts : list ITensor) (r : Z) (k : nat) (tk : ITensor) :
  Forall (fun t => nbDims (t_dims t) = r) ts ->
  ts !! k = Some tk ->
  vec_at ts (Z.of_nat k) = Ok tk /\ nbDims (t_dims tk) = r.
Proof.
  intros Hall Htk. split.
  - unfold vec_at. destruct (Z.ltb_spec (Z.of_nat k) 0); [lia |].
    rewrite Nat2Z.id, Htk. reflexivity.
  - rewrite List.Forall_forall in Hall. apply Hall.
    apply list_elem_of_In. eapply list_elem_of_lookup_2. exact Htk.
Qed.

(** The loop from operand [k] on, when every layer can be had. *)
Lemma combine_loop (ts : list ITensor) (op : ElementWiseOperation) (r : Z)
  (m : nat) :
  Forall (fun t => nbDims (t_dims t) = r) ts ->
  forall (k : nat) (acc : ITensor) (c : Ctx) (d : Dims),
    k + m = length ts ->
    nbDims (t_dims acc) = r ->
    chainDims (t_dims acc) (drop k ts) = Some d ->
    exists out c' layers,
      forM (range (Z.of_nat k) (Z.of_nat (length ts))) (combine_step ts op) acc c
      = (Ok out, c')
      /\ t_dims out = d
      /\ network c' = network c ++ layers
      /\ length layers = m
      /\ (0 < m -> t_src out = LayerOutput (length (network c) + m - 1) 0)
      /\ forall i t, ts !! (k + i) = Some t ->
           exists a, layers !! i = Some (LElementWise a t op)
                     /\ (i = 0 -> a = acc)
                     /\ (0 < i -> t_src a = LayerOutput (length (network c) + i - 1) 0).
Proof.
  intros Hall. induction m as [| m IH]; intros k acc c d Hk Hacc Hd.
  - rewrite range_nil by lia. rewrite drop_ge in Hd by lia.
    cbn in Hd. injection Hd as <-.
    exists acc, c, []. cbn [forM].
    split; [reflexivity |]. split; [reflexivity |].
    split; [now rewrite app_nil_r |].
    split; [reflexivity |]. split; [lia |].
    intros i t Hi. apply lookup_lt_Some in Hi. lia.
  - rewrite range_cons by lia. rewrite forM_cons.
    destruct (lookup_lt_is_Some_2 ts k ltac:(lia)) as [tk Htk].
    destruct (operand_at ts r k tk Hall Htk) as [Hat Hrk].
    rewrite (drop_S _ _ _ Htk) in Hd. cbn [chainDims] in Hd.
    destruct (elementwiseDims (t_dims acc) (t_dims tk)) as [d1 |] eqn:Hd1;
      [| discriminate Hd].
    cbn in Hd.
    set (out1 := mkTensor (LayerOutput (length (network c)) 0) d1).
    set (c1 := mkCtx (opset c) (network c ++ [LElementWise acc tk op])
                 (ceilingPoolFormula c) (tensors c)).
    assert (Hstep : combine_step ts op (Z.of_nat k) acc c = (Ok out1, c1)).
    { rewrite (combine_step_run ts op (Z.of_nat k) acc tk c Hat)
        by (rewrite Hrk, Hacc; reflexivity).
      rewrite Hd1. reflexivity. }
    rewrite (bind_step _ _ _ _ _ Hstep).
    assert (Hr1 : nbDims (t_dims out1) = r).
    { subst out1. cbn [t_dims].
      rewrite (nbDims_elementwiseDims _ _ _ Hd1). exact Hacc. }
    destruct (IH (S k) out1 c1 d ltac:(lia) Hr1 Hd)
      as (out & c' & layers & Hrun & Hdims & Hnet & Hlen & Hsrc & Hlayers).
    replace (Z.of_nat k + 1)%Z with (Z.of_nat (S k)) by lia.
    exists out, c', (LElementWise acc tk op :: layers).
    split; [exact Hrun |]. split; [exact Hdims |]. split.
    { rewrite Hnet. subst c1. cbn [network]. rewrite <- app_assoc. reflexivity. }
    split; [cbn [length]; lia |]. split.
    { intros _. destruct m as [| m'].
      - rewrite range_nil in Hrun by lia. cbn [forM] in Hrun.
        injection Hrun as <- _. subst out1. cbn [t_src]. f_equal. lia.
      - rewrite Hsrc by lia. subst c1. cbn [network]. rewrite length_app.
        cbn [length]. f_equal. lia. }
    intros i t Hi. destruct i as [| i].
    + rewrite Nat.add_0_r in Hi. rewrite Htk in Hi. injection Hi as <-.
      exists acc. split; [reflexivity |]. split; [reflexivity | lia].
    + replace (k + S i) with (S k + i) in Hi by lia.
      destruct (Hlayers i t Hi) as (a & Ha & Hfirst & Hlater).
      exists a. split; [exact Ha |]. split; [lia |]. intros _.
      destruct i as [| i].
      * rewrite (Hfirst eq_refl). subst out1. cbn [t_src]. f_equal. lia.
      * rewrite Hlater by lia. subst c1. cbn [network]. rewrite length_app.
        cbn [length]. f_equal. lia.
Qed.

(** The loop from operand [k] on, when some layer cannot be had. *)
Lemma combine_loop_refused (ts : list ITensor) (op : ElementWiseOperation)
  (r : Z) (m : nat) :
  Forall (fun t => nbDims (t_dims t) = r) ts ->
  forall (k : nat) (acc : ITensor) (c : Ctx),
    k + m = length ts ->
    nbDims (t_dims acc) = r ->
    chainDims (t_dims acc) (drop k ts) = None ->
    fst (forM (range (Z.of_nat k) (Z.of_nat (length ts))) (combine_step ts op)
           acc c)
    = Err (Status kUNSUPPORTED_NODE).
Proof.
  intros Hall. induction m as [| m IH]; intros k acc c Hk Hacc Hd.
  - rewrite drop_ge in Hd by lia. discriminate Hd.
  - rewrite range_cons by lia. rewrite forM_cons, bind_run.
    destruct (lookup_lt_is_Some_2 ts k ltac:(lia)) as [tk Htk].
    destruct (operand_at ts r k tk Hall Htk) as [Hat Hrk].
    rewrite (drop_S _ _ _ Htk) in Hd. cbn [chainDims] in Hd.
    rewrite (combine_step_run ts op (Z.of_nat k) acc tk c Hat)
      by (rewrite Hrk, Hacc; reflexivity).
    destruct (elementwiseDims (t_dims acc) (t_dims tk)) as [d1 |] eqn:Hd1;
      [| reflexivity].
    cbn in Hd.
    replace (Z.of_nat k + 1)%Z with (Z.of_nat (S k)) by lia.
    apply IH; [lia | | exact Hd].
    cbn [t_dims]. rewrite (nbDims_elementwiseDims _ _ _ Hd1). exact Hacc.
Qed.

(** X7.  Two or more tensors of one rank, outside the legacy path, are
    combined from left to right.  When the extents can be broadcast at
    every step, this adds one elementwise layer per further operand and
    nothing else: the first layer combines the first two operands, each
    later one combines the output of the layer before it with the next
    operand, and the output of the last layer is returned, with the
    broadcast extents.  When at some step they cannot, the lowering
    fails with [kUNSUPPORTED_NODE]. *)
Theorem elementwise_chain (node : NodeProto) (t0 : ITensor)
  (rest : list ITensor) (op : ElementWiseOperation) (legacy : bool) (r : Z)
  (c : Ctx) :
  rest <> [] ->
  Forall (fun t => nbDims (t_dims t) = r) (t0 :: rest) ->
  (opset c <? 7)%Z && legacy = false ->
  (forall d, chainDims (t_dims t0) rest = Some d ->
   exists out c' layers,
     combineTensorsElementwise node (map Tensor (t0 :: rest)) op legacy c
     = (Ok [Tensor out], c')
     /\ t_dims out = d
     /\ network c' = network c ++ layers
     /\ length layers = length rest
     /\ t_src out = LayerOutput (length (network c) + length rest - 1) 0
     /\ forall i t, rest !! i = Some t ->
          exists a, layers !! i = Some (LElementWise a t op)
                    /\ (i = 0 -> a = t0)
                    /\ (0 < i -> t_src a = LayerOutput (length (network c) + i - 1) 0))
  /\ (chainDims (t_dims t0) rest = None ->
      fst (combineTensorsElementwise node (map Tensor (t0 :: rest)) op legacy c)
      = Err (Status kUNSUPPORTED_NODE)).
Proof.
  intros Hne Hall Hleg.
  assert (Hr0 : nbDims (t_dims t0) = r) by (inversion Hall; assumption).
  assert (Hhead :
            combineTensorsElementwise node (map Tensor (t0 :: rest)) op legacy c
            = (let* combined :=
                 forM (range (Z.of_nat 1) (Z.of_nat (length (t0 :: rest))))
                   (combine_step (t0 :: rest) op) t0 in
               ret [Tensor combined]) c).
  { unfold combineTensorsElementwise.
    cbn [map]. rewrite bool_decide_eq_false_2 by discriminate. cbn [negb].
    rewrite bind_ASSERT_true.
    rewrite (bind_step getOpsetVersion _ c c (opset c)) by reflexivity.
    rewrite Hleg, bind_ret.
    change (Tensor t0 :: map Tensor rest) with (map Tensor (t0 :: rest)).
    rewrite (bind_step _ _ _ _ _
               (ranks_max (t0 :: rest) r (-1) c Hall
                  ltac:(unfold nbDims in Hr0; lia) ltac:(discriminate))).
    rewrite (bind_step _ _ _ _ _ (tensors_kept (t0 :: rest) r [] c Hall)).
    cbn [app]. change (vec_at (t0 :: rest) 0) with (Ok t0). rewrite bind_lift_Ok.
    destruct rest as [| t1 rest']; [contradiction |].
    cbn [length Nat.eqb]. reflexivity. }
  rewrite Hhead. split.
  - intros d Hd.
    destruct (combine_loop (t0 :: rest) op r (length rest) Hall 1 t0 c d
                ltac:(cbn [length]; lia) Hr0 Hd)
      as (out & c' & layers & Hrun & Hdims & Hnet & Hlen & Hsrc & Hlayers).
    exists out, c', layers.
    split; [rewrite (bind_step _ _ _ _ _ Hrun); reflexivity |].
    split; [exact Hdims |]. split; [exact Hnet |]. split; [exact Hlen |]. split.
    + apply Hsrc. destruct rest; [contradiction | cbn [length]; lia].
    + intros i t Hi. apply (Hlayers i t). exact Hi.
  - intros Hd.
    pose proof (combine_loop_refused (t0 :: rest) op r (length rest) Hall 1 t0 c
                  ltac:(cbn [length]; lia) Hr0 Hd) as Hfail.
    rewrite bind_run.
    destruct (forM _ _ t0 c) as [[out | f] c']; cbn [fst] in Hfail |- *;
      [discriminate Hfail | injection Hfail as ->; reflexivity].
Qed.

Lemma elementwise_chain_witness :
  exists out c' layers,
    combineTensorsElementwise (mkNode "Sum" ["A"; "B"; "C"] ["S"] [])
      (map Tensor
         [mkTensor (NetworkInput "A") [2; 3]%Z; mkTensor (NetworkInput "B") [2; 3]%Z;
          mkTensor (NetworkInput "C") [1; 3]%Z])
      kSUM false (Examples.opset_ctx 9%Z)
    = (Ok [Tensor out], c')
    /\ t_dims out = [2; 3]%Z
    /\ network c' = network (Examples.opset_ctx 9%Z) ++ layers
    /\ length layers = 2%nat.
Proof.
  destruct (elementwise_chain (mkNode "Sum" ["A"; "B"; "C"] ["S"] [])
              (mkTensor (NetworkInput "A") [2; 3]%Z)
              [mkTensor (NetworkInput "B") [2; 3]%Z;
               mkTensor (NetworkInput "C") [1; 3]%Z]
              kSUM false 2%Z (Examples.opset_ctx 9%Z))
    as [Hok _].
  - discriminate.
  - repeat constructor.
  - reflexivity.
  - destruct (Hok [2; 3]%Z eq_refl)
      as (out & c' & layers & Hrun & Hdims & Hnet & Hlen & _).
    exists out, c', layers.
    split; [exact Hrun |]. split; [exact Hdims |].
    split; [exact Hnet | exact Hlen].
Defined.

End ChainFacts.

(** ** [Slice] stays within the operand *)

Module SliceBoundsFacts.
Import SliceBounds ImporterFacts DimsFacts LoopFacts.

Lemma convert_axis_Ok (axis nb a : Z) :
  convert_axis axis nb = Ok a -> 0 <= a < nb.
Proof.
  unfold convert_axis.
  destruct ((0 <=? (if axis <? 0 then axis + nb else axis))
            && ((if axis <? 0 then axis + nb else axis) <? nb)) eqn:E;
    [| discriminate].
  intros H. injection H as <-. lia.
Qed.

Lemma ceil_div_pos (n d : Z) :
  0 < d -> (float_ceil_div n d - 1) * d < n <= float_ceil_div n d * d.
Proof.
  intros Hd. unfold float_ceil_div.
  pose proof (Z.div_mod (- n) d ltac:(lia)) as E.
  pose proof (Z.mod_pos_bound (- n) d Hd) as B. nia.
Qed.

Lemma ceil_div_neg (n d : Z) :
  d < 0 -> float_ceil_div n d * d <= n < (float_ceil_div n d - 1) * d.
Proof.
  intros Hd. unfold float_ceil_div.
  pose proof (Z.div_mod (- n) d ltac:(lia)) as E.
  pose proof (Z.mod_neg_bound (- n) d Hd) as B. nia.
Qed.

Lemma dim_in_range (dims : Dims) (a : Z) (lo hi : Z) :
  Forall (fun d => lo <= d <= hi) dims -> 0 <= a < nbDims dims ->
  lo <= dim dims a <= hi.
Proof.
  intros Hall Ha. unfold dim, nbDims in *.
  destruct (Z.ltb_spec a 0); [lia |].
  rewrite List.Forall_forall in Hall. apply Hall. apply nth_In. lia.
Qed.

Lemma lift_bind_Ok {A B} (r : Res A) (k : A -> M B) (c c' : Ctx) (b : B) :
  bind (lift r) k c = (Ok b, c') -> exists a, r = Ok a /\ k a c = (Ok b, c').
Proof.
  intros H. apply bind_Ok in H. destruct H as (a & c1 & Hl & H).
  apply lift_Ok in Hl. destruct Hl as [-> ->]. exists a. auto.
Qed.

Lemma slice_axis_Inv (dims : Dims) (starts ends axes steps : list Z) (i : Z)
  (v v' : SliceVars) (c c' : Ctx) :
  Forall (fun d => 0 <= d <= 2 ^ 24) dims ->
  SliceInv dims v ->
  slice_axis dims starts ends axes steps i v c = (Ok v', c') ->
  SliceInv dims v' /\ c' = c.
Proof.
  intros Hdims [Hs He Hz Hst Hw] H. unfold slice_axis in H.
  apply lift_bind_Ok in H. destruct H as (a & _ & H).
  apply lift_bind_Ok in H. destruct H as (axis & Haxis & H).
  apply convert_axis_Ok in Haxis.
  apply lift_bind_Ok in H. destruct H as (starts_i & _ & H).
  apply lift_bind_Ok in H. destruct H as (ends_i & _ & H).
  apply lift_bind_Ok in H. destruct H as (steps_i & _ & H).
  destruct ((starts_i =? 0) && (dim dims axis <=? ends_i) && (steps_i =? 1)).
  { apply ret_Ok in H. destruct H as [-> ->]. split; [constructor; assumption | reflexivity]. }
  apply bind_Ok in H. destruct H as (u & c1 & Hne & H).
  apply ASSERT_Ok in Hne. destruct Hne as [Hne ->].
  apply ret_Ok in H. destruct H as [-> ->]. split; [| reflexivity].
  pose proof (dim_in_range dims axis 0 (2 ^ 24) Hdims Haxis) as Hd.
  set (d := dim dims axis) in *.
  set (up := if steps_i <? 0 then d - 1 else d).
  set (low := if steps_i <? 0 then -1 else 0).
  set (s0 := if starts_i <? 0 then Z.max (d + starts_i) low else Z.min starts_i up).
  set (e0 := if ends_i <? 0 then Z.max (d + ends_i) low else Z.min ends_i up).
  assert (Hs0 : low <= s0 <= up).
  { subst s0 up low. destruct (steps_i <? 0), (Z.ltb_spec starts_i 0); lia. }
  assert (He0 : low <= e0 <= up).
  { subst e0 up low. destruct (steps_i <? 0), (Z.ltb_spec ends_i 0); lia. }
  assert (Hlu : -1 <= low /\ up <= d).
  { subst up low. destruct (steps_i <? 0); lia. }
  assert (H24 : 2 ^ 24 < 2 ^ 31) by reflexivity.
  assert (Hws : wrap32 s0 = s0) by (apply wrap32_small; lia).
  assert (Hwe : wrap32 e0 = e0) by (apply wrap32_small; lia).
  constructor; cbn [sliceStart sliceEnd sliceSize sliceStride];
    rewrite ?nbDims_set_dim; try assumption.
  intros b Hb. unfold within_extent.
  destruct (Z.eq_dec b axis) as [-> | Hba].
  2:{ rewrite !dim_set_dim_other by congruence. apply Hw, Hb. }
  rewrite !dim_set_dim_eq by lia.
  rewrite Hws, Hwe.
  apply negb_true_iff, Z.eqb_neq in Hne.
  intros Hpos.
  destruct (Z.ltb_spec steps_i 0) as [Hneg | Hnn].
  - (* a negative step *)
    assert (Hq : 0 < float_ceil_div (e0 - s0) steps_i) by lia.
    replace (Z.max (float_ceil_div (e0 - s0) steps_i) 0)
      with (float_ceil_div (e0 - s0) steps_i) by lia.
    pose proof (ceil_div_neg (e0 - s0) steps_i Hneg) as Hc.
    set (q := float_ceil_div (e0 - s0) steps_i) in *.
    subst up low.
    assert (Hes : e0 < s0) by nia.
    split; [lia |].
    destruct (Z_lt_le_dec steps_i (- 2 ^ 31)) as [Hbig | Hsmall].
    + assert (q = 1) by nia. subst q. replace (float_ceil_div (e0 - s0) steps_i) with 1 in *. lia.
    + rewrite wrap32_small by lia. nia.
  - (* a positive step *)
    assert (Hq : 0 < float_ceil_div (e0 - s0) steps_i) by lia.
    replace (Z.max (float_ceil_div (e0 - s0) steps_i) 0)
      with (float_ceil_div (e0 - s0) steps_i) by lia.
    pose proof (ceil_div_pos (e0 - s0) steps_i ltac:(lia)) as Hc.
    set (q := float_ceil_div (e0 - s0) steps_i) in *.
    subst up low.
    assert (Hes : s0 < e0) by nia.
    split; [lia |].
    destruct (Z_lt_le_dec steps_i (2 ^ 31)) as [Hsmall | Hbig].
    + rewrite wrap32_small by lia. nia.
    + assert (q = 1) by nia. subst q. replace (float_ceil_div (e0 - s0) steps_i) with 1 in *. lia.
Qed.

(** *** Computations that leave the context as it is *)

Lemma bind_same_ctx {A B} (m : M A) (k : A -> M B) :
  (forall c, snd (m c) = c) -> (forall a c, snd (k a c) = c) ->
  forall c, snd (bind m k c) = c.
Proof.
  intros Hm Hk c. rewrite bind_run. specialize (Hm c).
  destruct (m c) as [[a | f] c1]; cbn in Hm; subst c1; [apply Hk | reflexivity].
Qed.

Lemma lift_same_ctx {A} (r : Res A) (c : Ctx) : snd (lift r c) = c.
Proof. reflexivity. Qed.

Lemma ret_same_ctx {A} (a : A) (c : Ctx) : snd (ret a c) = c.
Proof. reflexivity. Qed.

Lemma ASSERT_same_ctx (b : bool) (code : ErrorCode) (c : Ctx) :
  snd (ASSERT b code c) = c.
Proof. destruct b; reflexivity. Qed.

Ltac same_ctx :=
  repeat first
    [ apply lift_same_ctx | apply ret_same_ctx | apply ASSERT_same_ctx
    | apply bind_same_ctx; [intros | intros ? ?]
    | match goal with |- context [if ?b then _ else _] => destruct b end
    | reflexivity ].

Lemma slice_parameters_same_ctx (node : NodeProto)
  (inputs : list TensorOrWeights) (c : Ctx) :
  snd (slice_parameters node inputs c) = c.
Proof.
  revert c. unfold slice_parameters. apply bind_same_ctx; [reflexivity |].
  intros ver c. destruct (10 <=? ver); revert c; same_ctx.
Qed.

Lemma forM_same_ctx {T St} (body : T -> St -> M St) (xs : list T) :
  (forall x s c, snd (body x s c) = c) ->
  forall s c, snd (forM xs body s c) = c.
Proof.
  intros Hbody. induction xs as [| x xs IH]; intros s c; [reflexivity |].
  rewrite forM_cons. revert c. apply bind_same_ctx; [intros c; apply Hbody |].
  intros s' c. apply IH.
Qed.

Lemma slice_loop_Inv (dims : Dims) (starts ends axes steps : list Z)
  (idx : list Z) (v v' : SliceVars) (c c' : Ctx) :
  Forall (fun d => 0 <= d <= 2 ^ 24) dims ->
  SliceInv dims v ->
  forM idx (slice_axis dims starts ends axes steps) v c = (Ok v', c') ->
  SliceInv dims v' /\ c' = c.
Proof.
  intros Hdims Hv H.
  apply (forM_invariant (fun _ s c0 => SliceInv dims s /\ c0 = c)
           (slice_axis dims starts ends axes steps) idx v v' c c' 0%nat);
    [| auto | exact H].
  intros _ x s c0 s' c0' [Hs ->] Hx.
  apply (slice_axis_Inv dims starts ends axes steps x s s' c c0' Hdims Hs Hx).
Qed.

Lemma initial_SliceInv (dims : Dims) :
  SliceInv dims
    (mkSliceVars (makeDims (nbDims dims) 0) dims dims (makeDims (nbDims dims) 1)).
Proof.
  assert (Hlen : forall x, nbDims (makeDims (nbDims dims) x) = nbDims dims).
  { intros x. unfold nbDims, makeDims. rewrite repeat_length. lia. }
  assert (Hdim : forall x a, 0 <= a < nbDims dims ->
                             dim (makeDims (nbDims dims) x) a = x).
  { intros x a Ha. unfold dim, makeDims, nbDims in *.
    destruct (Z.ltb_spec a 0); [lia |].
    apply nth_repeat_lt. lia. }
  constructor; cbn [sliceStart sliceEnd sliceSize sliceStride]; auto.
  intros a Ha Hpos. rewrite !Hdim by exact Ha. lia.
Qed.

(** X8.  The slice layer that [importSlice] adds stays inside the tensor it
    slices (of extents up to 2^24): on every axis where the slice is not
    empty, the first and the last element it reads have indices between
    0 and the extent less one, whatever the starts, ends and steps, in
    either direction. *)
Theorem importSlice_within_bounds (node : NodeProto)
  (inputs outs : list TensorOrWeights) (c c' : Ctx) (l : nat) (t : ITensor)
  (start size stride : Dims) (a : Z) :
  importSlice node inputs c = (Ok outs, c') ->
  (length (network c) <= l)%nat ->
  network c' !! l = Some (LSlice t start size stride) ->
  Forall (fun d => 0 <= d <= 2 ^ 24) (t_dims t) ->
  0 <= a < nbDims (t_dims t) ->
  within_extent (t_dims t) start size stride a.
Proof.
  intros H Hl Hlayer Hdims Ha. unfold importSlice in H.
  apply lift_bind_Ok in H. destruct H as (in0 & _ & H).
  apply bind_Ok in H. destruct H as (tensor & c1 & Hconv & H).
  apply bind_Ok in H. destruct H as ([[[starts ends] axes] steps] & c2 & Hpar & H).
  pose proof (slice_parameters_same_ctx node inputs c1) as Hc2.
  rewrite Hpar in Hc2. cbn in Hc2. subst c2.
  apply bind_Ok in H. destruct H as (v & c3 & Hloop & H).
  assert (Hnet1 : forall k x, (length (network c) <= k)%nat ->
            network c1 !! k = Some x -> exists sh w, x = LConstant sh w).
  { intros k x Hk Hx. destruct in0 as [t0 | w |]; cbn [convertToTensor] in Hconv.
    - injection Hconv as _ <-. apply lookup_lt_Some in Hx. lia.
    - cbv [bind addLayer ret] in Hconv. injection Hconv as _ <-. cbn [network] in Hx.
      rewrite lookup_app_r in Hx by exact Hk.
      apply list_lookup_singleton_Some in Hx. destruct Hx as [_ <-]. eauto.
    - discriminate Hconv. }
  assert (Hown : t = tensor /\ start = sliceStart v /\ size = sliceSize v
                 /\ stride = sliceStride v /\ c3 = c1).
  { destruct (dims_eqb (sliceSize v) (makeDims (nbDims (t_dims tensor)) 0)).
    - apply ret_Ok in H. destruct H as [_ ->].
      assert (Hc3 : c3 = c1).
      { pose proof (forM_same_ctx (slice_axis (t_dims tensor) starts ends axes steps)
                      (iota (length axes))) as Hsame.
        specialize (Hsame ltac:(intros x s c0; unfold slice_axis; revert c0; same_ctx)
                      (mkSliceVars (makeDims (nbDims (t_dims tensor)) 0) (t_dims tensor)
                         (t_dims tensor) (makeDims (nbDims (t_dims tensor)) 1)) c1).
        rewrite Hloop in Hsame. exact Hsame. }
      subst c3. destruct (Hnet1 l _ Hl Hlayer) as (sh & w & Habs). discriminate Habs.
    - apply bind_Ok in H. destruct H as (u & c4 & Hnz & H).
      assert (Hc3 : c3 = c1).
      { pose proof (forM_same_ctx (slice_axis (t_dims tensor) starts ends axes steps)
                      (iota (length axes))) as Hsame.
        specialize (Hsame ltac:(intros x s c0; unfold slice_axis; revert c0; same_ctx)
                      (mkSliceVars (makeDims (nbDims (t_dims tensor)) 0) (t_dims tensor)
                         (t_dims tensor) (makeDims (nbDims (t_dims tensor)) 1)) c1).
        rewrite Hloop in Hsame. exact Hsame. }
      subst c3.
      assert (Hc4 : c4 = c1).
      { pose proof (forM_same_ctx (slice_size_nonzero (sliceSize v))
                      (iota (length axes))
                      ltac:(intros x s c0; apply ASSERT_same_ctx) tt c1) as Hsame.
        rewrite Hnz in Hsame. exact Hsame. }
      subst c4. cbv [bind addLayer ret] in H. injection H as _ <-.
      cbn [network] in Hlayer.
      destruct (Nat.lt_ge_cases l (length (network c1))) as [Hlt | Hge].
      + rewrite lookup_app_l in Hlayer by exact Hlt.
        destruct (Hnet1 l _ Hl Hlayer) as (sh & w & Habs). discriminate Habs.
      + rewrite lookup_app_r in Hlayer by exact Hge.
        apply list_lookup_singleton_Some in Hlayer. destruct Hlayer as [_ E].
        injection E as <- <- <- <-. auto. }
  destruct Hown as (-> & -> & -> & -> & ->).
  destruct (slice_loop_Inv (t_dims tensor) starts ends axes steps _ _ v c1 c1
              Hdims (initial_SliceInv (t_dims tensor)) Hloop) as [Hinv _].
  apply (inv_within _ _ Hinv). exact Ha.
Qed.

Lemma importSlice_within_bounds_witness :
  within_extent [5; 3] [1; 0] [2; 3] [2; 1] 0.
Proof.
  apply (importSlice_within_bounds Examples.slice_node
           [Examples.input_tensor "data" [5; 3]; Examples.int64_vector [1];
            Examples.int64_vector [4]; Examples.int64_vector [0];
            Examples.int64_vector [2]]
           [Tensor (mkTensor (LayerOutput 0 0) [2; 3])]
           (Examples.opset_ctx 10)
           (mkCtx 10
              [LSlice (mkTensor (NetworkInput "data") [5; 3]) [1; 0] [2; 3] [2; 1]]
              false ∅)
           0%nat (mkTensor (NetworkInput "data") [5; 3])).
  - vm_compute. reflexivity.
  - unfold Examples.opset_ctx. cbn. lia.
  - reflexivity.
  - repeat constructor; cbn; lia.
  - unfold nbDims. cbn. lia.
Defined.

(** X9.  The status that [weightsToVector] returns is dropped by
    [importSlice]: when the [starts] operand is not a constant of
    integers (a tensor computed at run time, say), the node is not
    rejected; with three operands it is lowered to a slice of the whole
    tensor, whatever the [ends] operand holds. *)
Theorem importSlice_ignores_conversion_failure (node : NodeProto)
  (t : ITensor) (in1 in2 : TensorOrWeights) (f : Failure) (c : Ctx) :
  10 <= opset c ->
  length (node_input node) = 3%nat ->
  fst (weightsToVector in1 []) = Err f ->
  t_dims t <> [] ->
  Forall (fun x => x <> 0) (t_dims t) ->
  importSlice node [Tensor t; in1; in2] c
  = (Ok [Tensor (mkTensor (LayerOutput (length (network c)) 0) (t_dims t))],
     mkCtx (opset c)
       (network c
          ++ [LSlice t (makeDims (nbDims (t_dims t)) 0) (t_dims t)
                (makeDims (nbDims (t_dims t)) 1)])
       (ceilingPoolFormula c) (tensors c)).
Proof.
  intros Hver Hnb Hfail Hne Hnz.
  assert (Hstarts : snd (weightsToVector in1 []) = []).
  { unfold weightsToVector in *. destruct in1 as [t1 | w |]; try reflexivity.
    destruct (negb ((w_type w =? INT32) || (w_type w =? INT64)));
      [reflexivity | discriminate Hfail]. }
  apply (SliceFacts.full_range_slice_adds_layer node [Tensor t; in1; in2] t
           [] (snd (weightsToVector in2 [])) [] [] c).
  - reflexivity.
  - unfold slice_parameters.
    rewrite (bind_step getOpsetVersion _ c c (opset c)) by reflexivity.
    destruct (Z.leb_spec 10 (opset c)) as [_ | ?]; [| lia].
    rewrite Hnb. cbn [Z.of_nat Pos.of_succ_nat Pos.succ Z.leb Z.compare Pos.compare
                     Pos.compare_cont andb].
    rewrite bind_ASSERT_true.
    change (vec_at [Tensor t; in1; in2] 1) with (Ok in1).
    change (vec_at [Tensor t; in1; in2] 2) with (Ok in2).
    rewrite !bind_lift_Ok, Hstarts. reflexivity.
  - constructor.
  - exact Hne.
  - exact Hnz.
  - cbn. lia.
Qed.

Lemma importSlice_ignores_conversion_failure_witness :
  importSlice (mkNode "Slice" ["data"; "starts"; "ends"] ["out"] [])
    [Examples.input_tensor "data" [5; 3]; Examples.input_tensor "starts" [1];
     Examples.int64_vector [2]]
    (Examples.opset_ctx 10)
  = (Ok [Tensor (mkTensor (LayerOutput 0 0) [5; 3])],
     mkCtx 10
       [LSlice (mkTensor (NetworkInput "data") [5; 3]) [0; 0] [5; 3] [1; 1]]
       false ∅).
Proof.
  apply (importSlice_ignores_conversion_failure
           (mkNode "Slice" ["data"; "starts"; "ends"] ["out"] [])
           (mkTensor (NetworkInput "data") [5; 3])
           (Examples.input_tensor "starts" [1]) (Examples.int64_vector [2])
           (Status kUNSUPPORTED_NODE) (Examples.opset_ctx 10)).
  - unfold Examples.opset_ctx. cbn. lia.
  - reflexivity.
  - reflexivity.
  - discriminate.
  - repeat constructor; discriminate.
Defined.

End SliceBoundsFacts.

(** ** The pooling layer of [AveragePool] *)

Module PoolLayerFacts.
Import PoolNetwork ImporterFacts DimsFacts SliceBoundsFacts.

(** *** Computations that leave the network as it is *)

Lemma bind_same_network {A B} (m : M A) (k : A -> M B) :
  (forall c, network (snd (m c)) = network c) ->
  (forall a c, network (snd (k a c)) = network c) ->
  forall c, network (snd (bind m k c)) = network c.
Proof.
  intros Hm Hk c. rewrite bind_run. specialize (Hm c).
  destruct (m c) as [[a | f] c1]; cbn in Hm; [| exact Hm].
  rewrite Hk. exact Hm.
Qed.

Lemma forM_same_network {T St} (body : T -> St -> M St) (xs : list T) :
  (forall x s c, network (snd (body x s c)) = network c) ->
  forall s c, network (snd (forM xs body s c)) = network c.
Proof.
  intros Hbody. induction xs as [| x xs IH]; intros s c; [reflexivity |].
  rewrite forM_cons. revert c. apply bind_same_network; [intros c; apply Hbody |].
  intros s' c. apply IH.
Qed.

Ltac same_network :=
  repeat first
    [ reflexivity
    | apply bind_same_network; [intros | intros ? ?]
    | apply forM_same_network; intros
    | match goal with |- context [ASSERT ?b _ _] => destruct b end
    | match goal with |- context [if ?b then _ else _] => destruct b end ].

(** X10.  The pooling layer that a successful [importAveragePool] leaves in
    the network carries the paddings exactly as [get_kernel_params]
    returned them: what the loop over the two leading spatial dimensions
    adds to the begin-padding stays in the importer's local and is never
    given to the layer. *)
Theorem averagePool_layer_paddings
  (get_kernel_params : NodeProto -> Dims -> Dims -> Dims -> Dims -> bool
                       -> KernelParams)
  (poolingDims : Layer -> bool -> Dims)
  (node : NodeProto) (inputs outs : list TensorOrWeights) (c c' : Ctx) :
  importAveragePool get_kernel_params poolingDims node inputs c = (Ok outs, c') ->
  exists (l : nat) (tensor_ptr : ITensor),
    let nbSpatialDims := nbDims (t_dims tensor_ptr) - 2 in
    let kp := get_kernel_params node
                (makeDims nbSpatialDims 1) (makeDims nbSpatialDims 1)
                (makeDims nbSpatialDims 0) (makeDims nbSpatialDims 0) true in
    (length (network c) <= l)%nat
    /\ network c' !! l
       = Some (LPooling tensor_ptr kAVERAGE (kernel_size kp) (strides kp)
                 (exclude_padding kp) (paddingMode kp)
                 (beg_padding kp) (end_padding kp)).
Proof.
  intros H. unfold importAveragePool in H.
  apply lift_bind_Ok in H. destruct H as (in0 & _ & H).
  apply bind_Ok in H. destruct H as (t0 & c1 & Hconv & H).
  apply LoopFacts.convertToTensor_Ok in Hconv. destruct Hconv as [ls1 Hc1].
  apply bind_Ok in H. destruct H as (tensor_ptr & c2 & Hexp & H).
  assert (Hc2 : exists ls2, network c2 = network c1 ++ ls2).
  { destruct (nbDims (t_dims t0) =? 3).
    - cbv [reshape_tensor bind addLayer ret] in Hexp. injection Hexp as _ <-.
      eexists. reflexivity.
    - apply ret_Ok in Hexp. destruct Hexp as [_ ->]. exists []. now rewrite app_nil_r. }
  destruct Hc2 as [ls2 Hc2].
  apply bind_Ok in H. destruct H as (ver & c2' & Hver & H).
  injection Hver as <- <-.
  apply bind_Ok in H. destruct H as (u & c3 & Hblock & H).
  assert (Hc3 : network c3 = network c2).
  { match type of Hblock with
    | ?m c2 = _ =>
        assert (Hsame : forall c0, network (snd (m c0)) = network c0)
    end.
    { destruct (10 <=? opset c2); same_network. }
    specialize (Hsame c2). rewrite Hblock in Hsame. exact Hsame. }
  apply bind_Ok in H. destruct H as (u1 & c3' & Ha1 & H).
  apply ASSERT_Ok in Ha1. destruct Ha1 as [_ ->].
  apply bind_Ok in H. destruct H as (u2 & c3' & Ha2 & H).
  apply ASSERT_Ok in Ha2. destruct Ha2 as [_ ->].
  apply bind_Ok in H. destruct H as (layer & c4 & Hadd & H).
  cbv [addLayer] in Hadd. injection Hadd as <- <-.
  apply bind_Ok in H. destruct H as (u3 & c5 & Hupd & H).
  cbv [updateLayer] in Hupd. injection Hupd as _ <-.
  cbn [network opset ceilingPoolFormula tensors] in H.
  apply bind_Ok in H. destruct H as (st & c6 & Hloop & H).
  match type of Hloop with
  | forM ?xs ?body ?s ?c0 = _ =>
      pose proof (forM_same_ctx body xs
        ltac:(intros x [b p] c0'; unfold asymmetric_padding; revert c0'; same_ctx)
        s c0) as Hc6
  end.
  rewrite Hloop in Hc6. cbn [snd] in Hc6. subst c6.
  apply bind_Ok in H. destruct H as (net & c6 & Hnet & H).
  cbv [getNetwork] in Hnet. injection Hnet as <- <-.
  cbn [network] in H.
  apply lift_bind_Ok in H. destruct H as (pooling & _ & H).
  apply bind_Ok in H. destruct H as (ceilFormula & c6 & Hceil & H).
  injection Hceil as <- <-.
  apply bind_Ok in H. destruct H as (out & c7 & Hback & H).
  apply ret_Ok in H. destruct H as [_ ->].
  exists (length (network c3)), tensor_ptr. cbv zeta.
  split; [rewrite Hc3, Hc2, Hc1, !length_app; lia |].
  destruct (nbDims (t_dims t0) =? 3).
  - cbv [reshape_tensor bind addLayer ret] in Hback. injection Hback as _ <-.
    cbn [network].
    rewrite lookup_app_l by (rewrite length_alter, length_app; cbn [length]; lia).
    rewrite list_lookup_alter_eq, lookup_app_r, Nat.sub_diag by lia. reflexivity.
  - apply ret_Ok in Hback. destruct Hback as [_ ->]. cbn [network].
    rewrite list_lookup_alter_eq, lookup_app_r, Nat.sub_diag by lia. reflexivity.
Qed.

Lemma averagePool_layer_paddings_witness :
  exists (l : nat) (tensor_ptr : ITensor),
    let nbSpatialDims := nbDims (t_dims tensor_ptr) - 2 in
    let kp := Examples.explicit_pads [0; 0] [1; 0] Examples.pool_node
                (makeDims nbSpatialDims 1) (makeDims nbSpatialDims 1)
                (makeDims nbSpatialDims 0) (makeDims nbSpatialDims 0) true in
    (length (network (Examples.opset_ctx 9)) <= l)%nat
    /\ network
         (snd (importAveragePool (Examples.explicit_pads [0; 0] [1; 0])
                 Examples.input_extents Examples.pool_node Examples.pool_inputs
                 (Examples.opset_ctx 9))) !! l
       = Some (LPooling tensor_ptr kAVERAGE (kernel_size kp) (strides kp)
                 (exclude_padding kp) (paddingMode kp)
                 (beg_padding kp) (end_padding kp)).
Proof.
  apply (averagePool_layer_paddings (Examples.explicit_pads [0; 0] [1; 0])
           Examples.input_extents Examples.pool_node Examples.pool_inputs
           [Tensor (mkTensor (LayerOutput 0 0) [1; 1; 4; 4])]
           (Examples.opset_ctx 9)).
  vm_compute. reflexivity.
Defined.

(** C7.  The compensation for an end-pad one above the begin-pad is
    computed and lost.  The comment at the accepted branch says "pad
    symmetrically such that we get one more output element at the
    beginning, and then crop it off after the pooling operation"; but
    the paddings were given to the layer before the loop, and what the
    loop writes ([beg_padding += strides], [pre_crop = 1]) is read by
    nothing.  All that a successful [importAveragePool] adds to the
    network is the pooling layer, with the paddings as
    [get_kernel_params] returned them, and around it layers that only
    convert or reshape: the operand's constant, and the two reshapes of
    a one-dimensional pooling.  No layer pads or crops. *)
Theorem averagePool_compensation_lost
  (get_kernel_params : NodeProto -> Dims -> Dims -> Dims -> Dims -> bool
                       -> KernelParams)
  (poolingDims : Layer -> bool -> Dims)
  (node : NodeProto) (inputs outs : list TensorOrWeights) (c c' : Ctx) :
  importAveragePool get_kernel_params poolingDims node inputs c = (Ok outs, c') ->
  exists (tensor_ptr : ITensor) (before after : list Layer),
    let nbSpatialDims := nbDims (t_dims tensor_ptr) - 2 in
    let kp := get_kernel_params node
                (makeDims nbSpatialDims 1) (makeDims nbSpatialDims 1)
                (makeDims nbSpatialDims 0) (makeDims nbSpatialDims 0) true in
    network c'
    = network c ++ before
      ++ [LPooling tensor_ptr kAVERAGE (kernel_size kp) (strides kp)
            (exclude_padding kp) (paddingMode kp)
            (beg_padding kp) (end_padding kp)]
      ++ after
    /\ Forall (fun l => presents_only l = true) (before ++ after).
Proof.
  intros H. unfold importAveragePool in H.
  apply lift_bind_Ok in H. destruct H as (in0 & _ & H).
  apply bind_Ok in H. destruct H as (t0 & c1 & Hconv & H).
  assert (Hc1 : exists ls1, network c1 = network c ++ ls1
                            /\ Forall (fun l => presents_only l = true) ls1).
  { destruct in0 as [t | w |]; cbn [convertToTensor] in Hconv.
    - injection Hconv as _ <-. exists []. rewrite app_nil_r. split; constructor.
    - cbv [bind addLayer ret] in Hconv. injection Hconv as _ <-.
      eexists. split; [reflexivity |]. repeat constructor.
    - discriminate Hconv. }
  destruct Hc1 as (ls1 & Hc1 & Hp1).
  apply bind_Ok in H. destruct H as (tensor_ptr & c2 & Hexp & H).
  assert (Hc2 : exists ls2, network c2 = network c1 ++ ls2
                            /\ Forall (fun l => presents_only l = true) ls2).
  { destruct (nbDims (t_dims t0) =? 3).
    - cbv [reshape_tensor bind addLayer ret] in Hexp. injection Hexp as _ <-.
      eexists. split; [reflexivity |]. repeat constructor.
    - apply ret_Ok in Hexp. destruct Hexp as [_ ->]. exists [].
      rewrite app_nil_r. split; constructor. }
  destruct Hc2 as (ls2 & Hc2 & Hp2).
  apply bind_Ok in H. destruct H as (ver & c2' & Hver & H).
  injection Hver as <- <-.
  apply bind_Ok in H. destruct H as (u & c3 & Hblock & H).
  assert (Hc3 : network c3 = network c2).
  { match type of Hblock with
    | ?m c2 = _ =>
        assert (Hsame : forall c0, network (snd (m c0)) = network c0)
    end.
    { destruct (10 <=? opset c2); same_network. }
    specialize (Hsame c2). rewrite Hblock in Hsame. exact Hsame. }
  apply bind_Ok in H. destruct H as (u1 & c3' & Ha1 & H).
  apply ASSERT_Ok in Ha1. destruct Ha1 as [_ ->].
  apply bind_Ok in H. destruct H as (u2 & c3' & Ha2 & H).
  apply ASSERT_Ok in Ha2. destruct Ha2 as [_ ->].
  apply bind_Ok in H. destruct H as (layer & c4 & Hadd & H).
  cbv [addLayer] in Hadd. injection Hadd as <- <-.
  apply bind_Ok in H. destruct H as (u3 & c5 & Hupd & H).
  cbv [updateLayer] in Hupd. injection Hupd as _ <-.
  cbn [network opset ceilingPoolFormula tensors] in H.
  apply bind_Ok in H. destruct H as (st & c6 & Hloop & H).
  match type of Hloop with
  | forM ?xs ?body ?s ?c0 = _ =>
      pose proof (forM_same_ctx body xs
        ltac:(intros x [b p] c0'; unfold asymmetric_padding; revert c0'; same_ctx)
        s c0) as Hc6
  end.
  rewrite Hloop in Hc6. cbn [snd] in Hc6. subst c6.
  apply bind_Ok in H. destruct H as (net & c6 & Hnet & H).
  cbv [getNetwork] in Hnet. injection Hnet as <- <-.
  cbn [network] in H.
  apply lift_bind_Ok in H. destruct H as (pooling & _ & H).
  apply bind_Ok in H. destruct H as (ceilFormula & c6 & Hceil & H).
  injection Hceil as <- <-.
  apply bind_Ok in H. destruct H as (out & c7 & Hback & H).
  apply ret_Ok in H. destruct H as [_ ->].
  match type of Hback with
  | _ ?c0 = _ =>
      assert (Hc7 : exists ls3,
                network c7 = network c0 ++ ls3
                /\ Forall (fun l => presents_only l = true) ls3)
  end.
  { destruct (nbDims (t_dims t0) =? 3).
    - cbv [reshape_tensor bind addLayer ret] in Hback. injection Hback as _ <-.
      cbn [network]. eexists. split; [reflexivity |]. repeat constructor.
    - apply ret_Ok in Hback. destruct Hback as [_ ->]. cbn [network].
      exists []. rewrite app_nil_r. split; constructor. }
  destruct Hc7 as (ls3 & Hc7 & Hp3).
  exists tensor_ptr, (ls1 ++ ls2), ls3. cbv zeta. split.
  - rewrite Hc7. cbn [network].
    rewrite alter_app_r_alt by lia. rewrite Nat.sub_diag.
    cbn [alter list_alter]. rewrite Hc3, Hc2, Hc1.
    rewrite <- !app_assoc. reflexivity.
  - rewrite !Forall_app. repeat split; assumption.
Qed.

Lemma averagePool_compensation_lost_witness :
  exists (tensor_ptr : ITensor) (before after : list Layer),
    let nbSpatialDims := nbDims (t_dims tensor_ptr) - 2 in
    let kp := Examples.explicit_pads [0; 0] [1; 0] Examples.pool_node
                (makeDims nbSpatialDims 1) (makeDims nbSpatialDims 1)
                (makeDims nbSpatialDims 0) (makeDims nbSpatialDims 0) true in
    network
      (snd (importAveragePool (Examples.explicit_pads [0; 0] [1; 0])
              Examples.input_extents Examples.pool_node Examples.pool_inputs
              (Examples.opset_ctx 9)))
    = network (Examples.opset_ctx 9) ++ before
      ++ [LPooling tensor_ptr kAVERAGE (kernel_size kp) (strides kp)
            (exclude_padding kp) (paddingMode kp)
            (beg_padding kp) (end_padding kp)]
      ++ after
    /\ Forall (fun l => presents_only l = true) (before ++ after).
Proof.
  apply (averagePool_compensation_lost (Examples.explicit_pads [0; 0] [1; 0])
           Examples.input_extents Examples.pool_node Examples.pool_inputs
           [Tensor (mkTensor (LayerOutput 0 0) [1; 1; 4; 4])]
           (Examples.opset_ctx 9)).
  vm_compute. reflexivity.
Defined.

End PoolLayerFacts.

(** ** The pooling output formula *)

Module PoolFormulaFacts.
Import PoolFormula DimsFacts SliceBoundsFacts.




End PoolFormulaFacts.

(** ** [Unsqueeze] *)

Module UnsqueezeFacts.
Import Unsqueeze DimsFacts.

Section Counting.

Variable S : gset Z.

Lemma axes_before_succ (k : Z) :
  axes_before S (k + 1)
  = axes_before S k + (if bool_decide (k ∈ S) then 1 else 0).
Proof.
  unfold axes_before. destruct (bool_decide_reflect (k ∈ S)) as [Hk | Hk].
  - replace (filter (fun a => a < k + 1) S)
      with (filter (fun a => a < k) S ∪ {[k]}).
    + rewrite size_union, size_singleton; [lia |].
      intros a. rewrite elem_of_filter, elem_of_singleton. lia.
    + apply set_eq. intros a. rewrite elem_of_union, !elem_of_filter, elem_of_singleton.
      split; [intros [[? ?] | ->]; split; (lia || assumption) | intros [? ?]].
      destruct (Z.eq_dec a k); [now right | left; split; [lia | assumption]].
  - replace (filter (fun a => a < k + 1) S) with (filter (fun a => a < k) S); [lia |].
    apply set_eq. intros a. rewrite !elem_of_filter.
    split; intros [? ?]; split; try assumption; [lia |].
    destruct (Z.eq_dec a k); [subst; contradiction | lia].
Qed.

Lemma axes_before_nonneg (k : Z) : 0 <= axes_before S k.
Proof. unfold axes_before. lia. Qed.

Lemma axes_before_le_size (k : Z) : axes_before S k <= Z.of_nat (size S).
Proof.
  unfold axes_before. apply inj_le. apply subseteq_size.
  intros a. rewrite elem_of_filter. tauto.
Qed.

Lemma axes_before_all (n : Z) :
  (forall a, a ∈ S -> a < n) -> axes_before S n = Z.of_nat (size S).
Proof.
  intros H. unfold axes_before. f_equal. f_equal.
  apply set_eq. intros a. rewrite elem_of_filter. split; [tauto | auto].
Qed.

Lemma axes_before_none (n : Z) :
  (forall a, a ∈ S -> n <= a) -> axes_before S n = 0.
Proof.
  intros H. unfold axes_before.
  replace (filter (fun a => a < n) S) with (∅ : gset Z); [reflexivity |].
  apply set_eq. intros a. rewrite elem_of_filter.
  split; [set_solver | intros [? Ha]; apply H in Ha; lia].
Qed.

(** Between two positions the count grows by at most their distance. *)
Lemma axes_before_mono (k k' : Z) :
  k <= k' -> axes_before S k <= axes_before S k' <= axes_before S k + (k' - k).
Proof.
  intros H. replace k' with (k + Z.of_nat (Z.to_nat (k' - k))) by lia.
  induction (Z.to_nat (k' - k)) as [| n IH].
  - rewrite Z.add_0_r. lia.
  - replace (k + Z.of_nat (Datatypes.S n)) with (k + Z.of_nat n + 1) by lia.
    rewrite axes_before_succ. destruct (bool_decide _); lia.
Qed.

Lemma axes_before_member (k k' : Z) :
  k ∈ S -> k < k' -> axes_before S k + 1 <= axes_before S k'.
Proof.
  intros Hk Hlt. pose proof (axes_before_mono (k + 1) k' ltac:(lia)) as Hm.
  rewrite axes_before_succ in Hm. rewrite bool_decide_eq_true_2 in Hm by exact Hk.
  lia.
Qed.

Lemma axes_before_non_member (k k' : Z) :
  k ∉ S -> k < k' -> axes_before S k' <= axes_before S k + (k' - k - 1).
Proof.
  intros Hk Hlt. pose proof (axes_before_mono (k + 1) k' ltac:(lia)) as Hm.
  rewrite axes_before_succ in Hm. rewrite bool_decide_eq_false_2 in Hm by exact Hk.
  lia.
Qed.

Lemma inserted_lt (k : Z) :
  k ∈ S -> axes_before S k < Z.of_nat (size S).
Proof.
  intros Hk. pose proof (axes_before_le_size (k + 1)) as H.
  rewrite axes_before_succ, bool_decide_eq_true_2 in H by exact Hk. lia.
Qed.

End Counting.

Section Loop.

Variable old_shape : Dims.
Variable S : gset Z.

Local Abbreviation ndim_in := (nbDims old_shape).
Local Abbreviation ndim_out := (nbDims old_shape + Z.of_nat (size S)).

Hypothesis axes_in_range : forall a, a ∈ S -> 0 <= a < ndim_out.

(** The operand's axes used up by position [k]. *)
Lemma consumed_le (k : Z) :
  0 <= k <= ndim_out -> 0 <= k - axes_before S k <= ndim_in.
Proof.
  intros Hk.
  pose proof (axes_before_mono S 0 k ltac:(lia)) as H0.
  rewrite (axes_before_none S 0) in H0 by (intros a Ha; apply axes_in_range in Ha; lia).
  assert (Hle : k <= ndim_out) by lia.
  pose proof (axes_before_mono S k ndim_out Hle) as H1.
  rewrite (axes_before_all S ndim_out) in H1
    by (intros a Ha; apply axes_in_range in Ha; lia).
  lia.
Qed.

Lemma consumed_lt (k : Z) :
  0 <= k < ndim_out -> k ∉ S -> k - axes_before S k < ndim_in.
Proof.
  intros Hk Hn. pose proof (consumed_le (k + 1) ltac:(lia)) as H.
  rewrite axes_before_succ, bool_decide_eq_false_2 in H by exact Hn. lia.
Qed.

Lemma step_LoopInv (t : Z) (st : UnsqueezeVars) :
  0 <= t < ndim_out -> LoopInv old_shape S t st ->
  LoopInv old_shape S (t + 1) (unsqueeze_step old_shape S st).
Proof.
  intros Ht [Hj Hi Hls Hlp Hp Ho Hk].
  pose proof (consumed_le t ltac:(lia)) as Hc.
  pose proof (axes_before_nonneg S t) as Hnn.
  unfold unsqueeze_step. rewrite Hi, Hj.
  replace (t - axes_before S t + axes_before S t) with t by lia.
  pose proof (axes_before_succ S t) as Hs.
  destruct (bool_decide_reflect (t ∈ S)) as [Hin | Hout].
  - pose proof (inserted_lt S t Hin) as Hlt.
    constructor; cbn [uq_i uq_j uq_new_shape uq_perm];
      rewrite ?nbDims_set_dim; try assumption; try lia.
    + intros k Hk'. destruct (Z.eq_dec k t) as [-> | Hne].
      * rewrite dim_set_dim_eq by lia.
        rewrite bool_decide_eq_true_2 by exact Hin. reflexivity.
      * rewrite dim_set_dim_other by congruence. apply Hp. lia.
    + intros j Hj'. destruct (Z.eq_dec j (axes_before S t)) as [-> | Hne].
      * apply dim_set_dim_eq. lia.
      * rewrite dim_set_dim_other by lia. apply Ho. lia.
    + intros i Hi'. rewrite dim_set_dim_other by lia. apply Hk. lia.
  - pose proof (consumed_lt t Ht Hout) as Hlt.
    constructor; cbn [uq_i uq_j uq_new_shape uq_perm];
      rewrite ?nbDims_set_dim; try assumption; try lia.
    + intros k Hk'. destruct (Z.eq_dec k t) as [-> | Hne].
      * rewrite dim_set_dim_eq by lia.
        rewrite bool_decide_eq_false_2 by exact Hout. reflexivity.
      * rewrite dim_set_dim_other by congruence. apply Hp. lia.
    + intros j Hj'. rewrite dim_set_dim_other by lia. apply Ho. lia.
    + intros i Hi'. destruct (Z.eq_dec i (t - axes_before S t)) as [-> | Hne].
      * rewrite dim_set_dim_eq by lia. reflexivity.
      * rewrite dim_set_dim_other by lia. apply Hk. lia.
Qed.

Lemma iter_LoopInv (new_shape perm : Dims) (n : nat) :
  nbDims new_shape = ndim_out -> nbDims perm = ndim_out ->
  Z.of_nat n <= ndim_out ->
  LoopInv old_shape S (Z.of_nat n)
    (Nat.iter n (unsqueeze_step old_shape S) (mkUnsqueezeVars 0 0 new_shape perm)).
Proof.
  intros Hs Hp. induction n as [| n IH]; intros Hn.
  - assert (H0 : axes_before S 0 = 0)
      by (apply axes_before_none; intros a Ha; apply axes_in_range in Ha; lia).
    constructor; cbn [Nat.iter nat_rect uq_i uq_j uq_new_shape uq_perm];
      change (Z.of_nat 0) with 0; rewrite ?H0;
      try assumption; try reflexivity; try lia.
  - cbn [Nat.iter nat_rect].
    replace (Z.of_nat (Datatypes.S n)) with (Z.of_nat n + 1) by lia.
    apply step_LoopInv; [lia | apply IH; lia].
Qed.

End Loop.

(** X12.  [Unsqueeze] with axes that are positions of the result: the reshape
    extents and the permutation that the loop builds give, at each
    position listed in [axes], an extent of 1, and at every other
    position the operand's next extent, in order (a dynamic extent as
    0); the permutation maps the positions of the result one-to-one
    onto the reshape extents.  This holds whatever the two locals held
    before the loop. *)
Theorem unsqueeze_loop_places_axes (old_shape : Dims) (axes : list Z)
  (new_shape0 perm0 : Dims) (k : Z) :
  let axes_set : gset Z := list_to_set axes in
  let ndim_in := nbDims old_shape in
  let ndim_out := ndim_in + Z.of_nat (size axes_set) in
  (forall a, a ∈ axes_set -> 0 <= a < ndim_out) ->
  nbDims new_shape0 = ndim_out -> nbDims perm0 = ndim_out ->
  0 <= k < ndim_out ->
  let new_shape := fst (unsqueeze_loop old_shape axes new_shape0 perm0) in
  let perm := snd (unsqueeze_loop old_shape axes new_shape0 perm0) in
  0 <= dim perm k < ndim_out
  /\ (forall k', 0 <= k' < ndim_out -> dim perm k' = dim perm k -> k' = k)
  /\ (k ∈ axes_set -> dim new_shape (dim perm k) = 1)
  /\ (k ∉ axes_set ->
      dim new_shape (dim perm k)
      = let d := dim old_shape (k - axes_before axes_set k) in
        if d <? 0 then 0 else d).
Proof.
  intros axes_set ndim_in ndim_out Hrange Hs Hp Hk new_shape perm.
  subst new_shape perm. unfold unsqueeze_loop. cbn [fst snd].
  fold axes_set. fold ndim_in. fold ndim_out.
  assert (Hnn : 0 <= ndim_in) by (subst ndim_in; unfold nbDims; lia).
  assert (Hn : Z.of_nat (Z.to_nat ndim_out) = ndim_out) by lia.
  pose proof (iter_LoopInv old_shape axes_set Hrange new_shape0 perm0
                (Z.to_nat ndim_out) Hs Hp ltac:(lia)) as Hinv.
  rewrite Hn in Hinv.
  set (st := Nat.iter _ _ _) in *.
  destruct Hinv as [Hj Hi Hls Hlp Hperm Hones Hkept].
  fold ndim_in ndim_out in Hj, Hi, Hls, Hlp, Hperm, Hones, Hkept.
  assert (Hall : axes_before axes_set ndim_out = Z.of_nat (size axes_set)).
  { apply axes_before_all. intros a Ha. apply Hrange in Ha. lia. }
  assert (Hval : forall q, 0 <= q < ndim_out ->
            dim (uq_perm st) q
            = (if bool_decide (q ∈ axes_set) then ndim_in + axes_before axes_set q
               else q - axes_before axes_set q)
            /\ (q ∈ axes_set ->
                0 <= axes_before axes_set q < Z.of_nat (size axes_set))
            /\ (q ∉ axes_set -> 0 <= q - axes_before axes_set q < ndim_in)).
  { intros q Hq. split; [apply Hperm, Hq |]. split.
    - intros Hin. pose proof (axes_before_nonneg axes_set q).
      pose proof (inserted_lt axes_set q Hin). lia.
    - intros Hout.
      assert (Hq' : 0 <= q <= ndim_out) by lia.
      pose proof (consumed_le old_shape axes_set Hrange q Hq').
      pose proof (consumed_lt old_shape axes_set Hrange q Hq Hout).
      subst ndim_in. lia. }
  destruct (Hval k Hk) as (Hpk & Hka & Hkn).
  split; [| split; [| split]].
  - rewrite Hpk. destruct (bool_decide_reflect (k ∈ axes_set)) as [Hin | Hout].
    + specialize (Hka Hin). subst ndim_out. lia.
    + specialize (Hkn Hout). subst ndim_out. lia.
  - intros k' Hk' Heq. destruct (Hval k' Hk') as (Hpk' & Hka' & Hkn').
    rewrite Hpk, Hpk' in Heq.
    destruct (bool_decide_reflect (k ∈ axes_set)) as [Hin | Hout];
      destruct (bool_decide_reflect (k' ∈ axes_set)) as [Hin' | Hout'].
    + destruct (Z.lt_trichotomy k' k) as [Hlt | [-> | Hlt]]; [| reflexivity |].
      * pose proof (axes_before_member axes_set k' k Hin' Hlt). lia.
      * pose proof (axes_before_member axes_set k k' Hin Hlt). lia.
    + specialize (Hka Hin). specialize (Hkn' Hout'). lia.
    + specialize (Hkn Hout). specialize (Hka' Hin'). lia.
    + destruct (Z.lt_trichotomy k' k) as [Hlt | [-> | Hlt]]; [| reflexivity |].
      * pose proof (axes_before_non_member axes_set k' k Hout' Hlt). lia.
      * pose proof (axes_before_non_member axes_set k k' Hout Hlt). lia.
  - intros Hin. rewrite Hpk, bool_decide_eq_true_2 by exact Hin.
    apply Hones. specialize (Hka Hin). lia.
  - intros Hout. rewrite Hpk, bool_decide_eq_false_2 by exact Hout.
    cbv zeta. rewrite Hkept; [reflexivity |].
    specialize (Hkn Hout). lia.
Qed.

Lemma unsqueeze_loop_places_axes_witness :
  let new_shape := fst (unsqueeze_loop [3; 4] [0; 2] [7; 7; 7; 7] [9; 9; 9; 9]) in
  let perm := snd (unsqueeze_loop [3; 4] [0; 2] [7; 7; 7; 7] [9; 9; 9; 9]) in
  dim new_shape (dim perm 2) = 1 /\ dim new_shape (dim perm 3) = 4.
Proof.
  assert (Hsize : size (list_to_set [0; 2] : gset Z) = 2%nat) by (vm_compute; reflexivity).
  assert (Hrange : forall a, a ∈ (list_to_set [0; 2] : gset Z) ->
            0 <= a < nbDims [3; 4] + Z.of_nat (size (list_to_set [0; 2] : gset Z))).
  { intros a Ha. rewrite Hsize. rewrite elem_of_list_to_set in Ha.
    repeat (apply elem_of_cons in Ha; destruct Ha as [-> | Ha]); [unfold nbDims; cbn; lia .. |].
    inversion Ha. }
  split.
  - apply (unsqueeze_loop_places_axes [3; 4] [0; 2] [7; 7; 7; 7] [9; 9; 9; 9] 2 Hrange);
      [rewrite Hsize; reflexivity | rewrite Hsize; reflexivity
       | rewrite Hsize; unfold nbDims; cbn; lia |].
    rewrite elem_of_list_to_set. apply list_elem_of_In. cbn. tauto.
  - destruct (unsqueeze_loop_places_axes [3; 4] [0; 2] [7; 7; 7; 7] [9; 9; 9; 9] 3 Hrange)
      as (_ & _ & _ & Hkeep);
      [rewrite Hsize; reflexivity | rewrite Hsize; reflexivity
       | rewrite Hsize; unfold nbDims; cbn; lia |].
    rewrite Hkeep.
    + vm_compute. reflexivity.
    + rewrite elem_of_list_to_set. intros Ha.
      repeat (apply elem_of_cons in Ha; destruct Ha as [Ha | Ha]); try discriminate.
      inversion Ha.
Defined.

End UnsqueezeFacts.

(** ** When no transpose is required *)

Module LayoutFacts.
Import Layout DimsFacts TransposeFacts.

Section Scan.

Variable shape : Dims.
Variable perm : list Z.

(** The body of the loop of [is_transpose_required], on the flag that
    stands for the early [return true] and the local
    [prev_significant_dim]. *)
Local Abbreviation step :=
  (fun (st : bool * Z) (dst_i : Z) =>
     let (found, prev_significant_dim) := st in
     if found then st
     else
       let src_i := dim perm dst_i in
       let dim_i := dim shape src_i in
       if negb (dim_i =? 1) then
         if dim_i =? -1 then (true, prev_significant_dim)
         else if src_i <? prev_significant_dim then (true, prev_significant_dim)
         else (false, src_i)
       else st).

Lemma scan_found (l : list Z) (prev : Z) :
  fold_left step l (true, prev) = (true, prev).
Proof. induction l as [| x l IH]; [reflexivity | exact IH]. Qed.

Lemma scan_spec (l : list Z) (prev : Z) :
  fst (fold_left step l (false, prev)) = false
  <-> Forall (fun dst_i => dim shape (dim perm dst_i) <> -1) l
      /\ Sorted Z.le (prev :: significant shape (map (fun d => dim perm d) l)).
Proof.
  revert prev. induction l as [| dst l IH]; intros prev.
  - cbn. split; [intros _; split; repeat constructor | reflexivity].
  - cbn [fold_left map]. unfold significant in *.
    rewrite filter_cons.
    destruct (Z.eqb_spec (dim shape (dim perm dst)) 1) as [E1 | N1]; cbn [negb].
    + rewrite decide_False by (intros H; apply H; exact E1).
      rewrite IH. rewrite Forall_cons. intuition lia.
    + rewrite decide_True by exact N1.
      destruct (Z.eqb_spec (dim shape (dim perm dst)) (-1)) as [E2 | N2].
      { rewrite scan_found. cbn [fst]. rewrite Forall_cons.
        split; [discriminate | intros [[H _] _]; contradiction]. }
      destruct (Z.ltb_spec (dim perm dst) prev) as [Hlt | Hge].
      { rewrite scan_found. cbn [fst]. rewrite Forall_cons.
        split; [discriminate |]. intros [_ Hs].
        apply Sorted_inv in Hs. destruct Hs as [_ Hhd].
        apply HdRel_inv in Hhd. lia. }
      rewrite IH. rewrite Forall_cons. split.
      * intros [Hall Hs]. split; [auto |]. constructor; [exact Hs |].
        constructor. exact Hge.
      * intros [[_ Hall] Hs]. split; [exact Hall |].
        apply Sorted_inv in Hs. tauto.
Qed.

End Scan.

Lemma map_dim_iota (l : list Z) : map (fun i => dim l i) (iota (length l)) = l.
Proof.
  apply list_eq. intros k. unfold iota. rewrite !list_lookup_fmap.
  destruct (l !! k) as [x |] eqn:Hk.
  - rewrite lookup_seq_lt by (eapply lookup_lt_Some; exact Hk).
    cbn. rewrite dim_nat. f_equal. apply nth_lookup_Some with (d := 0) in Hk.
    exact Hk.
  - rewrite lookup_seq_ge by (apply lookup_ge_None; exact Hk). reflexivity.
Qed.

(** X13.  [is_transpose_required] answers that no transpose is required
    exactly when none of the extents it visits is dynamic and the axes
    whose extent is not 1 are visited in increasing order. *)
Theorem is_transpose_required_false (shape : Dims) (perm : list Z) :
  is_transpose_required shape perm = false
  <-> Forall (fun p => dim shape p <> -1) (visited shape perm)
      /\ Sorted Z.le (0 :: significant shape (visited shape perm)).
Proof.
  unfold is_transpose_required, visited.
  rewrite (scan_spec shape perm (iota (length shape)) 0).
  rewrite Forall_fmap. reflexivity.
Qed.

Lemma volume_significant (shape : Dims) (ps : list Z) :
  volume (map (fun p => dim shape p) (significant shape ps))
  = volume (map (fun p => dim shape p) ps).
Proof.
  unfold significant. induction ps as [| p ps IH]; [reflexivity |].
  rewrite filter_cons. destruct (decide (dim shape p <> 1)) as [Hs | Hu].
  - cbn [map]. unfold volume in *. cbn [fold_right]. rewrite IH. reflexivity.
  - cbn [map]. unfold volume in *. cbn [fold_right]. rewrite IH.
    assert (E : dim shape p = 1) by (destruct (Z.eq_dec (dim shape p) 1); tauto).
    rewrite E. lia.
Qed.

(** Axes of extent 1 do not count in a row-major offset. *)
Lemma ravel_significant (shape j : Dims) (ps : list Z) :
  (forall p, p ∈ ps -> dim shape p = 1 -> dim j p = 0) ->
  ravel (map (fun p => dim shape p) ps) (map (fun p => dim j p) ps)
  = ravel (map (fun p => dim shape p) (significant shape ps))
      (map (fun p => dim j p) (significant shape ps)).
Proof.
  induction ps as [| p ps IH]; intros Hunit; [reflexivity |].
  assert (IH' := IH ltac:(intros q Hq; apply Hunit; right; exact Hq)).
  pose proof (volume_significant shape ps) as Hv.
  unfold significant in *. rewrite filter_cons.
  destruct (decide (dim shape p <> 1)) as [Hs | Hu].
  - cbn [map ravel]. rewrite IH', Hv. reflexivity.
  - assert (E : dim shape p = 1) by (destruct (Z.eq_dec (dim shape p) 1); tauto).
    cbn [map ravel]. rewrite (Hunit p ltac:(left) E), IH'. lia.
Qed.

Lemma iota_sorted (a n : nat) : StronglySorted Z.le (map Z.of_nat (seq a n)).
Proof.
  revert a. induction n as [| n IH]; intros a; [constructor |].
  cbn [seq map]. constructor; [apply IH |].
  apply List.Forall_forall. intros x Hx. apply in_map_iff in Hx.
  destruct Hx as (k & <- & Hk). apply in_seq in Hk. lia.
Qed.

Lemma significant_sorted (shape : Dims) (ps : list Z) :
  StronglySorted Z.le ps -> StronglySorted Z.le (significant shape ps).
Proof.
  unfold significant. induction 1 as [| p ps Hs IH Hall]; [constructor |].
  rewrite filter_cons. destruct (decide (dim shape p <> 1)); [| exact IH].
  constructor; [exact IH |].
  apply List.Forall_forall. intros x Hx.
  rewrite List.Forall_forall in Hall. apply Hall.
  apply list_elem_of_In in Hx. apply list_elem_of_In.
  apply list_elem_of_filter in Hx. tauto.
Qed.

(** X14.  When [is_transpose_required] answers that no transpose is required
    for a permutation of the axes, transposing moves no data: an element
    of the operand and its image in the transposed tensor lie at the same
    row-major offset, so that the reshape which [transpose_tensor] then
    sets on the shuffle layer is the transpose. *)
Theorem no_transpose_same_offsets (shape : Dims) (perm j : list Z) :
  valid_permutation perm (length shape) = true ->
  in_bounds j shape ->
  is_transpose_required shape perm = false ->
  ravel (map (fun p => dim shape p) perm) (map (fun p => dim j p) perm)
  = ravel shape j.
Proof.
  intros Hvalid Hj Hno.
  pose proof (valid_permutation_spec _ _ Hvalid) as Hperm.
  assert (Hlen : length perm = length shape).
  { apply Permutation_length in Hperm. unfold iota in Hperm.
    rewrite length_map, length_seq in Hperm. lia. }
  unfold is_transpose_required in Hno.
  apply (scan_spec shape perm (iota (length shape)) 0) in Hno.
  destruct Hno as [_ Hsorted].
  rewrite <- Hlen, map_dim_iota in Hsorted.
  apply Sorted_inv in Hsorted. destruct Hsorted as [Hsorted _].
  assert (Heq : significant shape perm = significant shape (iota (length shape))).
  { apply (Sorted_unique Z.le); [exact Hsorted | |].
    - apply StronglySorted_Sorted, significant_sorted, iota_sorted.
    - unfold significant. rewrite Hperm. reflexivity. }
  assert (Hunit : forall ps : list Z,
            (forall p, p ∈ ps -> In p (iota (length shape))) ->
            forall p, p ∈ ps -> dim shape p = 1 -> dim j p = 0).
  { intros ps Hps p Hp E.
    pose proof (in_bounds_dim j shape p Hj (Hps p Hp)) as Hb. lia. }
  rewrite (ravel_significant shape j perm).
  2:{ apply Hunit. intros p Hp. apply list_elem_of_In in Hp.
      apply (Permutation_in p (Permutation_sym Hperm) Hp). }
  rewrite Heq.
  rewrite <- (ravel_significant shape j (iota (length shape))).
  2:{ apply Hunit. intros p Hp. apply list_elem_of_In in Hp. exact Hp. }
  rewrite map_dim_iota.
  replace (length shape) with (length j) by (apply Forall2_length in Hj; exact Hj).
  rewrite map_dim_iota. reflexivity.
Qed.

Lemma no_transpose_same_offsets_witness :
  ravel (map (fun p => dim [1; 3; 1; 4] p) [1; 0; 3; 2])
    (map (fun p => dim [0; 2; 0; 3] p) [1; 0; 3; 2])
  = ravel [1; 3; 1; 4] [0; 2; 0; 3].
Proof.
  apply (no_transpose_same_offsets [1; 3; 1; 4] [1; 0; 3; 2] [0; 2; 0; 3]).
  - vm_compute. reflexivity.
  - unfold in_bounds. repeat constructor; lia.
  - vm_compute. reflexivity.
Defined.

End LayoutFacts.

(** ** Lifetime of the recorder, and reports in sequence *)

Module LifetimeFacts.
Import Recorder Lifetime RecorderFacts ThreadFacts.

Lemma times_S (n : nat) (call : Heap -> option (Z * Heap)) (h : Heap) :
  times (S n) call h = times n call h ≫= fun h => snd <$> call h.
Proof. reflexivity. Qed.

Lemma times_incRefCount (n : nat) (r : ONNXParserErrorRecorder)
  (calls : list RefCall) :
  0 <= mRefCount r -> mRefCount r + Z.of_nat n < 2 ^ 31 ->
  times n incRefCount (mkHeap (Some r) calls)
  = Some (mkHeap (Some (set_mRefCount r (mRefCount r + Z.of_nat n))) calls).
Proof.
  intros H0. induction n as [| n IH]; intros Hn.
  - cbn. rewrite Z.add_0_r. destruct r; reflexivity.
  - rewrite times_S, IH by lia. cbn [mbind option_bind].
    unfold incRefCount.
    cbn [object mRefCount set_mRefCount userRefCalls fmap option_fmap
         option_map snd].
    rewrite to_int32_small by lia. unfold set_mRefCount. cbn.
    replace (mRefCount r + Z.of_nat (S n)) with (mRefCount r + Z.of_nat n + 1)
      by lia.
    reflexivity.
Qed.

Lemma times_decRefCount (n : nat) (r : ONNXParserErrorRecorder)
  (calls : list RefCall) :
  Z.of_nat n < mRefCount r < 2 ^ 31 ->
  times n decRefCount (mkHeap (Some r) calls)
  = Some (mkHeap (Some (set_mRefCount r (mRefCount r - Z.of_nat n))) calls).
Proof.
  induction n as [| n IH]; intros Hn.
  - cbn. rewrite Z.sub_0_r. destruct r; reflexivity.
  - rewrite times_S, IH by lia. cbn [mbind option_bind].
    unfold decRefCount. cbn [object mRefCount set_mRefCount userRefCalls].
    rewrite to_int32_small by lia.
    destruct (Z.eqb_spec (mRefCount r - Z.of_nat n - 1) 0) as [? | _]; [lia |].
    unfold set_mRefCount. cbn.
    replace (mRefCount r - Z.of_nat (S n)) with (mRefCount r - Z.of_nat n - 1)
      by lia.
    reflexivity.
Qed.

(** X15.  The recorder lives exactly as long as it is referenced: [create]
    leaves it with one reference; after [n] further references have
    been taken and given back it is still allocated, with its count back
    at 1; [destroy] then deletes it and nulls the pointer.  Over its
    whole life the user's recorder, if there is one, is retained once,
    at construction, and released once, at deletion. *)
Theorem recorder_lifetime (logger : option (list string))
  (otherRecorder : option (list errorPair)) (h : Heap) (n : nat) :
  Z.of_nat n < 2 ^ 31 - 1 ->
  exists h1 h2 r,
    create logger otherRecorder h = Some (true, h1)
    /\ times n incRefCount h1 ≫= times n decRefCount = Some h2
    /\ object h2 = Some r /\ mRefCount r = 1
    /\ userRefCalls h2
       = userRefCalls h ++ match otherRecorder with Some _ => [IncRef] | None => [] end
    /\ destroy true h2
       = Some (false,
               mkHeap None
                 (userRefCalls h
                    ++ match otherRecorder with
                       | Some _ => [IncRef; DecRef]
                       | None => []
                       end)).
Proof.
  intros Hn.
  set (calls := match otherRecorder with
                | Some _ => userRefCalls h ++ [IncRef]
                | None => userRefCalls h
                end).
  set (r0 := mkRecorder [] 1 otherRecorder logger).
  exists (mkHeap (Some r0) calls), (mkHeap (Some r0) calls), r0.
  split; [reflexivity |]. split.
  { rewrite (times_incRefCount n r0 calls) by (cbn; lia).
    cbn [mbind option_bind].
    rewrite times_decRefCount by (cbn; lia).
    unfold set_mRefCount. cbn.
    replace (1 + Z.of_nat n - Z.of_nat n) with 1 by lia. reflexivity. }
  split; [reflexivity |]. split; [reflexivity |]. split.
  { subst calls. destruct otherRecorder; [reflexivity | now rewrite app_nil_r]. }
  subst calls r0. unfold destroy, decRefCount. cbn [object mRefCount].
  change (to_int32 (1 - 1)) with 0. cbn [Z.eqb].
  unfold delete_this. cbn [mUserRecorder userRefCalls].
  destruct otherRecorder; rewrite ?app_nil_r, <- ?app_assoc; reflexivity.
Qed.

Lemma recorder_lifetime_witness :
  exists h1 h2 r,
    create (Some []) (Some []) (mkHeap None []) = Some (true, h1)
    /\ times 2 incRefCount h1 ≫= times 2 decRefCount = Some h2
    /\ object h2 = Some r /\ mRefCount r = 1
    /\ userRefCalls h2 = [IncRef]
    /\ destroy true h2 = Some (false, mkHeap None [IncRef; DecRef]).
Proof.
  apply (recorder_lifetime (Some []) (Some []) (mkHeap None []) 2).
  vm_compute. reflexivity.
Defined.

(** X16.  [clear] empties the recorder: no error is counted and every index
    reads as out of range; the reference count, the user's recorder and
    the logger are left as they were. *)
Theorem clear_empties (r : ONNXParserErrorRecorder) (i : Z) :
  - 2 ^ 31 <= i < 2 ^ 31 ->
  getNbErrors (clear r) = 0
  /\ getErrorCode (clear r) i = Some kINVALID_ARGUMENT
  /\ getErrorDesc (clear r) i = Some "errorIdx out of range."%string
  /\ mRefCount (clear r) = mRefCount r
  /\ mUserRecorder (clear r) = mUserRecorder r
  /\ mLogger (clear r) = mLogger r.
Proof.
  intros Hi.
  assert (Hchk : invalidIndexCheck (clear r) i = true).
  { apply invalidIndexCheck_spec; [exact Hi | vm_compute; discriminate |].
    unfold size, clear. cbn. lia. }
  unfold getErrorCode, getErrorDesc. rewrite Hchk. repeat split.
Qed.

Lemma clear_empties_witness :
  getNbErrors (clear Examples.two_errors) = 0
  /\ getErrorCode (clear Examples.two_errors) 0 = Some kINVALID_ARGUMENT
  /\ getErrorDesc (clear Examples.two_errors) 0
     = Some "errorIdx out of range."%string
  /\ mRefCount (clear Examples.two_errors) = mRefCount Examples.two_errors
  /\ mUserRecorder (clear Examples.two_errors) = mUserRecorder Examples.two_errors
  /\ mLogger (clear Examples.two_errors) = mLogger Examples.two_errors.
Proof. apply (clear_empties Examples.two_errors 0). lia. Defined.

(** X17.  A report made by one thread is appended: the count grows by one,
    the new pair is read back at the index that was the count, every
    earlier index reads as before, and the call returns [true]. *)
Theorem reportError_appends (r : ONNXParserErrorRecorder) (val : ErrorCode)
  (desc : string) :
  size r < 2 ^ 31 - 1 ->
  let r' := snd (reportError r val desc) in
  fst (reportError r val desc) = true
  /\ getNbErrors r' = getNbErrors r + 1
  /\ getErrorCode r' (getNbErrors r) = Some val
  /\ getErrorDesc r' (getNbErrors r) = Some desc
  /\ forall i, 0 <= i < getNbErrors r ->
       getErrorCode r' i = getErrorCode r i
       /\ getErrorDesc r' i = getErrorDesc r i.
Proof.
  intros Hsz r'.
  assert (Hstack : mErrorStack r' = mErrorStack r ++ [(val, desc)]).
  { subst r'. unfold reportError, notify, push_back. cbn.
    destruct (mUserRecorder r); reflexivity. }
  assert (Hsize : size r' = size r + 1).
  { unfold size in *. rewrite Hstack, length_app. cbn [length]. lia. }
  assert (Hnb : getNbErrors r = size r).
  { unfold getNbErrors. apply to_int32_small. unfold size in *. lia. }
  assert (Hnb' : getNbErrors r' = size r + 1).
  { unfold getNbErrors. rewrite Hsize. apply to_int32_small. unfold size in *. lia. }
  assert (Hread : forall i, 0 <= i < size r + 1 ->
            getErrorCode r' i = fst <$> (mErrorStack r ++ [(val, desc)]) !! Z.to_nat i
            /\ getErrorDesc r' i = snd <$> (mErrorStack r ++ [(val, desc)]) !! Z.to_nat i).
  { intros i Hi.
    assert (Hchk : invalidIndexCheck r' i = false).
    { destruct (invalidIndexCheck r' i) eqn:E; [| reflexivity].
      apply invalidIndexCheck_spec in E; unfold vector_max_size; lia. }
    unfold getErrorCode, getErrorDesc, index. rewrite Hchk.
    rewrite to_size_t_nonneg by lia. rewrite Hstack. split; reflexivity. }
  split; [reflexivity |]. split; [lia |].
  rewrite Hnb.
  destruct (Hread (size r) ltac:(unfold size; lia)) as [Hc Hd].
  unfold size in Hc, Hd. rewrite Nat2Z.id in Hc, Hd.
  rewrite lookup_app_r, Nat.sub_diag in Hc, Hd by lia.
  split; [exact Hc |]. split; [exact Hd |].
  intros i Hi. destruct (Hread i ltac:(lia)) as [Hc' Hd'].
  rewrite lookup_app_l in Hc', Hd' by (unfold size in Hi; lia).
  assert (Hchk : invalidIndexCheck r i = false).
  { destruct (invalidIndexCheck r i) eqn:E; [| reflexivity].
    apply invalidIndexCheck_spec in E; unfold vector_max_size; lia. }
  unfold getErrorCode at 2, getErrorDesc at 2, index. rewrite Hchk.
  rewrite to_size_t_nonneg by lia. split; assumption.
Qed.

Lemma reportError_appends_witness :
  getNbErrors (snd (reportError Examples.two_errors kINVALID_STATE "third")) = 3
  /\ getErrorCode (snd (reportError Examples.two_errors kINVALID_STATE "third")) 2
     = Some kINVALID_STATE
  /\ getErrorCode (snd (reportError Examples.two_errors kINVALID_STATE "third")) 1
     = Some kINVALID_CONFIG.
Proof.
  destruct (reportError_appends Examples.two_errors kINVALID_STATE "third")
    as (_ & Hnb & Hc & _ & Hold).
  - vm_compute. reflexivity.
  - split; [exact Hnb |]. split; [exact Hc |].
    destruct (Hold 1) as [H1 _]; [vm_compute; split; [discriminate | reflexivity] |].
    exact H1.
Defined.

(** X18.  Reports made one after the other are kept, and passed on, in the
    order in which they were made: the vector gains the pairs in order;
    with a user's recorder, that recorder receives each of them, in
    order, and the logger nothing; without one, the logger, if any,
    receives the descriptions, in order.  Every call returns [true] and
    the reference count is not touched. *)
Theorem reportErrors_in_order (r : ONNXParserErrorRecorder)
  (calls : list errorPair) :
  fst (reportErrors r calls) = repeat true (length calls)
  /\ mErrorStack (snd (reportErrors r calls)) = mErrorStack r ++ calls
  /\ mRefCount (snd (reportErrors r calls)) = mRefCount r
  /\ match mUserRecorder r with
     | Some received =>
         mUserRecorder (snd (reportErrors r calls)) = Some (received ++ calls)
         /\ mLogger (snd (reportErrors r calls)) = mLogger r
     | None =>
         mUserRecorder (snd (reportErrors r calls)) = None
         /\ mLogger (snd (reportErrors r calls))
            = (fun lines => lines ++ map snd calls) <$> mLogger r
     end.
Proof.
  unfold reportErrors. induction calls as [| p calls IH] using rev_ind.
  - cbn. rewrite !app_nil_r. repeat split.
    destruct (mUserRecorder r); split; rewrite ?app_nil_r; try reflexivity.
    destruct (mLogger r); cbn; [rewrite app_nil_r |]; reflexivity.
  - rewrite fold_left_app. cbn [fold_left].
    destruct IH as (Hb & Hs & Hc & Hu).
    set (st := fold_left _ calls ([], r)) in *.
    unfold reportError, notify, push_back.
    cbn [fst snd mErrorStack mRefCount mUserRecorder mLogger].
    rewrite length_app. cbn [length]. rewrite Nat.add_1_r.
    cbn [repeat]. rewrite repeat_cons.
    destruct (mUserRecorder r) as [received |] eqn:Hur.
    + destruct Hu as [Hu Hl]. rewrite Hu.
      cbn [fst snd mErrorStack mRefCount mUserRecorder mLogger].
      rewrite Hb, Hs, Hc, Hl, <- !app_assoc.
      destruct p; repeat split; reflexivity.
    + destruct Hu as [Hu Hl]. rewrite Hu.
      cbn [fst snd mErrorStack mRefCount mUserRecorder mLogger].
      rewrite Hb, Hs, Hc, Hl, <- !app_assoc.
      destruct p as [val desc]. repeat split.
      unfold logError. destruct (mLogger r); cbn; [| reflexivity].
      rewrite map_app, <- app_assoc. reflexivity.
Qed.

End LifetimeFacts.

